(** * QuickMH Log: the data-integrity pipeline, embedded and verified

    A shallow embedding of the validation, security, storage, retry and CSV
    code of the QuickMH Log application (errorHandler.js, security.js and
    the application class), with the properties of its specification
    checked against it.

    Conventions of the embedding
    - a JavaScript string is the list of its UTF-16 code units;
    - a function that can throw returns a sum or an option;
    - mutable state (the limiter's call list, the entry collection, the
      underlying key-value store) is passed explicitly;
    - built-ins whose result the language leaves to the engine
      (Array.prototype.sort, JSON, base64, toLowerCase) are parameters,
      with what ECMAScript guarantees of them stated where it is used;
    - toasts, the drawing of the table and the error log are presentation
      effects and are left out; the sorting of the collection that comes
      with every drawing of the history table is not, it is part of the
      state. *)

From Stdlib Require Import List ZArith NArith Bool Lia Permutation Sorted.
From Stdlib Require String Ascii.
Import ListNotations.
Import String.StringSyntax.
Delimit Scope string_scope with string.

(* ================================================================== *)
(** * SecurityManager.createRateLimiter *)
(* ================================================================== *)

Module RateLimiter.
Local Open Scope Z_scope.

Section Limiter.

(** State the wrapped operation may read and write, and the type of its
    completion (a normal result or a failure of its own: the limiter
    passes both through untouched). *)
Variable World : Type.
Variable T : Type.

(** [createRateLimiter(maxCalls, timeWindow)]. Times are the integer
    milliseconds of [Date.now()]. *)
Variable maxCalls : Z.
Variable timeWindow : Z.

Definition operation := World -> T * World.

(** while (calls.length > 0 && calls[0] < now - timeWindow) calls.shift(); *)
Fixpoint evict (now : Z) (calls : list Z) : list Z :=
  match calls with
  | c :: rest => if c <? now - timeWindow then evict now rest else calls
  | [] => []
  end.

Inductive outcome :=
| Executed (r : T)          (* return fn() *)
| RateLimitExceeded.        (* throw new Error('Rate limit exceeded') *)

(** The closure's private state is the list [calls]; [World] is
    everything else. *)
Definition limiter_state : Type := list Z * World.

Definition fresh (w : World) : limiter_state := ([], w).

(** One invocation of the wrapper returned by createRateLimiter. *)
Definition invoke (fn : operation) (now : Z) (st : limiter_state)
  : outcome * limiter_state :=
  let calls := evict now (fst st) in
  if Z.of_nat (length calls) >=? maxCalls then
    (RateLimitExceeded, (calls, snd st))
  else
    let calls' := calls ++ [now] in
    let '(r, w') := fn (snd st) in
    (Executed r, (calls', w')).

(** A sequence of invocations at the given clock readings. *)
Fixpoint invoke_all (fn : operation) (times : list Z) (st : limiter_state)
  : list outcome * limiter_state :=
  match times with
  | [] => ([], st)
  | now :: rest =>
      let '(o, st1) := invoke fn now st in
      let '(os, st2) := invoke_all fn rest st1 in
      (o :: os, st2)
  end.

(** The wrapped operation run [n] times in a row: results and world. *)
Fixpoint run_operation (fn : operation) (n : nat) (w : World)
  : list T * World :=
  match n with
  | O => ([], w)
  | S k => let '(r, w1) := fn w in
           let '(rs, w2) := run_operation fn k w1 in
           (r :: rs, w2)
  end.

(** The call list never grows beyond the quota. *)
Definition quota_respected (calls : list Z) : Prop :=
  calls = [] \/ Z.of_nat (length calls) <= maxCalls.

(** The calls all fall in the window opened by the first of them. *)
Definition within_one_window (times : list Z) : Prop :=
  match times with
  | [] => True
  | t1 :: _ => Forall (fun t => t1 <= t <= t1 + timeWindow) times
  end.

End Limiter.

Arguments Executed {T} r.
Arguments RateLimitExceeded {T}.
Arguments fresh {World} w.
Arguments invoke {World T} maxCalls timeWindow fn now st.
Arguments invoke_all {World T} maxCalls timeWindow fn times st.
Arguments run_operation {World T} fn n w.

(** The clock readings of the invocations that ran the operation. *)
Fixpoint executed_times {T} (times : list Z) (outs : list (outcome T)) : list Z :=
  match times, outs with
  | t :: times', Executed _ :: outs' => t :: executed_times times' outs'
  | _ :: times', RateLimitExceeded :: outs' => executed_times times' outs'
  | _, _ => []
  end.

(** How many of the readings fall in the window that opens at [s]. *)
Definition count_in_window (timeWindow s : Z) (ts : list Z) : nat :=
  length (filter (fun t => (s <=? t) && (t <=? s + timeWindow)) ts).

(** A clock that never goes back. *)
Fixpoint nondecreasing (times : list Z) : Prop :=
  match times with
  | t1 :: rest => match rest with
                  | t2 :: _ => t1 <= t2 /\ nondecreasing rest
                  | [] => True
                  end
  | [] => True
  end.

(** A sample wrapped operation: it returns the number of times it has run
    before and counts this run. *)
Definition counting : operation nat nat := fun w => (w, S w).

End RateLimiter.

(* ================================================================== *)
(** * RetryHandler.withRetry *)
(* ================================================================== *)

Module Retry.
Local Open Scope Z_scope.

Section WithRetry.

(** [World] is whatever the operation reads and writes; awaiting the
    operation either yields a value ([inr]) or rejects ([inl]). *)
Variables World E T : Type.

Definition operation := World -> (E + T) * World.

(** What an observer of one [withRetry] call sees, in order. *)
Inductive event :=
| Invoke                 (* await operation() *)
| Wait (ms : Z).         (* await new Promise(r => setTimeout(r, waitTime)) *)

(** [lastError] is declared without a value, so the [throw lastError]
    after the loop can throw [undefined]: [Throw None]. *)
Inductive completion :=
| Return (v : T)
| Throw (e : option E).

Variable op : operation.
Variable maxRetries : Z.
Variable delay : Z.

(** The [for] loop from the iteration numbered [attempt] on;
    [remaining] counts the iterations still allowed by
    [attempt <= maxRetries], and reaching [O] is the loop's exit. *)
Fixpoint attempts (remaining : nat) (attempt : Z) (lastError : option E)
                  (w : World) : completion * World * list event :=
  match remaining with
  | O => (Throw lastError, w, [])
  | S remaining' =>
      if attempt <=? maxRetries then
        match op w with
        | (inr v, w1) => (Return v, w1, [Invoke])
        | (inl error, w1) =>
            if attempt =? maxRetries then
              (Throw (Some error), w1, [Invoke])
            else
              let waitTime := delay * 2 ^ (attempt - 1) in
              let '(c, w2, evs) :=
                attempts remaining' (attempt + 1) (Some error) w1 in
              (c, w2, Invoke :: Wait waitTime :: evs)
        end
      else (Throw lastError, w, [])
  end.

Definition withRetry (w : World) : completion * World * list event :=
  attempts (Z.to_nat maxRetries) 1 None w.

(** The world after [n] invocations of the operation in a row. *)
Fixpoint world_after (n : nat) (w : World) : World :=
  match n with
  | O => w
  | S k => world_after k (snd (op w))
  end.

(** The outcome of the [k]-th invocation ([k] counted from 1). *)
Definition nth_outcome (k : nat) (w : World) : E + T :=
  fst (op (world_after (k - 1) w)).

Definition count_invocations (evs : list event) : nat :=
  length (filter (fun ev => match ev with Invoke => true | _ => false end) evs).

Definition waits (evs : list event) : list Z :=
  flat_map (fun ev => match ev with Wait ms => [ms] | _ => [] end) evs.

(** The time spent waiting between the invocations. *)
Definition total_wait (evs : list event) : Z := fold_right Z.add 0 (waits evs).

(** [n] invocations with the backoff delays between consecutive ones:
    the one after attempt [k] is [delay * 2^(k-1)]. *)
Fixpoint backoff_schedule (first_attempt : Z) (n : nat) : list event :=
  match n with
  | O => []
  | S O => [Invoke]
  | S k => Invoke :: Wait (delay * 2 ^ (first_attempt - 1))
                  :: backoff_schedule (first_attempt + 1) k
  end.

End WithRetry.

Arguments Return {E T} v.
Arguments Throw {E T} e.
Arguments attempts {World E T} op maxRetries delay remaining attempt lastError w.
Arguments withRetry {World E T} op maxRetries delay w.
Arguments world_after {World E T} op n w.
Arguments nth_outcome {World E T} op k w.

(** Sample operations over a counter: one that always rejects with the
    number of the invocation, one that resolves from the third call on. *)
Definition always_failing : operation nat nat nat :=
  fun w => (inl (S w), S w).

Definition third_time_lucky : operation nat nat nat :=
  fun w => (if (w <? 2)%nat then inl (S w) else inr (S w), S w).

End Retry.

(* ================================================================== *)
(** * JavaScript strings and regular expressions *)
(* ================================================================== *)

Module JS.
Local Open Scope N_scope.

(** A string is the sequence of its UTF-16 code units. *)
Definition jstring := list N.

(** An ASCII literal as a JavaScript string. *)
Definition lit (s : String.string) : jstring :=
  map Ascii.N_of_ascii (String.list_ascii_of_string s).
Arguments lit s%_string.

Definition DQUOTE : N := 34.     (* the double-quote character *)
Definition COMMA : N := 44.
Definition LF : N := 10.
Definition BOM : N := 65279.     (* U+FEFF *)

Fixpoint jstring_eqb (a b : jstring) : bool :=
  match a, b with
  | [], [] => true
  | x :: a', y :: b' => N.eqb x y && jstring_eqb a' b'
  | _, _ => false
  end.

(** WhiteSpace and LineTerminator of ECMAScript: what [trim] strips and
    what [\s] matches. *)
Definition is_whitespace (c : N) : bool :=
  ((9 <=? c) && (c <=? 13)) || (c =? 32) || (c =? 160) || (c =? 5760)
  || ((8192 <=? c) && (c <=? 8202)) || (c =? 8232) || (c =? 8233)
  || (c =? 8239) || (c =? 8287) || (c =? 12288) || (c =? 65279).

Fixpoint trimStart (s : jstring) : jstring :=
  match s with
  | c :: s' => if is_whitespace c then trimStart s' else s
  | [] => []
  end.

Definition trimEnd (s : jstring) : jstring := rev (trimStart (rev s)).

Definition trim (s : jstring) : jstring := trimEnd (trimStart s).

(** A string that does not begin, or end, with white space. *)
Definition clean_start (s : jstring) : Prop :=
  match s with
  | [] => True
  | c :: _ => is_whitespace c = false
  end.

Definition clean_end (s : jstring) : Prop := clean_start (rev s).

(** [s.split(sep)] for a one-character separator: never an empty list. *)
Fixpoint split (sep : N) (s : jstring) : list jstring :=
  match s with
  | [] => [[]]
  | c :: s' =>
      if c =? sep then [] :: split sep s'
      else match split sep s' with
           | part :: parts => (c :: part) :: parts
           | [] => [[c]]
           end
  end.

(** [parts.join(sep)] for an array of strings. *)
Fixpoint join (sep : jstring) (parts : list jstring) : jstring :=
  match parts with
  | [] => []
  | [p] => p
  | p :: rest => p ++ sep ++ join sep rest
  end.

Fixpoint startsWith (prefix s : jstring) : bool :=
  match prefix, s with
  | [], _ => true
  | p :: prefix', c :: s' => (p =? c) && startsWith prefix' s'
  | _ :: _, [] => false
  end.

(** Case folding of the [i] flag without the [u] flag: only ASCII letters
    fold onto ASCII letters. *)
Definition upper (c : N) : N :=
  if (97 <=? c) && (c <=? 122) then c - 32 else c.

(** ** Regular expressions

    The fragment the sources use: character classes, sequence,
    alternation and greedy or lazy iteration, matched by backtracking in
    the priority order of ECMAScript. Anchors are not part of it; an
    expression anchored at both ends is matched against the whole string,
    and the one anchored at either end is written out as a function. *)
Inductive regex :=
| Chr (p : N -> bool)
| Eps
| Seq (r1 r2 : regex)
| Alt (r1 r2 : regex)
| Star (r : regex)          (* r*  *)
| LazyStar (r : regex).     (* r*? *)

Definition Plus (r : regex) : regex := Seq r (Star r).

(** Iteration: each round must consume something, so the length of the
    input bounds the number of rounds. *)
Fixpoint iterate {A} (greedy : bool)
    (step : jstring -> (jstring -> option A) -> option A)
    (rounds : nat) (s : jstring) (k : jstring -> option A) : option A :=
  match rounds with
  | O => k s
  | S rounds' =>
      let again :=
        step s (fun s' => if (length s' <? length s)%nat
                          then iterate greedy step rounds' s' k else None) in
      if greedy then
        match again with Some a => Some a | None => k s end
      else
        match k s with Some a => Some a | None => again end
  end.

(** [rmatch r s k]: the first way, in priority order, of matching [r] at
    the front of [s] such that the continuation accepts the rest. *)
Fixpoint rmatch {A} (r : regex) (s : jstring) (k : jstring -> option A)
  : option A :=
  match r with
  | Chr p => match s with
             | c :: s' => if p c then k s' else None
             | [] => None
             end
  | Eps => k s
  | Seq r1 r2 => rmatch r1 s (fun s1 => rmatch r2 s1 k)
  | Alt r1 r2 => match rmatch r1 s k with
                 | Some a => Some a
                 | None => rmatch r2 s k
                 end
  | Star r1 => iterate true (fun s0 k0 => rmatch r1 s0 k0) (length s) s k
  | LazyStar r1 => iterate false (fun s0 k0 => rmatch r1 s0 k0) (length s) s k
  end.

(** Length of the match of [r] at the front of [s], if there is one. *)
Definition match_length (r : regex) (s : jstring) : option nat :=
  rmatch r s (fun rest => Some (length s - length rest)%nat).

(** [r.test(s)] for a freshly created expression: a match at some
    position. *)
Fixpoint test (r : regex) (s : jstring) : bool :=
  match match_length r s with
  | Some _ => true
  | None => match s with
            | [] => false
            | _ :: s' => test r s'
            end
  end.

(** [s.replace(r, repl)] with the [g] flag: matches are found left to
    right, each search resuming where the previous match ended; [skip]
    counts the characters of the current match still to be dropped. *)
Fixpoint replace_from (r : regex) (repl : jstring) (skip : nat) (s : jstring)
  : jstring :=
  match s with
  | [] => match skip, match_length r [] with
          | O, Some _ => repl
          | _, _ => []
          end
  | c :: s' =>
      match skip with
      | S n => replace_from r repl n s'
      | O =>
          match match_length r s with
          | Some (S n) => repl ++ replace_from r repl n s'
          | Some O => repl ++ c :: replace_from r repl 0 s'
          | None => c :: replace_from r repl 0 s'
          end
      end
  end.

Definition replace_all (r : regex) (repl : jstring) (s : jstring) : jstring :=
  replace_from r repl 0 s.

(** Building blocks of the expressions in the sources. *)
Definition chr (c : N) : regex := Chr (N.eqb c).
Definition chr_i (c : N) : regex := Chr (fun x => upper x =? upper c).
Definition any_char : regex := Chr (fun _ => true).          (* [\s\S] *)
Definition is_word_char (c : N) : bool :=                     (* \w *)
  ((48 <=? c) && (c <=? 57)) || ((65 <=? c) && (c <=? 90))
  || ((97 <=? c) && (c <=? 122)) || (c =? 95).
Definition word_char : regex := Chr is_word_char.
Definition space_char : regex := Chr is_whitespace.           (* \s *)

(** A literal, matched case-insensitively. *)
Fixpoint text_i (s : jstring) : regex :=
  match s with
  | [] => Eps
  | [c] => chr_i c
  | c :: s' => Seq (chr_i c) (text_i s')
  end.

(** The concatenation of several expressions. *)
Fixpoint cat (rs : list regex) : regex :=
  match rs with
  | [] => Eps
  | [r] => r
  | r :: rs' => Seq r (cat rs')
  end.

(** ** Arrays *)

(** [l.slice(-n)] for a positive [n]: the last [n] elements, or all of
    them when there are fewer. *)
Definition slice_last {A} (n : nat) (l : list A) : list A :=
  skipn (length l - n)%nat l.

Definition endsWith (suffix s : jstring) : bool :=
  startsWith (rev suffix) (rev s).

(** [a < b] on strings: the order of the code units. *)
Fixpoint jstring_ltb (a b : jstring) : bool :=
  match a, b with
  | _, [] => false
  | [], _ :: _ => true
  | x :: a', y :: b' => (x <? y) || ((x =? y) && jstring_ltb a' b')
  end.

(** ** Array.prototype.sort

    The engine chooses how it sorts. ECMAScript (since 2019) fixes the
    result when the comparison function is consistent on the elements:
    the elements in ascending order of the comparison, those that compare
    as equal in their original order. That arrangement is computed by
    [stable_sort]. When the comparison is not consistent the order is up
    to the engine; the elements are the same. *)

Fixpoint insert_sorted {A} (cmp : A -> A -> Z) (x : A) (l : list A) : list A :=
  match l with
  | [] => [x]
  | y :: rest => if (cmp x y <=? 0)%Z then x :: y :: rest
                 else y :: insert_sorted cmp x rest
  end.

Fixpoint stable_sort {A} (cmp : A -> A -> Z) (l : list A) : list A :=
  match l with
  | [] => []
  | x :: rest => insert_sorted cmp x (stable_sort cmp rest)
  end.

(** The conditions of a consistent comparison function, at three
    elements: comparing as equal is reflexive, symmetric and transitive,
    and so are comparing as less and comparing as greater. *)
Definition consistent_at {A} (cmp : A -> A -> Z) (a b c : A) : bool :=
  ((cmp a a =? 0)
   && (negb (cmp a b =? 0) || (cmp b a =? 0))
   && (negb ((cmp a b =? 0) && (cmp b c =? 0)) || (cmp a c =? 0))
   && (negb ((cmp a b <? 0) && (cmp b c <? 0)) || (cmp a c <? 0))
   && (negb ((0 <? cmp a b) && (0 <? cmp b c)) || (0 <? cmp a c)))%Z.

Definition consistent {A} (cmp : A -> A -> Z) (l : list A) : bool :=
  forallb (fun a => forallb (fun b => forallb (consistent_at cmp a b) l) l) l.

(** What is guaranteed of [sort], as a function of the comparison and the
    array: it rearranges, and it is the stable sort when the comparison
    is consistent. *)
Definition rearranges {A} (sort : (A -> A -> Z) -> list A -> list A) : Prop :=
  forall cmp l, Permutation l (sort cmp l).

Definition stable_when_consistent {A}
    (sort : (A -> A -> Z) -> list A -> list A) : Prop :=
  forall cmp l, consistent cmp l = true -> sort cmp l = stable_sort cmp l.

End JS.

(* ================================================================== *)
(** * JavaScript values *)
(* ================================================================== *)

Module Runtime.
Import JS.

(** Numbers and dates are built-ins whose full behaviour (IEEE doubles,
    number formatting and parsing, the date parser) is not modelled: the
    code is embedded over any platform that provides them. *)
Class Platform := {
  num : Type;
  NaN : num;
  num_of_Z : Z -> num;
  num_isNaN : num -> bool;
  num_truthy : num -> bool;              (* neither zero nor NaN *)
  num_strict_eq : num -> num -> bool;    (* === on numbers *)
  num_le : num -> num -> bool;           (* <= on numbers *)
  Number_toString : num -> jstring;      (* String(n) *)
  StringToNumber : jstring -> num;       (* Number(s) *)
  parseFloat_string : jstring -> num;    (* parseFloat(s) *)
  parseInt_string : jstring -> num;      (* parseInt(s) *)
  Date_parse_ok : jstring -> bool;       (* new Date(s) is a valid date *)
  time_value_ok : num -> bool            (* new Date(n) is a valid date *)
}.

Section Values.
Context {P : Platform}.

#[local] Set Warnings "-register-all".

Inductive value :=
| VUndefined
| VNull
| VBool (b : bool)
| VNum (n : num)
| VStr (s : jstring)
| VArr (items : list value)
| VObj (props : list (jstring * value)).

(** [String(v)]; an array joins its elements with commas, [null] and
    [undefined] elements giving nothing. *)
Fixpoint ToString (v : value) : jstring :=
  match v with
  | VUndefined => lit "undefined"
  | VNull => lit "null"
  | VBool true => lit "true"
  | VBool false => lit "false"
  | VNum n => Number_toString n
  | VStr s => s
  | VArr items =>
      join (lit ",")
        (map (fun x => match x with
                       | VUndefined | VNull => []
                       | _ => ToString x
                       end) items)
  | VObj _ => lit "[object Object]"
  end.

(** [Number(v)]. *)
Definition ToNumber (v : value) : num :=
  match v with
  | VUndefined => NaN
  | VNull => num_of_Z 0
  | VBool true => num_of_Z 1
  | VBool false => num_of_Z 0
  | VNum n => n
  | VStr s => StringToNumber s
  | VArr _ | VObj _ => StringToNumber (ToString v)
  end.

(** Truthiness, as tested by [!v], [v && ...] and [v || ...]. *)
Definition truthy (v : value) : bool :=
  match v with
  | VUndefined | VNull => false
  | VBool b => b
  | VNum n => num_truthy n
  | VStr [] => false
  | VStr (_ :: _) => true
  | VArr _ | VObj _ => true
  end.

Definition is_string (v : value) : bool :=      (* typeof v === 'string' *)
  match v with VStr _ => true | _ => false end.

Definition is_number (v : value) : bool :=      (* typeof v === 'number' *)
  match v with VNum _ => true | _ => false end.

(** [a === b]. Arrays and objects compare by identity; the embedding has
    no identities, and two structurally given objects count as distinct. *)
Definition strict_eq (a b : value) : bool :=
  match a, b with
  | VUndefined, VUndefined => true
  | VNull, VNull => true
  | VBool x, VBool y => Bool.eqb x y
  | VNum x, VNum y => num_strict_eq x y
  | VStr x, VStr y => jstring_eqb x y
  | _, _ => false
  end.

(** [x < y] on numbers, from [<=]: false as soon as one is [NaN]. *)
Definition num_lt (x y : num) : bool := num_le x y && negb (num_le y x).

(** [ToPrimitive]: an array or an object gives its string. *)
Definition ToPrimitive (v : value) : value :=
  match v with
  | VArr _ | VObj _ => VStr (ToString v)
  | _ => v
  end.

(** [a < b]: two strings are compared as strings, anything else as
    numbers. [a > b] is [b < a]. *)
Definition less_than (a b : value) : bool :=
  match ToPrimitive a, ToPrimitive b with
  | VStr x, VStr y => jstring_ltb x y
  | pa, pb => num_lt (ToNumber pa) (ToNumber pb)
  end.

Definition isNaN (v : value) : bool := num_isNaN (ToNumber v).

Definition parseFloat (v : value) : num := parseFloat_string (ToString v).

(** Whether [new Date(v)] is a valid date. *)
Definition valid_Date (v : value) : bool :=
  match v with
  | VStr s => Date_parse_ok s
  | VArr _ | VObj _ => Date_parse_ok (ToString v)
  | VNum n => time_value_ok n
  | VUndefined => false
  | VNull | VBool _ => true
  end.

End Values.

(** ** A platform of whole numbers

    Used for the concrete examples: a number is [NaN] or an integer,
    printed and read in decimal; a date string is valid when it is a
    calendar date in the form YYYY-MM-DD. On such inputs it agrees with
    every ECMAScript engine; anything a real engine would read as a
    fraction, an exponent or another date format it reads as [NaN] or as
    an invalid date. *)
Module Whole.

Fixpoint uint_chars (d : Decimal.uint) : jstring :=
  match d with
  | Decimal.Nil => []
  | Decimal.D0 d => 48%N :: uint_chars d
  | Decimal.D1 d => 49%N :: uint_chars d
  | Decimal.D2 d => 50%N :: uint_chars d
  | Decimal.D3 d => 51%N :: uint_chars d
  | Decimal.D4 d => 52%N :: uint_chars d
  | Decimal.D5 d => 53%N :: uint_chars d
  | Decimal.D6 d => 54%N :: uint_chars d
  | Decimal.D7 d => 55%N :: uint_chars d
  | Decimal.D8 d => 56%N :: uint_chars d
  | Decimal.D9 d => 57%N :: uint_chars d
  end.

Definition to_string (n : option Z) : jstring :=
  match n with
  | None => lit "NaN"
  | Some z =>
      if (z <? 0)%Z then 45%N :: uint_chars (N.to_uint (Z.abs_N z))
      else uint_chars (N.to_uint (Z.abs_N z))
  end.

Definition is_digit (c : N) : bool := ((48 <=? c) && (c <=? 57))%N.

(** The value of a run of decimal digits. *)
Definition digits_value (s : jstring) : Z :=
  fold_left (fun acc c => (acc * 10 + Z.of_N (c - 48))%Z) s 0%Z.

(** An optional sign and at least one digit, nothing else. *)
Definition signed_digits (s : jstring) : option Z :=
  let '(negative, body) :=
    match s with
    | 45%N :: body => (true, body)
    | 43%N :: body => (false, body)
    | _ => (false, s)
    end in
  match body with
  | [] => None
  | _ => if forallb is_digit body
         then Some (if negative then (- digits_value body)%Z else digits_value body)
         else None
  end.

Definition of_string (s : jstring) : option Z :=
  match trim s with
  | [] => Some 0%Z
  | t => signed_digits t
  end.

Fixpoint leading_digits (s : jstring) : jstring :=
  match s with
  | c :: s' => if is_digit c then c :: leading_digits s' else []
  | [] => []
  end.

(** The longest numeric prefix, after leading white space. *)
Definition of_prefix (s : jstring) : option Z :=
  match trimStart s with
  | 45%N :: body => signed_digits (45%N :: leading_digits body)
  | 43%N :: body => signed_digits (43%N :: leading_digits body)
  | t => signed_digits (leading_digits t)
  end.

Definition days_in_month (year month : Z) : Z :=
  if (month =? 2)%Z then
    if ((year mod 4 =? 0) && (negb (year mod 100 =? 0) || (year mod 400 =? 0)))%Z
    then 29 else 28
  else if ((month =? 4) || (month =? 6) || (month =? 9) || (month =? 11))%Z
       then 30 else 31.

Definition iso_date (s : jstring) : bool :=
  match s with
  | [y1; y2; y3; y4; 45%N; m1; m2; 45%N; d1; d2] =>
      forallb is_digit [y1; y2; y3; y4; m1; m2; d1; d2]
      && (let year := digits_value [y1; y2; y3; y4] in
          let month := digits_value [m1; m2] in
          let day := digits_value [d1; d2] in
          (1 <=? month)%Z && (month <=? 12)%Z
          && (1 <=? day)%Z && (day <=? days_in_month year month)%Z)
  | _ => false
  end.

Definition platform : Platform := {|
  num := option Z;
  NaN := None;
  num_of_Z := Some;
  num_isNaN := fun n => match n with None => true | Some _ => false end;
  num_truthy := fun n => match n with Some z => negb (z =? 0)%Z | None => false end;
  num_strict_eq := fun a b => match a, b with
                              | Some x, Some y => (x =? y)%Z
                              | _, _ => false
                              end;
  num_le := fun a b => match a, b with
                       | Some x, Some y => (x <=? y)%Z
                       | _, _ => false
                       end;
  Number_toString := to_string;
  StringToNumber := of_string;
  parseFloat_string := of_prefix;
  parseInt_string := of_prefix;
  Date_parse_ok := iso_date;
  time_value_ok := fun n => match n with
                            | Some z => (Z.abs z <=? 8640000000000000)%Z
                            | None => false
                            end
|}.

(** The number [z] as a value of this platform. *)
Definition number (z : Z) : @value platform := @VNum platform (Some z).

End Whole.

End Runtime.

(* ================================================================== *)
(** * SecurityManager and SecureStorage (security.js) *)
(* ================================================================== *)

Module Security.
Import JS Runtime.

Section Sanitizer.
Context {P : Platform}.

(** The four expressions of [sanitizeInput]. *)
Definition angle_brackets : regex :=                     (* /[<>]/g *)
  Chr (fun c => (c =? 60)%N || (c =? 62)%N).
Definition javascript_protocol : regex :=                (* /javascript:/gi *)
  text_i (lit "javascript:").
Definition event_handler : regex :=                      (* /on\w+=/gi *)
  cat [text_i (lit "on"); Plus word_char; chr 61].
Definition data_protocol : regex :=                      (* /data:/gi *)
  text_i (lit "data:").

(** [sanitizeInput] of security.ts: what is not a string is returned as
    [String(input)]. *)
Definition sanitizeInput (input : value) : jstring :=
  match input with
  | VStr s =>
      trim (replace_all data_protocol []
             (replace_all event_handler []
               (replace_all javascript_protocol []
                 (replace_all angle_brackets [] s))))
  | _ => ToString input
  end.

(** [sanitizeInput] of security.js: the same on a string; what is not a
    string is returned as it is. *)
Definition sanitizeInput_js (input : value) : value :=
  match input with
  | VStr _ => VStr (sanitizeInput input)
  | _ => input
  end.

(** Neither of the angle brackets. *)
Definition not_angle (c : N) : Prop := c <> 60%N /\ c <> 62%N.

(** An opening tag: [/<name[\s\S]*?>/gi]. *)
Definition open_tag (name : jstring) : regex :=
  cat [text_i (60%N :: name); LazyStar any_char; chr 62].

(** A call: [/name\s*\(/gi]. *)
Definition call_of (name : jstring) : regex :=
  cat [text_i name; Star space_char; chr 40].

Definition maliciousPatterns : list regex :=
  [ cat [text_i (lit "<script"); LazyStar any_char; chr 62;
         LazyStar any_char; text_i (lit "</script>")];
    text_i (lit "javascript:");
    cat [text_i (lit "on"); Plus word_char; Star space_char; chr 61];
    open_tag (lit "iframe");
    open_tag (lit "object");
    open_tag (lit "embed");
    open_tag (lit "form");
    call_of (lit "eval");
    call_of (lit "function");
    call_of (lit "setTimeout");
    call_of (lit "setInterval") ].

Definition containsMaliciousContent (text : value) : bool :=
  match text with
  | VStr s => existsb (fun pattern => test pattern s) maliciousPatterns
  | _ => false
  end.

End Sanitizer.

(** ** The underlying store

    [localStorage]: an ordered list of items. Access can be denied
    altogether (every method throws), and writes fail once a capacity, if
    there is one, would be exceeded. *)
Definition exn := jstring.

Record LocalStorage := {
  items : list (jstring * jstring);
  access_denied : bool;
  capacity : option nat
}.

Fixpoint assoc_get (key : jstring) (l : list (jstring * jstring)) : option jstring :=
  match l with
  | [] => None
  | (k, v) :: l' => if jstring_eqb k key then Some v else assoc_get key l'
  end.

Fixpoint assoc_set (key v : jstring) (l : list (jstring * jstring))
  : list (jstring * jstring) :=
  match l with
  | [] => [(key, v)]
  | (k, v0) :: l' => if jstring_eqb k key then (k, v) :: l'
                     else (k, v0) :: assoc_set key v l'
  end.

Definition assoc_remove (key : jstring) (l : list (jstring * jstring))
  : list (jstring * jstring) :=
  filter (fun kv => negb (jstring_eqb (fst kv) key)) l.

Definition size_of (l : list (jstring * jstring)) : nat :=
  fold_right (fun kv acc => (length (fst kv) + length (snd kv) + acc)%nat) 0%nat l.

Definition with_items (ls : LocalStorage) (l : list (jstring * jstring)) :=
  {| items := l; access_denied := access_denied ls; capacity := capacity ls |}.

Definition ls_setItem (key v : jstring) (ls : LocalStorage) : exn + LocalStorage :=
  if access_denied ls then inl (lit "SecurityError")
  else
    let l := assoc_set key v (items ls) in
    match capacity ls with
    | Some cap => if (cap <? size_of l)%nat then inl (lit "QuotaExceededError")
                  else inr (with_items ls l)
    | None => inr (with_items ls l)
    end.

Definition ls_getItem (key : jstring) (ls : LocalStorage) : exn + option jstring :=
  if access_denied ls then inl (lit "SecurityError")
  else inr (assoc_get key (items ls)).

Definition ls_removeItem (key : jstring) (ls : LocalStorage) : exn + LocalStorage :=
  if access_denied ls then inl (lit "SecurityError")
  else inr (with_items ls (assoc_remove key (items ls))).

(** The keys [localStorage.key(0)], ..., [localStorage.key(length-1)]. *)
Definition ls_keys (ls : LocalStorage) : exn + list jstring :=
  if access_denied ls then inl (lit "SecurityError")
  else inr (map fst (items ls)).

(** ** SecureStorage *)

Section Storage.
Context {P : Platform}.

(** Built-ins used for serialisation. [None] stands for [undefined] in the
    result of [JSON.stringify] and for a thrown exception in the others. *)
Variable JSON_stringify : value -> option jstring.
Variable JSON_parse : jstring -> option value.
Variable btoa : jstring -> option jstring.
Variable atob : jstring -> option jstring.

Record SecureStorage := {
  keyPrefix : jstring;
  isAvailable : bool
}.

Definition checkAvailability (ls : LocalStorage) : bool * LocalStorage :=
  let probe := lit "__storage_test__" in
  match ls_setItem probe probe ls with
  | inl _ => (false, ls)
  | inr ls1 =>
      match ls_removeItem probe ls1 with
      | inl _ => (false, ls1)
      | inr ls2 => (true, ls2)
      end
  end.

(** [new SecureStorage(keyPrefix)] *)
Definition construct (prefix : jstring) (ls : LocalStorage)
  : SecureStorage * LocalStorage :=
  let '(ok, ls') := checkAvailability ls in
  ({| keyPrefix := prefix; isAvailable := ok |}, ls').

(** data.charCodeAt(i) ^ key.charCodeAt(i % key.length), for each i *)
Fixpoint xor_from (i : nat) (data key : jstring) : jstring :=
  match data with
  | [] => []
  | c :: data' =>
      N.lxor c (nth (i mod length key) key 0%N) :: xor_from (S i) data' key
  end.

Definition default_key : jstring := lit "default".

(** [encrypt(data)]: [inl] when it throws. *)
Definition encrypt (data : value) : exn + jstring :=
  let dataStr :=
    match data with
    | VStr s => Some s
    | _ => JSON_stringify data
    end in
  match dataStr with
  | None => inl (lit "TypeError")                (* undefined.length *)
  | Some str =>
      match btoa (xor_from 0 str default_key) with
      | Some b64 => inr b64
      | None => inl (lit "InvalidCharacterError")
      end
  end.

(** [decrypt(encryptedData)]: [None] is its [null]. *)
Definition decrypt (encryptedData : jstring) : option jstring :=
  match atob encryptedData with
  | Some data => Some (xor_from 0 data default_key)
  | None => None
  end.

Definition setItem (ss : SecureStorage) (key : jstring) (v : value)
                   (encrypted : bool) (ls : LocalStorage)
  : (exn + bool) * LocalStorage :=
  if negb (isAvailable ss) then (inl (lit "Storage not available"), ls)
  else
    let fullKey := keyPrefix ss ++ key in
    let dataToStore :=
      if encrypted then encrypt v
      else match v with
           | VStr s => inr s
           | _ => match JSON_stringify v with
                  | Some s => inr s
                  | None => inr (lit "undefined")
                  end
           end in
    match dataToStore with
    | inl e => (inl e, ls)
    | inr data =>
        match ls_setItem fullKey data ls with
        | inr ls' => (inr true, ls')
        | inl _ => (inr false, ls)
        end
    end.

Definition parse_or_text (text : jstring) : value :=
  match JSON_parse text with
  | Some v => v
  | None => VStr text
  end.

Definition getItem (ss : SecureStorage) (key : jstring) (decrypted : bool)
                   (ls : LocalStorage) : exn + value :=
  if negb (isAvailable ss) then inr VNull
  else
    let fullKey := keyPrefix ss ++ key in
    match ls_getItem fullKey ls with
    | inl _ => inr VNull
    | inr None => inr VNull
    | inr (Some stored) =>
        if decrypted then
          match decrypt stored with
          | None => inr VNull
          | Some text => inr (parse_or_text text)
          end
        else inr (parse_or_text stored)
    end.

Definition removeItem (ss : SecureStorage) (key : jstring) (ls : LocalStorage)
  : (exn + bool) * LocalStorage :=
  if negb (isAvailable ss) then (inr false, ls)
  else
    match ls_removeItem (keyPrefix ss ++ key) ls with
    | inr ls' => (inr true, ls')
    | inl _ => (inr false, ls)
    end.

(** keysToRemove.forEach(key => localStorage.removeItem(key)): the store
    reached, and the exception that interrupted the loop if one did. *)
Fixpoint remove_keys (keys : list jstring) (ls : LocalStorage)
  : option exn * LocalStorage :=
  match keys with
  | [] => (None, ls)
  | k :: keys' =>
      match ls_removeItem k ls with
      | inl e => (Some e, ls)
      | inr ls' => remove_keys keys' ls'
      end
  end.

Definition clear (ss : SecureStorage) (ls : LocalStorage)
  : (exn + bool) * LocalStorage :=
  if negb (isAvailable ss) then (inr false, ls)
  else
    match ls_keys ls with
    | inl _ => (inr false, ls)
    | inr keys =>
        let keysToRemove :=
          filter (fun key => match key with
                             | [] => false
                             | _ => startsWith (keyPrefix ss) key
                             end) keys in
        match remove_keys keysToRemove ls with
        | (None, ls') => (inr true, ls')
        | (Some _, ls') => (inr false, ls')
        end
    end.

End Storage.

(** A serialiser, parser, encoder or decoder that fails on every input. *)
Definition failing_codec {A B : Type} : A -> option B := fun _ => None.

(** A store in a browser that denies access to [localStorage]. *)
Definition denied_store : LocalStorage :=
  {| items := []; access_denied := true; capacity := None |}.

(** A store without room for anything (as in some private modes). *)
Definition full_store : LocalStorage :=
  {| items := []; access_denied := false; capacity := Some 0%nat |}.

(** ** SecurityManager: the log of policy violations *)

Section Violations.

(** The violation object the handler builds from the event. *)
Variable Violation : Type.

(** The handler of [securitypolicyviolation], as far as
    [this.cspViolations] goes. *)
Definition record_violation (violation : Violation)
                            (cspViolations : list Violation) : list Violation :=
  let cspViolations := cspViolations ++ [violation] in
  if (50 <? length cspViolations)%nat then slice_last 50 cspViolations
  else cspViolations.

(** The handler run on a series of events. *)
Definition record_all (violations cspViolations : list Violation)
  : list Violation :=
  fold_left (fun log violation => record_violation violation log)
            violations cspViolations.

End Violations.

Arguments record_violation {Violation} violation cspViolations.
Arguments record_all {Violation} violations cspViolations.

(** ** SecurityManager.generateSecureToken *)

(** A hexadecimal digit in lower case: [n.toString(16)] below 16. *)
Definition hex_digit (n : N) : N :=
  if (n <? 10)%N then (48 + n)%N else (87 + n)%N.

Definition is_hex_digit (c : N) : bool :=
  ((48 <=? c) && (c <=? 57))%N || ((97 <=? c) && (c <=? 102))%N.

(** [byte.toString(16).padStart(2, '0')] for a byte. *)
Definition byte_hex (byte : N) : jstring :=
  [hex_digit (byte / 16); hex_digit (byte mod 16)].

(** Where the random numbers come from: [crypto.getRandomValues], given
    by the bytes it writes into an array of each length, or, without it,
    the successive values of [Math.floor(Math.random() * 16)]. *)
Inductive RandomSource :=
| Crypto (getRandomValues : nat -> list N)
| MathRandom (draws : nat -> N).

Definition generateSecureToken (length : nat) (source : RandomSource) : jstring :=
  match source with
  | Crypto getRandomValues => flat_map byte_hex (getRandomValues length)
  | MathRandom draws => map (fun i => hex_digit (draws i)) (seq 0 length)
  end.

(** ** Notions used to state the properties of the storage *)

(** The text [setItem] hands on for a value: a string as it is, anything
    else as [JSON.stringify] writes it. *)
Definition stored_text {P : Platform}
    (JSON_stringify : value -> option jstring) (v : value) : jstring :=
  match v with
  | VStr s => s
  | _ => match JSON_stringify v with
         | Some s => s
         | None => lit "undefined"
         end
  end.

(** A key that [clear] collects: [key && key.startsWith(keyPrefix)]. *)
Definition owned_key (prefix key : jstring) : bool :=
  match key with
  | [] => false
  | _ => startsWith prefix key
  end.

(** The key of the availability probe. *)
Definition storage_probe : jstring := lit "__storage_test__".

(** A store that is empty, accessible and without a limit. *)
Definition open_store : LocalStorage :=
  {| items := []; access_denied := false; capacity := None |}.

(** ** SecurityManager.constantTimeEquals *)

(** result |= a.charCodeAt(i) ^ b.charCodeAt(i), for each i *)
Fixpoint accumulate_differences (result : N) (a b : jstring) : N :=
  match a, b with
  | x :: a', y :: b' => accumulate_differences (N.lor result (N.lxor x y)) a' b'
  | _, _ => result
  end.

Definition constantTimeEquals (a b : jstring) : bool :=
  if negb (length a =? length b)%nat then false
  else (accumulate_differences 0 a b =? 0)%N.

(** ** SecurityManager.sanitizeHTML

    The text is assigned to [textContent] and read back as [innerHTML]:
    the serialisation of a text node, which escapes the ampersand, the
    no-break space and the two angle brackets. *)
Definition escape_html_char (c : N) : jstring :=
  if (c =? 38)%N then lit "&amp;"
  else if (c =? 160)%N then lit "&nbsp;"
  else if (c =? 60)%N then lit "&lt;"
  else if (c =? 62)%N then lit "&gt;"
  else [c].

Section HTML.
Context {P : Platform}.

Definition sanitizeHTML (html : value) : jstring :=
  match html with
  | VStr s => flat_map escape_html_char s
  | _ => []
  end.

End HTML.

(** ** SecureValidator.validateAndSanitize *)

Inductive ValidationInputType :=
| TypeText | TypeHtml | TypeNumber | TypeDate | TypeEmail
| TypeOther.                 (* any other string: the [default] branch *)

(** The [options] argument; a limit that is absent is [None], and the
    limits are whole numbers. *)
Record LengthOptions := {
  opt_maxLength : option Z;
  opt_minLength : option Z
}.

(** The [error] of a result, by the message it carries. *)
Inductive ValidationError :=
| InputRequired              (* Input is required *)
| MaliciousContent           (* Input contains potentially malicious content *)
| InvalidDateFormat          (* Invalid date format *)
| InvalidEmailFormat         (* Invalid email format *)
| InputTooLong (max : Z)     (* Input too long (max ... characters) *)
| InputTooShort (min : Z).   (* Input too short (min ... characters) *)

Record SecurityValidationResult := {
  isValid : bool;
  sanitized : jstring;
  error : option ValidationError
}.

(** [r.test(s)] for an expression anchored at both ends. *)
Definition full_match (r : regex) (s : jstring) : bool :=
  match rmatch r s (fun rest => match rest with [] => Some tt | _ => None end) with
  | Some _ => true
  | None => false
  end.

Definition is_digit (c : N) : bool := ((48 <=? c) && (c <=? 57))%N.   (* \d *)
Definition digit : regex := Chr is_digit.

(** /^\d{4}-\d{2}-\d{2}$/ *)
Definition date_format : regex :=
  cat [digit; digit; digit; digit; chr 45; digit; digit; chr 45; digit; digit].

(** /^[^\s@]+@[^\s@]+\.[^\s@]+$/ *)
Definition email_char (c : N) : bool := negb (is_whitespace c || (c =? 64)%N).
Definition email_part : regex := Plus (Chr email_char).
Definition email_format : regex :=
  cat [email_part; chr 64; email_part; chr 46; email_part].

(** What [/[^\d.-]/g] leaves in place. *)
Definition numeric_char (c : N) : bool :=
  is_digit c || (c =? 46)%N || (c =? 45)%N.

(** [options.maxLength || 10000] and [options.minLength || 0] *)
Definition or_default (limit : option Z) (default : Z) : Z :=
  match limit with
  | Some z => if (z =? 0)%Z then default else z
  | None => default
  end.

Section Validator.
Context {P : Platform}.

(** [value.toLowerCase()], a built-in. *)
Variable toLowerCase : jstring -> jstring.

Definition rejected (e : ValidationError) : SecurityValidationResult :=
  {| isValid := false; sanitized := []; error := Some e |}.

(** The length limits, applied to the sanitized text. *)
Definition apply_limits (text : jstring) (options : LengthOptions)
  : SecurityValidationResult :=
  let maxLength := or_default (opt_maxLength options) 10000 in
  if (maxLength <? Z.of_nat (length text))%Z then
    {| isValid := false;
       sanitized := firstn (Z.to_nat maxLength) text;
       error := Some (InputTooLong maxLength) |}
  else
    let minLength := or_default (opt_minLength options) 0 in
    if (Z.of_nat (length text) <? minLength)%Z then
      {| isValid := false; sanitized := text;
         error := Some (InputTooShort minLength) |}
    else
      {| isValid := true; sanitized := text; error := None |}.

Definition validateAndSanitize (input : value) (type : ValidationInputType)
                               (options : LengthOptions)
  : SecurityValidationResult :=
  match input with
  | VNull | VUndefined => rejected InputRequired
  | _ =>
      let v := ToString input in
      if containsMaliciousContent (VStr v) then rejected MaliciousContent
      else
        match type with
        | TypeText | TypeOther =>
            apply_limits (sanitizeInput (VStr v)) options
        | TypeHtml =>
            apply_limits (sanitizeHTML (VStr v)) options
        | TypeNumber =>
            apply_limits
              (replace_all (Chr (fun c => negb (numeric_char c))) [] v) options
        | TypeDate =>
            if negb (full_match date_format v) then rejected InvalidDateFormat
            else apply_limits v options
        | TypeEmail =>
            let lowered := trim (toLowerCase v) in
            if negb (full_match email_format lowered)
            then rejected InvalidEmailFormat
            else apply_limits lowered options
        end
  end.

End Validator.

(** ASCII lowering: [toLowerCase] as it acts on ASCII text. *)
Definition lower_ascii (s : jstring) : jstring :=
  map (fun c => if ((65 <=? c) && (c <=? 90))%N then (c + 32)%N else c) s.

(** ** Base64, for the examples

    [btoa] as every engine computes it: [None] when a character is outside
    Latin-1. [atob] reads back the padded texts that [btoa] writes and
    rejects anything else (a real [atob] also accepts unpadded text and
    white space). *)
Module Base64.

Definition sextet_char (n : N) : N :=
  if (n <? 26)%N then (65 + n)%N
  else if (n <? 52)%N then (97 + (n - 26))%N
  else if (n <? 62)%N then (48 + (n - 52))%N
  else if (n =? 62)%N then 43%N else 47%N.

Definition char_sextet (c : N) : option N :=
  if ((65 <=? c) && (c <=? 90))%N then Some (c - 65)%N
  else if ((97 <=? c) && (c <=? 122))%N then Some (c - 97 + 26)%N
  else if ((48 <=? c) && (c <=? 57))%N then Some (c - 48 + 52)%N
  else if (c =? 43)%N then Some 62%N
  else if (c =? 47)%N then Some 63%N
  else None.

Fixpoint encode (s : jstring) : jstring :=
  match s with
  | [] => []
  | [a] =>
      [sextet_char (a / 4); sextet_char ((a mod 4) * 16); 61; 61]%N
  | [a; b] =>
      [sextet_char (a / 4); sextet_char ((a mod 4) * 16 + b / 16);
       sextet_char ((b mod 16) * 4); 61]%N
  | a :: b :: c :: rest =>
      [sextet_char (a / 4); sextet_char ((a mod 4) * 16 + b / 16);
       sextet_char ((b mod 16) * 4 + c / 64); sextet_char (c mod 64)]%N
      ++ encode rest
  end.

Definition btoa (s : jstring) : option jstring :=
  if forallb (fun c => (c <=? 255)%N) s then Some (encode s) else None.

Fixpoint atob (s : jstring) : option jstring :=
  match s with
  | [] => Some []
  | c1 :: c2 :: c3 :: c4 :: rest =>
      match char_sextet c1, char_sextet c2 with
      | Some x1, Some x2 =>
          if (c4 =? 61)%N then                      (* padding: the last group *)
            match rest with
            | [] =>
                if (c3 =? 61)%N then Some [x1 * 4 + x2 / 16]%N
                else match char_sextet c3 with
                     | Some x3 =>
                         Some [x1 * 4 + x2 / 16; (x2 mod 16) * 16 + x3 / 4]%N
                     | None => None
                     end
            | _ :: _ => None
            end
          else
            match char_sextet c3, char_sextet c4, atob rest with
            | Some x3, Some x4, Some tail =>
                Some ([x1 * 4 + x2 / 16; (x2 mod 16) * 16 + x3 / 4;
                       (x3 mod 4) * 64 + x4]%N ++ tail)
            | _, _, _ => None
            end
      | _, _ => None
      end
  | _ => None
  end.

End Base64.

End Security.

(* ================================================================== *)
(** * Validator and FormValidator (errorHandler.js) *)
(* ================================================================== *)

Module Validation.
Import JS Runtime.

Section Validators.
Context {P : Platform}.

(** ** Validator *)

Definition isRequired (v : value) : bool :=
  match v with
  | VNull | VUndefined | VStr [] => false
  | _ => true
  end.

Definition isNumber (v : value) : bool :=
  negb (isNaN v) && negb (num_isNaN (parseFloat v)).

Definition isInRange (v : value) (min max : num) : bool :=
  let n := ToNumber v in
  num_le min n && num_le n max.

Definition isDate (v : value) : bool := valid_Date v.

Definition maxLength (v : value) (max : nat) : bool :=
  match v with
  | VStr s => (length s <=? max)%nat
  | _ => false
  end.

Definition minLength (v : value) (min : nat) : bool :=
  match v with
  | VStr s => (min <=? length s)%nat
  | _ => false
  end.

(** ** FormValidator *)

(** A rule: its predicate ([None] when the predicate throws) and its
    failure message. *)
Record ValidationRule := {
  rule_validate : value -> option bool;
  message : jstring
}.

(** The rules of a validator: a [Map] from field names to rule lists, in
    insertion order. *)
Definition FormValidator := list (jstring * list ValidationRule).

(** this.rules.set(field, validators) *)
Fixpoint addRule (field : jstring) (validators : list ValidationRule)
                 (rules : FormValidator) : FormValidator :=
  match rules with
  | [] => [(field, validators)]
  | (f, vs) :: rest =>
      if jstring_eqb f field then (f, validators) :: rest
      else (f, vs) :: addRule field validators rest
  end.

Record ValidationResult := {
  isValid : bool;
  errors : list (jstring * list jstring)
}.

(** The messages one field collects from its rules. *)
Definition field_errors (validators : list ValidationRule) (v : value)
  : list jstring :=
  flat_map (fun validator =>
              match rule_validate validator v with
              | Some true => []
              | Some false => [message validator]
              | None => [lit "Validation error occurred"]
              end) validators.

(** [validate(data)]; [data] is given by its property lookup. *)
Definition validate (rules : FormValidator) (data : jstring -> value)
  : ValidationResult :=
  let per_field :=
    map (fun fr => (fst fr, field_errors (snd fr) (data (fst fr)))) rules in
  let failing :=
    filter (fun fe => match snd fe with [] => false | _ => true end) per_field in
  {| isValid := match failing with [] => true | _ => false end;
     errors := failing |}.

(** Rule builders. *)
Definition required (msg : jstring) : ValidationRule :=
  {| rule_validate := fun v => Some (isRequired v); message := msg |}.

Definition number (msg : jstring) : ValidationRule :=
  {| rule_validate := fun v => Some (isNumber v); message := msg |}.

Definition range (min max : num) (msg : jstring) : ValidationRule :=
  {| rule_validate := fun v => Some (isInRange v min max); message := msg |}.

Definition maxLength_rule (max : nat) (msg : jstring) : ValidationRule :=
  {| rule_validate := fun v => Some (maxLength v max); message := msg |}.

Definition date (msg : jstring) : ValidationRule :=
  {| rule_validate := fun v => Some (isDate v); message := msg |}.

Definition custom (validateFn : value -> option bool) (msg : jstring)
  : ValidationRule :=
  {| rule_validate := validateFn; message := msg |}.

End Validators.
End Validation.

(* ================================================================== *)
(** * The application: entries, validation rules, CSV export and import *)
(* ================================================================== *)

Module App.
Import JS Runtime Security.

Section Application.
Context {P : Platform}.

(** An entry object; a missing property is [VUndefined]. *)
Record LogEntry := {
  id : value;
  date : value;
  domainKey : value;
  score : value;
  note : value
}.

(** [entry[field]] for the fields the validator asks about. *)
Definition get (entry : LogEntry) (field : jstring) : value :=
  if jstring_eqb field (lit "id") then id entry
  else if jstring_eqb field (lit "date") then date entry
  else if jstring_eqb field (lit "domainKey") then domainKey entry
  else if jstring_eqb field (lit "score") then score entry
  else if jstring_eqb field (lit "note") then note entry
  else VUndefined.

(** ** The assessment catalog (translations.js)

    Each domain with its [scoreRange]; the Persian catalog has the same
    keys and writes the ranges in Persian digits. *)
Definition domains_en : list (jstring * jstring) :=
  [ (lit "phq-9", lit "0-27");
    (lit "gad-7", lit "0-21");
    (lit "aaq-ii", lit "7-49");
    (lit "oci-r", lit "0-72");
    (lit "rosenberg", lit "0-30");
    (lit "maslach", lit "Varies by subscale");
    (lit "procrastination", lit "12-60") ].

Definition domains_fa : list (jstring * jstring) :=
  [ (lit "phq-9", [1776; 45; 1778; 1783]%N);
    (lit "gad-7", [1776; 45; 1778; 1777]%N);
    (lit "aaq-ii", [1783; 45; 1780; 1785]%N);
    (lit "oci-r", [1776; 45; 1783; 1778]%N);
    (lit "rosenberg", [1776; 45; 1779; 1776]%N);
    (lit "maslach",
      [1605; 1578; 1594; 1740; 1585; 32; 1576; 1585; 32; 1575; 1587; 1575;
       1587; 32; 1586; 1740; 1585; 1605; 1602; 1740; 1575; 1587]%N);
    (lit "procrastination", [1777; 1778; 45; 1782; 1776]%N) ].

(** The properties every object inherits from [Object.prototype]. *)
Definition object_prototype_keys : list jstring :=
  [ lit "constructor"; lit "__defineGetter__"; lit "__defineSetter__";
    lit "hasOwnProperty"; lit "__lookupGetter__"; lit "__lookupSetter__";
    lit "isPrototypeOf"; lit "propertyIsEnumerable"; lit "toString";
    lit "valueOf"; lit "__proto__"; lit "toLocaleString" ].

Definition own_property (key : jstring) (obj : list (jstring * jstring))
  : option jstring := assoc_get key obj.

(** Object.prototype.hasOwnProperty.call(translations.en.domains, v) *)
Definition hasOwnDomain (v : value) : bool :=
  match own_property (ToString v) domains_en with
  | Some _ => true
  | None => false
  end.

(** [domains[key]]: a catalog entry ([Some (Some range)]), an inherited
    property, which has no [scoreRange] ([Some None]), or [undefined]. *)
Definition domain_lookup (domains : list (jstring * jstring)) (key : jstring)
  : option (option jstring) :=
  match own_property key domains with
  | Some range => Some (Some range)
  | None => if existsb (jstring_eqb key) object_prototype_keys
            then Some None else None
  end.

(** [translations[lang]?.domains] *)
Definition translations_domains (lang : jstring)
  : option (list (jstring * jstring)) :=
  if jstring_eqb lang (lit "en") then Some domains_en
  else if jstring_eqb lang (lit "fa") then Some domains_fa
  else None.

(** ** setupFormValidation *)

Definition entryValidator : Validation.FormValidator :=
  let rules := [] in
  let rules := Validation.addRule (lit "id")
    [ Validation.required (lit "Entry ID is required") ] rules in
  let rules := Validation.addRule (lit "date")
    [ Validation.required (lit "Date is required");
      Validation.date (lit "Please enter a valid date") ] rules in
  let rules := Validation.addRule (lit "domainKey")
    [ Validation.required (lit "Assessment type is required");
      Validation.custom (fun v => Some (hasOwnDomain v))
        (lit "Invalid assessment type") ] rules in
  let rules := Validation.addRule (lit "score")
    [ Validation.required (lit "Score is required");
      Validation.number (lit "Score must be a number") ] rules in
  let rules := Validation.addRule (lit "note")
    [ Validation.maxLength_rule 1000
        (lit "Note must not exceed 1000 characters");
      Validation.custom
        (fun v => if negb (truthy v) then Some true     (* Note is optional *)
                  else Some (negb (containsMaliciousContent v)))
        (lit "Note contains potentially unsafe content") ] rules in
  rules.

Definition entry_valid (entry : LogEntry) : bool :=
  Validation.isValid (Validation.validate entryValidator (get entry)).

(** ** The application state *)

Inductive SortDirection := Asc | Desc.          (* 'asc' and 'desc' *)

Record SortState := {
  sort_column : jstring;
  sort_direction : SortDirection
}.

Record AppState := {
  entries : list LogEntry;
  currentLanguage : jstring;
  currentSort : SortState
}.

Definition with_entries (app : AppState) (es : list LogEntry) : AppState :=
  {| entries := es;
     currentLanguage := currentLanguage app;
     currentSort := currentSort app |}.

(** ** sortEntries *)

(** [Array.prototype.sort] on the entries, and [String.prototype.toLowerCase]. *)
Variable Array_sort : (LogEntry -> LogEntry -> Z) -> list LogEntry -> list LogEntry.
Variable toLowerCase : jstring -> jstring.

(** The comparison function that [sortEntries] hands to [sort]. *)
Definition compare_entries (sort : SortState) (a b : LogEntry) : Z :=
  let valA := get a (sort_column sort) in
  let valB := get b (sort_column sort) in
  let comparison :=
    if less_than valB valA then 1%Z              (* valA > valB *)
    else if less_than valA valB then (-1)%Z
    else 0%Z in
  match sort_direction sort with
  | Desc => (comparison * -1)%Z
  | Asc => comparison
  end.

Definition sortEntries (app : AppState) : AppState :=
  with_entries app
    (Array_sort (compare_entries (currentSort app)) (entries app)).

(** [renderHistoryTable()], as far as the application state goes: the
    table is drawn from the collection once [sortEntries] has sorted it
    in place. *)
Definition renderHistoryTable (app : AppState) : AppState := sortEntries app.

(** Persian digits to ASCII digits:
    [replace(/[۰-۹]/g, d => '۰۱۲۳۴۵۶۷۸۹'.indexOf(d).toString())] *)
Definition normalize_digits (s : jstring) : jstring :=
  map (fun c => if ((1776 <=? c) && (c <=? 1785))%N
                then (c - 1776 + 48)%N else c) s.

Definition validateScoreRange (score : value) (scoreRange : option jstring)
  : bool :=
  match scoreRange, score with
  | None, _ | Some [], _ => false                          (* !scoreRange *)
  | Some range, VNum n =>
      let normalizedRange := normalize_digits range in
      match split 45 normalizedRange with
      | [part0; part1] =>
          let min := parseInt_string part0 in
          let max := parseInt_string part1 in
          if num_isNaN min || num_isNaN max then true
          else num_le min n && num_le n max
      | _ => true               (* If range format is unclear, allow it *)
      end
  | Some _, _ => false                        (* typeof score !== 'number' *)
  end.

Definition addEntry (entry : LogEntry) (app : AppState) : bool * AppState :=
  let validation := Validation.validate entryValidator (get entry) in
  if negb (Validation.isValid validation) then (false, app)
  else
    let domain :=
      match translations_domains (currentLanguage app) with
      | Some domains => domain_lookup domains (ToString (domainKey entry))
      | None => None
      end in
    match domain with
    | Some scoreRange =>
        if negb (validateScoreRange (score entry) scoreRange) then (false, app)
        else (true, renderHistoryTable
                      (with_entries app (entries app ++ [entry])))
    | None => (true, renderHistoryTable
                       (with_entries app (entries app ++ [entry])))
    end.

Definition deleteEntry (key : value) (app : AppState) : bool * AppState :=
  if negb (truthy key) then (false, app)   (* the Error thrown is caught *)
  else
    let remaining :=
      filter (fun entry => negb (strict_eq (id entry) key)) (entries app) in
    if (length remaining <? length (entries app))%nat
    then (true, renderHistoryTable (with_entries app remaining))
    else (false, with_entries app remaining).       (* Entry not found *)

(** ** CSV export *)

Definition sanitizeCSVValue (v : value) : jstring :=
  match v with
  | VNull | VUndefined => []
  | _ =>
      trim (replace_all
              (Chr (fun c => (c =? 13)%N || (c =? 10)%N || (c =? 9)%N))
              (lit " ") (ToString v))
  end.

(** [v || ''] *)
Definition or_empty (v : value) : value :=
  if truthy v then v else VStr [].

(** [escapeCSV(str)]; [None] when [replace] is not a function of the
    argument and a TypeError is thrown. *)
Definition escapeCSV (str : value) : option jstring :=
  match or_empty str with
  | VStr s => Some ([DQUOTE] ++ replace_all (chr DQUOTE) [DQUOTE; DQUOTE] s
                             ++ [DQUOTE])
  | _ => None
  end.

Definition header : jstring := lit "id,date,domainKey,score,note".

Definition csv_row (entry : LogEntry) : option jstring :=
  match escapeCSV (or_empty (note entry)) with
  | Some quoted =>
      Some (join (lit ",")
              [ sanitizeCSVValue (id entry);
                sanitizeCSVValue (date entry);
                sanitizeCSVValue (domainKey entry);
                sanitizeCSVValue (score entry);
                quoted ])
  | None => None
  end.

(** The rows of the entries, unless one of them throws. *)
Fixpoint csv_rows (es : list LogEntry) : option (list jstring) :=
  match es with
  | [] => Some []
  | entry :: rest =>
      match csv_row entry, csv_rows rest with
      | Some row, Some rows => Some (row :: rows)
      | _, _ => None
      end
  end.

(** [exportToCSV()]: the text of the downloaded file, or [None] when the
    method returns [false] without producing one. *)
Definition exportToCSV (app : AppState) : option jstring :=
  match entries app with
  | [] => None                                     (* No data to export. *)
  | _ =>
      let validEntries := filter entry_valid (entries app) in
      match csv_rows validEntries with
      | Some rows => Some (BOM :: join [LF] (header :: rows))
      | None => None                               (* Export failed. *)
      end
  end.

(** The format of an exported row, written out: a field in double quotes
    with every double quote inside doubled, and the five fields of an
    entry separated by commas. *)
Definition quoted (s : jstring) : jstring :=
  DQUOTE :: flat_map (fun c => if (c =? DQUOTE)%N then [DQUOTE; DQUOTE] else [c]) s
  ++ [DQUOTE].

Definition note_text (entry : LogEntry) : jstring :=
  match note entry with
  | VStr s => s
  | _ => []
  end.

Definition row_text (entry : LogEntry) : jstring :=
  sanitizeCSVValue (id entry) ++ [COMMA]
  ++ sanitizeCSVValue (date entry) ++ [COMMA]
  ++ sanitizeCSVValue (domainKey entry) ++ [COMMA]
  ++ sanitizeCSVValue (score entry) ++ [COMMA]
  ++ quoted (note_text entry).

(** A field that survives the trip through a CSV row unquoted: not
    empty, free of commas, line feeds, carriage returns and tabs, and
    without white space at either end. *)
Definition plain_field (s : jstring) : Prop :=
  s <> []
  /\ Forall (fun c => c <> COMMA /\ c <> LF /\ c <> 13%N /\ c <> 9%N) s
  /\ clean_start s /\ clean_end s.

(** An entry whose fields are of the types the application gives them,
    with plain id and date, a number whose text is plain and reads back
    as the number, and a note without a line feed. *)
Definition portable (entry : LogEntry) : Prop :=
  exists i d k n t,
    entry = {| id := VStr i; date := VStr d; domainKey := VStr k;
               score := VNum n; note := VStr t |}
    /\ plain_field i /\ plain_field d
    /\ plain_field (Number_toString n)
    /\ StringToNumber (Number_toString n) = n
    /\ ~ In LF t.

(** ** CSV import *)

(** [parts[i]?.trim()] *)
Definition part (parts : list jstring) (i : nat) : value :=
  match nth_error parts i with
  | Some p => VStr (trim p)
  | None => VUndefined
  end.

Definition parseCSVRow (rowStr : jstring)
  : value * value * value * value * value :=
  let parts := split COMMA rowStr in
  (part parts 0, part parts 1, part parts 2, part parts 3,
   VStr (trim (join [COMMA] (skipn 4 parts)))).

(** [translations.en.domains[domainKey]] is truthy. *)
Definition known_domain (key : value) : bool :=
  match domain_lookup domains_en (ToString key) with
  | Some _ => true
  | None => false
  end.

Definition isValidImportRow (id date domainKey score note : value) : bool :=
  truthy id && truthy date && truthy domainKey && truthy score
  && negb (match note with VUndefined => true | _ => false end)
  && known_domain domainKey
  && negb (isNaN score).

(** The first [replace] of the note, whose expression is a double quote
    at the start of the string or a double quote at its end: a quote that
    opens the string goes, and so does a quote that closes what is left. *)
Definition strip_outer_quotes (s : jstring) : jstring :=
  let s1 := match s with
            | c :: rest => if (c =? DQUOTE)%N then rest else s
            | [] => []
            end in
  match rev s1 with
  | c :: rest => if (c =? DQUOTE)%N then rev rest else s1
  | [] => []
  end.

(** The note of an imported entry: for a non-empty note, the outer
    quotes stripped and then every pair of double quotes replaced by one;
    the empty string otherwise. *)
Definition unquote_note (note : value) : value :=
  match note with
  | VStr (c :: s) =>
      VStr (replace_all (Seq (chr DQUOTE) (chr DQUOTE)) [DQUOTE]
              (strip_outer_quotes (c :: s)))
  | _ => VStr []
  end.

Record ImportState := {
  imp_entries : list LogEntry;
  importedCount : nat;
  skippedCount : nat
}.

Definition skipped (st : ImportState) : ImportState :=
  {| imp_entries := imp_entries st;
     importedCount := importedCount st;
     skippedCount := S (skippedCount st) |}.

Definition imported (entry : LogEntry) (st : ImportState) : ImportState :=
  {| imp_entries := imp_entries st ++ [entry];
     importedCount := S (importedCount st);
     skippedCount := skippedCount st |}.

(** The body of the [forEach] over the rows. *)
Definition import_row (st : ImportState) (rowStr : jstring) : ImportState :=
  match trim rowStr with
  | [] => st
  | _ =>
      let '(id0, date0, domainKey0, score0, note0) := parseCSVRow rowStr in
      if isValidImportRow id0 date0 domainKey0 score0 note0 then
        if negb (existsb (fun entry => strict_eq (id entry) id0) (imp_entries st))
        then
          let newEntry :=
            {| id := id0;
               date := date0;
               domainKey := domainKey0;
               score := VNum (ToNumber score0);
               note := unquote_note note0 |} in
          if entry_valid newEntry then imported newEntry st
          else skipped st
        else skipped st                                (* Duplicate entry *)
      else skipped st
  end.

Definition maxImportRows : nat := Z.to_nat 10000.

(** The rows the import looks at: the lines after the header, at most
    [maxImportRows] of them. *)
Definition import_rows (text : jstring) : list jstring :=
  firstn maxImportRows (tl (split LF text)).

(** The [onload] handler of [importFromCSV], given the text read from
    the file: [None] when the file appears to be empty and nothing is
    done; otherwise the rows are gone through and the history table is
    drawn, which sorts the collection. *)
Definition import_text (text : jstring) (app : AppState)
  : option ImportState :=
  match trim text with
  | [] => None
  | _ =>
      let st := fold_left import_row (import_rows text)
                  {| imp_entries := entries app;
                     importedCount := 0;
                     skippedCount := 0 |} in
      Some {| imp_entries :=
                entries (renderHistoryTable (with_entries app (imp_entries st)));
              importedCount := importedCount st;
              skippedCount := skippedCount st |}
  end.

(** The file chosen for the import: its name, its size in bytes, and the
    text the reader gets from it, [None] when the reading fails. *)
Record File := {
  file_name : jstring;
  file_size : Z;
  file_text : option jstring
}.

Definition maxFileSize : Z := 10 * 1024 * 1024.

(** [importFromCSV(event)], with the file of the event if there is one:
    [None] when nothing is done. *)
Definition importFromCSV (file : option File) (app : AppState)
  : option ImportState :=
  match file with
  | None => None
  | Some f =>
      if negb (endsWith (lit ".csv") (toLowerCase (file_name f))) then None
      else if (maxFileSize <? file_size f)%Z then None
      else match file_text f with
           | Some text => import_text text app
           | None => None                               (* Failed to read file *)
           end
  end.

(** ** Sorting and languages *)

(** [handleSort(column)], as far as [currentSort] goes. *)
Definition handleSort (column : jstring) (currentSort : SortState) : SortState :=
  if jstring_eqb (sort_column currentSort) column then
    {| sort_column := sort_column currentSort;
       sort_direction := match sort_direction currentSort with
                         | Asc => Desc
                         | Desc => Asc
                         end |}
  else {| sort_column := column; sort_direction := Desc |}.

(** The range the catalog of a language gives for a domain key. *)
Definition range_in (lang key : jstring) : option (option jstring) :=
  match translations_domains lang with
  | Some domains => domain_lookup domains key
  | None => None
  end.

(** ** Notions used to state the properties *)

(** The entry validator, rule by rule. *)
Definition note_safe (v : value) : bool :=
  negb (truthy v) || negb (containsMaliciousContent v).

Definition entry_ok (e : LogEntry) : bool :=
  Validation.isRequired (id e)
  && (Validation.isRequired (date e) && Validation.isDate (date e))
  && (Validation.isRequired (domainKey e) && hasOwnDomain (domainKey e))
  && (Validation.isRequired (score e) && Validation.isNumber (score e))
  && (Validation.maxLength (note e) 1000 && note_safe (note e)).

(** What each field collects, with the rules written out. *)
Definition id_errors (e : LogEntry) : list jstring :=
  if Validation.isRequired (id e) then [] else [lit "Entry ID is required"].

Definition date_errors (e : LogEntry) : list jstring :=
  (if Validation.isRequired (date e) then [] else [lit "Date is required"])
  ++ (if Validation.isDate (date e) then [] else [lit "Please enter a valid date"]).

Definition domainKey_errors (e : LogEntry) : list jstring :=
  (if Validation.isRequired (domainKey e) then []
   else [lit "Assessment type is required"])
  ++ (if hasOwnDomain (domainKey e) then [] else [lit "Invalid assessment type"]).

Definition score_errors (e : LogEntry) : list jstring :=
  (if Validation.isRequired (score e) then [] else [lit "Score is required"])
  ++ (if Validation.isNumber (score e) then [] else [lit "Score must be a number"]).

Definition note_errors (e : LogEntry) : list jstring :=
  (if Validation.maxLength (note e) 1000 then []
   else [lit "Note must not exceed 1000 characters"])
  ++ (if note_safe (note e) then []
      else [lit "Note contains potentially unsafe content"]).

Definition nonempty {A} (l : list A) : bool :=
  match l with [] => false | _ => true end.

(** Some entry of the collection has this id:
    [entries.some(entry => entry.id === key)]. *)
Definition has_id (key : value) (es : list LogEntry) : bool :=
  existsb (fun entry => strict_eq (id entry) key) es.

(** A row the import passes over: [!rowStr.trim()]. *)
Definition row_blank (rowStr : jstring) : bool :=
  match trim rowStr with [] => true | _ => false end.

(** The entry a row stands for. *)
Definition row_entry (rowStr : jstring) : LogEntry :=
  let '(id0, date0, domainKey0, score0, note0) := parseCSVRow rowStr in
  {| id := id0; date := date0; domainKey := domainKey0;
     score := VNum (ToNumber score0); note := unquote_note note0 |}.

(** The row is well-formed and its entry passes validation. *)
Definition row_accepted (rowStr : jstring) : bool :=
  let '(id0, date0, domainKey0, score0, note0) := parseCSVRow rowStr in
  isValidImportRow id0 date0 domainKey0 score0 note0
  && entry_valid (row_entry rowStr).

(** The number of rows that are not blank. *)
Definition count_nonblank (rows : list jstring) : nat :=
  length (filter (fun r => negb (row_blank r)) rows).

(** A text with each of its double quotes doubled. *)
Definition doubled (s : jstring) : jstring :=
  flat_map (fun c => if (c =? DQUOTE)%N then [DQUOTE; DQUOTE] else [c]) s.

(** The text of a row whose fields are plain. *)
Definition plain_row (i d k sc t : jstring) : jstring :=
  i ++ COMMA :: d ++ COMMA :: k ++ COMMA :: sc ++ COMMA :: quoted t.

End Application.

End App.

(* ================================================================== *)
(** * ErrorHandler (errorHandler.js) *)
(* ================================================================== *)

Module ErrorHandler.
Import JS.

Section Log.

(** The [details] object of an error, whatever the caller passes. *)
Variable Details : Type.

Record ErrorRecord := {
  err_id : jstring;
  timestamp : jstring;
  err_type : jstring;
  details : Details;
  userAgent : jstring;
  url : jstring
}.

(** What [logError] reads from its surroundings. *)
Record Environment := {
  now_text : jstring;        (* Date.now().toString() *)
  iso_time : jstring;        (* new Date().toISOString() *)
  navigator_userAgent : jstring;
  location_href : jstring
}.

Definition maxErrors : nat := 100.

Definition new_error (env : Environment) (type : jstring) (d : Details)
  : ErrorRecord :=
  {| err_id := now_text env;
     timestamp := iso_time env;
     err_type := type;
     details := d;
     userAgent := navigator_userAgent env;
     url := location_href env |}.

(** [logError(type, details)], as far as [this.errors] goes. *)
Definition logError (env : Environment) (type : jstring) (d : Details)
                    (errors : list ErrorRecord) : list ErrorRecord :=
  let errors := errors ++ [new_error env type d] in
  if (maxErrors <? length errors)%nat then slice_last maxErrors errors
  else errors.

(** [clearErrors()] *)
Definition clearErrors (errors : list ErrorRecord) : list ErrorRecord := [].

(** A series of [logError] calls, each with what it read and was given. *)
Definition log_all (calls : list (Environment * jstring * Details))
                   (errors : list ErrorRecord) : list ErrorRecord :=
  fold_left (fun errs call =>
               let '(env, type, d) := call in logError env type d errs)
            calls errors.

(** The records those calls create. *)
Definition records_of (calls : list (Environment * jstring * Details))
  : list ErrorRecord :=
  map (fun call => let '(env, type, d) := call in new_error env type d) calls.

End Log.

Arguments err_id {Details} e.
Arguments err_type {Details} e.
Arguments details {Details} e.
Arguments new_error {Details} env type d.
Arguments logError {Details} env type d errors.
Arguments log_all {Details} calls errors.
Arguments records_of {Details} calls.

End ErrorHandler.

(* ================================================================== *)
(** * Sample data, on the platform of whole numbers *)
(* ================================================================== *)

Module Samples.
Import JS Runtime App.

#[local] Existing Instance Whole.platform.

Definition entry (i d k : jstring) (s : Z) (n : jstring) : LogEntry :=
  {| id := VStr i; date := VStr d; domainKey := VStr k;
     score := Whole.number s; note := VStr n |}.

(** The row of the specification's example:
    1700000000000,2024-01-15,phq-9,12, then the quoted note. *)
Definition tired : LogEntry :=
  entry (lit "1700000000000") (lit "2024-01-15") (lit "phq-9") 12
        (lit "felt tired, but ok").

(** A note with quotation marks: he said, in quotes, hi; then ", ok". *)
Definition quoting_note : jstring :=
  lit "he said " ++ [DQUOTE] ++ lit "hi" ++ [DQUOTE] ++ lit ", ok".

Definition quoting : LogEntry :=
  entry (lit "1700000000001") (lit "2024-01-16") (lit "gad-7") 0 quoting_note.

(** Another entry made in the same millisecond as [tired]. *)
Definition same_millisecond : LogEntry :=
  entry (lit "1700000000000") (lit "2024-01-15") (lit "gad-7") 3 [].

(** Entries that satisfy the four conditions on domain, date, score and
    note length, one without an id and one with a note that the
    screening rejects. *)
Definition without_id : LogEntry :=
  {| id := VUndefined; date := VStr (lit "2024-01-15");
     domainKey := VStr (lit "phq-9"); score := Whole.number 12;
     note := VStr (lit "ok") |}.

Definition unsafe_note : LogEntry :=
  entry (lit "1700000000002") (lit "2024-01-15") (lit "phq-9") 12
        (lit "see javascript:void(0)").

(** An entry without a date. *)
Definition without_date : LogEntry :=
  {| id := VStr (lit "1700000000003"); date := VUndefined;
     domainKey := VStr (lit "phq-9"); score := Whole.number 12;
     note := VStr (lit "ok") |}.

(** A note of three lines, the middle one empty. *)
Definition three_lines : LogEntry :=
  entry (lit "1700000000004") (lit "2024-01-17") (lit "phq-9") 5
        (lit "a" ++ [LF; LF] ++ lit "b").

(** An id with a comma in it. *)
Definition comma_id : LogEntry :=
  entry (lit "17,5") (lit "2024-01-17") (lit "phq-9") 5 (lit "ok").

(** A score kept as a numeric string. *)
Definition string_score : LogEntry :=
  {| id := VStr (lit "1700000000005"); date := VStr (lit "2024-01-17");
     domainKey := VStr (lit "phq-9"); score := VStr (lit "12");
     note := VStr (lit "ok") |}.

(** The row of the repository's own test of [parseCSVRow]. *)
Definition test_row : jstring :=
  lit "1234567890,2023-12-01,phq-9,15,"
  ++ [DQUOTE] ++ lit "Test note with, comma" ++ [DQUOTE].

(** The application as its constructor leaves it, in English, with the
    given entries. *)
Definition app_of (es : list LogEntry) : AppState :=
  {| entries := es;
     currentLanguage := lit "en";
     currentSort := {| sort_column := lit "date"; sort_direction := Desc |} |}.

Definition empty_app : AppState := app_of [].

(** The file exported from [tired] and [quoting]. *)
Definition tired_row : jstring :=
  lit "1700000000000,2024-01-15,phq-9,12,"
  ++ [DQUOTE] ++ lit "felt tired, but ok" ++ [DQUOTE].

Definition quoting_field : jstring :=
  [DQUOTE] ++ lit "he said " ++ [DQUOTE; DQUOTE] ++ lit "hi"
  ++ [DQUOTE; DQUOTE] ++ lit ", ok" ++ [DQUOTE].

Definition quoting_row : jstring :=
  lit "1700000000001,2024-01-16,gad-7,0," ++ quoting_field.

Definition two_entries_csv : jstring :=
  BOM :: header ++ [LF] ++ tired_row ++ [LF] ++ quoting_row.

(** The file exported from [three_lines], and what an import reads on
    its first data line. *)
Definition three_lines_csv : jstring :=
  BOM :: header ++ [LF]
  ++ lit "1700000000004,2024-01-17,phq-9,5,"
  ++ [DQUOTE] ++ lit "a" ++ [LF; LF] ++ lit "b" ++ [DQUOTE].

Definition first_line_only : LogEntry :=
  entry (lit "1700000000004") (lit "2024-01-17") (lit "phq-9") 5 (lit "a").

(** The files exported from [comma_id] and from [string_score], and what
    an import reads in the second. *)
Definition comma_id_csv : jstring :=
  BOM :: header ++ [LF]
  ++ lit "17,5,2024-01-17,phq-9,5," ++ [DQUOTE] ++ lit "ok" ++ [DQUOTE].

Definition string_score_csv : jstring :=
  BOM :: header ++ [LF]
  ++ lit "1700000000005,2024-01-17,phq-9,12,"
  ++ [DQUOTE] ++ lit "ok" ++ [DQUOTE].

Definition number_score : LogEntry :=
  entry (lit "1700000000005") (lit "2024-01-17") (lit "phq-9") 12 (lit "ok").

(** A file as an export of the sixteenth of January 2024 leaves it: the
    name the download gets, the size of the text in UTF-8 (three bytes
    for the byte-order mark and one for every other character of these
    samples), and the text. *)
Definition exported_file (text : jstring) : File :=
  {| file_name := lit "QuickMHLog_Export_2024-01-16.csv";
     file_size := Z.of_nat (length text) + 2;
     file_text := Some text |}.

(** The same text under the name of a spreadsheet, and in a file of
    eleven megabytes. *)
Definition spreadsheet_file (text : jstring) : File :=
  {| file_name := lit "QuickMHLog_Export_2024-01-16.xlsx";
     file_size := Z.of_nat (length text) + 2;
     file_text := Some text |}.

Definition large_file (text : jstring) : File :=
  {| file_name := lit "QuickMHLog_Export_2024-01-16.csv";
     file_size := 11 * 1024 * 1024;
     file_text := Some text |}.

(** The import of an exported text, [sort] being the stable insertion
    sort and [toLowerCase] the lowering of the ASCII letters. *)
Definition import_exported (text : jstring) (app : AppState)
  : option ImportState :=
  importFromCSV stable_sort Security.lower_ascii
    (Some (exported_file text)) app.

(** An adapter with the default prefix on a store that is available. *)
Definition adapter : Security.SecureStorage :=
  {| Security.keyPrefix := lit "quickmh_"; Security.isAvailable := true |}.

(** A store shared with another application: two items of the adapter,
    one of the other application, and an item that happens to have the
    name of the availability probe. *)
Definition shared_store : Security.LocalStorage :=
  {| Security.items :=
       [ (lit "quickmh_entries", lit "[]");
         (lit "theme", lit "dark");
         (lit "quickmh_lang", lit "fa");
         (lit "__storage_test__", lit "mine") ];
     Security.access_denied := false;
     Security.capacity := None |}.

(** What is left of it once the adapter has cleared its own items. *)
Definition cleared_store : Security.LocalStorage :=
  {| Security.items :=
       [ (lit "theme", lit "dark"); (lit "__storage_test__", lit "mine") ];
     Security.access_denied := false;
     Security.capacity := None |}.

(** [JSON.parse] on the texts that are whole numbers without a sign;
    this stand-in rejects every other text. *)
Definition json_whole_number (s : jstring) : option value :=
  match s with
  | [] => None
  | c :: rest =>
      if ((c =? 48)%N && match rest with [] => true | _ => false end)
         || ((49 <=? c)%N && (c <=? 57)%N && forallb Whole.is_digit rest)
      then Some (Whole.number (Whole.digits_value s))
      else None
  end.

(** The text hello as [encrypt] stores it. *)
Definition hello_stored : jstring := lit "DAAKDRo=".

(** What a call of [logError] finds around it. *)
Definition browser : ErrorHandler.Environment :=
  {| ErrorHandler.now_text := lit "1700000000000";
     ErrorHandler.iso_time := lit "2023-11-14T22:13:20.000Z";
     ErrorHandler.navigator_userAgent := lit "Mozilla/5.0";
     ErrorHandler.location_href := lit "https://example.org/" |}.

End Samples.

(* ================================================================== *)
(** * Properties *)
(* ================================================================== *)

Module RateLimiterFacts.
Import RateLimiter.
Local Open Scope Z_scope.

Section Limiter.

Variable World : Type.
Variable T : Type.
Variable maxCalls : Z.
Variable timeWindow : Z.
Variable fn : operation World T.

Lemma evict_length now calls :
  (length (evict timeWindow now calls) <= length calls)%nat.
Proof.
  induction calls as [|c rest IH]; simpl; [lia|].
  destruct (c <? now - timeWindow); simpl; lia.
Qed.

(** Nothing is evicted while the oldest recorded call is still inside
    the window. *)
Lemma evict_keeps now calls :
  (forall t1, hd_error calls = Some t1 -> now <= t1 + timeWindow) ->
  evict timeWindow now calls = calls.
Proof.
  destruct calls as [|c rest]; simpl; [reflexivity|].
  intros H. specialize (H c eq_refl).
  destruct (Z.ltb_spec c (now - timeWindow)); [lia|reflexivity].
Qed.

(** The oldest recorded call goes once the window has passed it. *)
Lemma evict_drops now t0 rest :
  t0 + timeWindow < now ->
  evict timeWindow now (t0 :: rest) = evict timeWindow now rest.
Proof.
  intros H. simpl.
  destruct (Z.ltb_spec t0 (now - timeWindow)); [reflexivity|lia].
Qed.

Lemma evict_quota now calls :
  quota_respected maxCalls calls -> quota_respected maxCalls (evict timeWindow now calls).
Proof.
  intros [->|H]; [left; reflexivity|].
  right. pose proof (evict_length now calls). lia.
Qed.

Lemma invoke_quota now st :
  quota_respected maxCalls (fst st) ->
  quota_respected maxCalls (fst (snd (invoke maxCalls timeWindow fn now st))).
Proof.
  intros H. unfold invoke.
  pose proof (evict_quota now (fst st) H) as He.
  destruct (Z.geb_spec (Z.of_nat (length (evict timeWindow now (fst st)))) maxCalls)
    as [Hge|Hlt]; simpl.
  - exact He.
  - destruct (fn (snd st)) as [r w']. simpl. right.
    rewrite length_app. simpl. lia.
Qed.

Lemma invoke_all_quota times : forall st,
  quota_respected maxCalls (fst st) ->
  quota_respected maxCalls (fst (snd (invoke_all maxCalls timeWindow fn times st))).
Proof.
  induction times as [|now rest IH]; intros st H; simpl; [exact H|].
  pose proof (invoke_quota now st H) as H1.
  destruct (invoke maxCalls timeWindow fn now st) as [o st1].
  specialize (IH st1 H1).
  destruct (invoke_all maxCalls timeWindow fn rest st1) as [os st2].
  exact IH.
Qed.

(** Calls made while there is room and nothing expires all run. *)
Lemma invoke_all_in_window times : forall calls w,
  (forall t1 t, hd_error (calls ++ times) = Some t1 -> In t times ->
                t <= t1 + timeWindow) ->
  Z.of_nat (length calls + length times) <= maxCalls ->
  invoke_all maxCalls timeWindow fn times (calls, w) =
    (map Executed (fst (run_operation fn (length times) w)),
     (calls ++ times, snd (run_operation fn (length times) w))).
Proof.
  induction times as [|now rest IH]; intros calls w Hwin Hlen.
  - simpl. rewrite app_nil_r. reflexivity.
  - cbn [invoke_all length run_operation]. unfold invoke. cbn [fst snd].
    rewrite evict_keeps.
    2:{ intros t1 Ht1. apply (Hwin t1 now); [|left; reflexivity].
        destruct calls; simpl in *; congruence. }
    destruct (Z.geb_spec (Z.of_nat (length calls)) maxCalls) as [Hge|Hlt].
    { simpl in Hlen. lia. }
    destruct (fn w) as [r w1] eqn:Hfn.
    rewrite (IH (calls ++ [now]) w1).
    + destruct (run_operation fn (length rest) w1) as [rs w2]. simpl.
      rewrite <- app_assoc. reflexivity.
    + intros t1 t Ht1 Hin. apply (Hwin t1 t); [|right; exact Hin].
      rewrite <- app_assoc in Ht1. exact Ht1.
    + rewrite length_app. simpl in *. lia.
Qed.

End Limiter.

(** C7. A limiter created with [createRateLimiter(N, windowMs)]:
    [N] invocations within one window all execute the wrapped operation;
    the [(N+1)]-th invocation within that window raises the rate-limit
    failure and leaves the operation unexecuted; and whatever the limiter
    has been through, once more than [windowMs] has passed since the
    earliest recorded call the next invocation executes the operation. *)
Theorem C7_rate_limiter_quota_and_recovery
    {World T : Type} (N : nat) (windowMs : Z) (fn : operation World T) :
  (forall (times : list Z) (t_extra : Z) (w0 : World),
     length times = N ->
     within_one_window windowMs (times ++ [t_extra]) ->
     invoke_all (Z.of_nat N) windowMs fn (times ++ [t_extra]) (fresh w0) =
       (map Executed (fst (run_operation fn N w0)) ++ [RateLimitExceeded],
        (times, snd (run_operation fn N w0))))
  /\
  (forall (history : list Z) (w0 w : World) (outs : list (outcome T))
          (t0 : Z) (rest : list Z) (now : Z),
     invoke_all (Z.of_nat N) windowMs fn history (fresh w0) =
       (outs, (t0 :: rest, w)) ->
     t0 + windowMs < now ->
     exists calls',
       invoke (Z.of_nat N) windowMs fn now (t0 :: rest, w) =
         (Executed (fst (fn w)), (calls' ++ [now], snd (fn w)))).
Proof.
  split.
  - intros times t_extra w0 Hlen Hwin.
    assert (Hin : forall t1 t, hd_error (times ++ [t_extra]) = Some t1 ->
                    In t (times ++ [t_extra]) -> t <= t1 + windowMs).
    { intros t1 t Ht1 Hin. unfold within_one_window in Hwin.
      destruct (times ++ [t_extra]) as [|t1' l] eqn:E; [destruct Hin|].
      simpl in Ht1. injection Ht1 as ->.
      rewrite Forall_forall in Hwin. apply (Hwin t Hin). }
    assert (Hsplit : forall st, invoke_all (Z.of_nat N) windowMs fn (times ++ [t_extra]) st =
              let '(os1, st1) := invoke_all (Z.of_nat N) windowMs fn times st in
              let '(o, st2) := invoke (Z.of_nat N) windowMs fn t_extra st1 in
              (os1 ++ [o], st2)).
    { clear. induction times as [|t ts IH]; intros st; simpl.
      - destruct (invoke (Z.of_nat N) windowMs fn t_extra st). reflexivity.
      - destruct (invoke (Z.of_nat N) windowMs fn t st) as [o st1].
        rewrite IH.
        destruct (invoke_all (Z.of_nat N) windowMs fn ts st1) as [os st2].
        destruct (invoke (Z.of_nat N) windowMs fn t_extra st2). reflexivity. }
    rewrite Hsplit. unfold fresh.
    rewrite (invoke_all_in_window _ _ (Z.of_nat N) windowMs fn times [] w0).
    + rewrite Hlen. simpl app. unfold invoke. cbn [fst snd].
      rewrite evict_keeps.
      * destruct (Z.geb_spec (Z.of_nat (length times)) (Z.of_nat N)); [reflexivity|lia].
      * intros t1 Ht1. apply (Hin t1 t_extra).
        -- destruct times; simpl in *; congruence.
        -- apply in_or_app. right. left. reflexivity.
    + intros t1 t Ht1 Hi. apply (Hin t1 t).
      * simpl in Ht1. destruct times; simpl in *; congruence.
      * apply in_or_app. left. exact Hi.
    + simpl. lia.
  - intros history w0 w outs t0 rest now Hrun Helapsed.
    pose proof (invoke_all_quota _ _ (Z.of_nat N) windowMs fn history (fresh w0)) as Hq.
    rewrite Hrun in Hq. simpl in Hq.
    specialize (Hq (or_introl eq_refl)).
    destruct Hq as [Hq|Hq]; [discriminate|].
    exists (evict windowMs now rest).
    unfold invoke. cbn [fst snd].
    rewrite evict_drops by exact Helapsed.
    pose proof (evict_length windowMs now rest).
    destruct (Z.geb_spec (Z.of_nat (length (evict windowMs now rest))) (Z.of_nat N)).
    + simpl in Hq. lia.
    + destruct (fn w). reflexivity.
Qed.

(** An instance of C7: two calls per second. *)
Lemma C7_rate_limiter_witness :
  invoke_all 2 1000 counting ([0; 10] ++ [1000]) (fresh 0%nat) =
    ([Executed 0%nat; Executed 1%nat] ++ [RateLimitExceeded], ([0; 10], 2%nat))
  /\
  exists calls',
    invoke 2 1000 counting 1001 ([0; 10], 2%nat) =
      (Executed 2%nat, (calls' ++ [1001], 3%nat)).
Proof.
  destruct (C7_rate_limiter_quota_and_recovery 2 1000 counting) as [H1 H2].
  split.
  - apply (H1 [0; 10] 1000 0%nat).
    + reflexivity.
    + simpl. repeat constructor; lia.
  - apply (H2 [0; 10] 0%nat 2%nat [Executed 0%nat; Executed 1%nat] 0 [10] 1001).
    + reflexivity.
    + lia.
Defined.

(** C10. An invocation that raises the rate-limit failure changes nothing
    but the eviction of expired timestamps: its own time is not recorded,
    the wrapped operation does not run (the world is untouched), and any
    later invocation behaves as if the rejected one had never been made. *)
Theorem C10_rejected_call_leaves_no_trace
    {World T : Type} (maxCalls timeWindow : Z) (fn : operation World T)
    (now : Z) (st st' : limiter_state World) :
  invoke maxCalls timeWindow fn now st = (RateLimitExceeded, st') ->
  st' = (evict timeWindow now (fst st), snd st)
  /\ (forall t, In t (fst st') -> In t (fst st))
  /\ length (fst st') = length (evict timeWindow now (fst st))
  /\ (forall (fn' : operation World T) later, now <= later ->
        invoke maxCalls timeWindow fn' later st' =
        invoke maxCalls timeWindow fn' later st).
Proof.
  unfold invoke. intros H.
  destruct (Z.of_nat (length (evict timeWindow now (fst st))) >=? maxCalls) eqn:Hfull.
  - injection H as <-. cbn [fst snd].
    assert (Hsub : forall cs t, In t (evict timeWindow now cs) -> In t cs).
    { induction cs as [|c cs IH]; simpl; intros t Ht; [exact Ht|].
      destruct (c <? now - timeWindow); [right; auto|exact Ht]. }
    assert (Hidem : forall later cs, now <= later ->
              evict timeWindow later (evict timeWindow now cs) =
              evict timeWindow later cs).
    { intros later cs Hle. induction cs as [|c cs IH]; [reflexivity|].
      simpl. destruct (Z.ltb_spec c (now - timeWindow)).
      - rewrite IH. destruct (Z.ltb_spec c (later - timeWindow)); [reflexivity|lia].
      - reflexivity. }
    repeat split; auto.
    intros fn' later Hle. rewrite Hidem by exact Hle. reflexivity.
  - destruct (fn (snd st)). discriminate.
Qed.

(** An instance of C10: a full limiter rejecting a call. *)
Lemma C10_rejected_call_witness :
  ([10], 1%nat) = (evict 1000 20 (fst ([10], 1%nat)), snd ([10], 1%nat))
  /\ (forall t, In t (fst ([10], 1%nat)) -> In t (fst ([10], 1%nat)))
  /\ length (fst ([10], 1%nat)) = length (evict 1000 20 (fst ([10], 1%nat)))
  /\ (forall (fn' : operation nat nat) later, 20 <= later ->
        invoke 1 1000 fn' later ([10], 1%nat) =
        invoke 1 1000 fn' later ([10], 1%nat)).
Proof.
  apply (C10_rejected_call_leaves_no_trace 1 1000 counting 20
           ([10], 1%nat) ([10], 1%nat)).
  reflexivity.
Defined.

End RateLimiterFacts.

Module RetryFacts.
Import Retry.
Local Open Scope Z_scope.

Section WithRetry.

Variables World E T : Type.
Variable op : operation World E T.
Variable maxRetries : Z.
Variable delay : Z.

Lemma nth_outcome_shift k w :
  (1 <= k)%nat ->
  nth_outcome op (S k) w = nth_outcome op k (snd (op w)).
Proof.
  intros Hk. unfold nth_outcome.
  destruct k as [|k]; [lia|]. simpl. rewrite Nat.sub_0_r. reflexivity.
Qed.

Lemma backoff_schedule_step a k :
  backoff_schedule delay a (S (S k)) =
  Invoke :: Wait (delay * 2 ^ (a - 1)) :: backoff_schedule delay (a + 1) (S k).
Proof. reflexivity. Qed.

(** The loop stops at the first invocation that resolves. *)
Lemma attempts_first_success v : forall k rem attempt lastError w,
  Z.of_nat rem = maxRetries - attempt + 1 ->
  (1 <= k <= rem)%nat ->
  (forall j, (1 <= j < k)%nat -> exists e, nth_outcome op j w = inl e) ->
  nth_outcome op k w = inr v ->
  attempts op maxRetries delay rem attempt lastError w =
    (Return v, world_after op k w, backoff_schedule delay attempt k).
Proof.
  induction k as [|k IH]; intros rem attempt lastError w Hrem Hk Hfail Hok; [lia|].
  destruct rem as [|rem]; [lia|].
  cbn [attempts].
  destruct (Z.leb_spec attempt maxRetries); [|lia].
  destruct k as [|k].
  - unfold nth_outcome in Hok. simpl in Hok. simpl.
    destruct (op w) as [[e|v'] w1]; simpl in *; congruence.
  - destruct (Hfail 1%nat ltac:(lia)) as [e He].
    unfold nth_outcome in He. simpl in He.
    rewrite backoff_schedule_step.
    change (world_after op (S (S k)) w) with (world_after op (S k) (snd (op w))).
    rewrite nth_outcome_shift in Hok by lia.
    assert (Hfail' : forall j, (1 <= j < S k)%nat ->
               exists e', nth_outcome op j (snd (op w)) = inl e').
    { intros j Hj. rewrite <- nth_outcome_shift by lia. apply Hfail. lia. }
    destruct (op w) as [[e'|v'] w1]; simpl in *; [|discriminate].
    destruct (Z.eqb_spec attempt maxRetries); [lia|].
    rewrite (IH rem (attempt + 1) (Some e') w1) by (assumption || lia).
    reflexivity.
Qed.

(** If every allowed attempt rejects, all of them are made and the last
    rejection is the one thrown. *)
Lemma attempts_all_fail : forall rem attempt lastError w,
  Z.of_nat rem = maxRetries - attempt + 1 ->
  (1 <= rem)%nat ->
  (forall j, (1 <= j <= rem)%nat -> exists e, nth_outcome op j w = inl e) ->
  exists e_last,
    nth_outcome op rem w = inl e_last /\
    attempts op maxRetries delay rem attempt lastError w =
      (Throw (Some e_last), world_after op rem w,
       backoff_schedule delay attempt rem).
Proof.
  induction rem as [|rem IH]; intros attempt lastError w Hrem Hpos Hfail; [lia|].
  cbn [attempts].
  destruct (Z.leb_spec attempt maxRetries); [|lia].
  destruct (Hfail 1%nat ltac:(lia)) as [e He].
  unfold nth_outcome in He. simpl in He.
  destruct rem as [|rem].
  - exists e. split; [exact He|]. simpl.
    destruct (op w) as [[e'|v'] w1]; simpl in *; [|discriminate].
    destruct (Z.eqb_spec attempt maxRetries); [|lia]. congruence.
  - destruct (IH (attempt + 1) (Some e) (snd (op w))) as [e_last [Hl Hrun]].
    + lia.
    + lia.
    + intros j Hj. rewrite <- nth_outcome_shift by lia. apply Hfail. lia.
    + exists e_last. split.
      * rewrite nth_outcome_shift by lia. exact Hl.
      * rewrite backoff_schedule_step.
        change (world_after op (S (S rem)) w)
          with (world_after op (S rem) (snd (op w))).
        destruct (op w) as [[e'|v'] w1]; simpl in *; [|discriminate].
        destruct (Z.eqb_spec attempt maxRetries); [lia|].
        injection He as ->. rewrite Hrun. reflexivity.
Qed.

Lemma count_backoff_schedule : forall n a,
  count_invocations (backoff_schedule delay a n) = n.
Proof.
  induction n as [|n IH]; intros a; [reflexivity|].
  destruct n as [|n]; [reflexivity|].
  rewrite backoff_schedule_step. unfold count_invocations in *.
  cbn [filter length]. rewrite IH. reflexivity.
Qed.

Lemma waits_backoff_schedule : forall n a,
  waits (backoff_schedule delay a (S n)) =
  map (fun i => delay * 2 ^ (a + Z.of_nat i - 1)) (seq 0 n).
Proof.
  induction n as [|n IH]; intros a; [reflexivity|].
  rewrite backoff_schedule_step. unfold waits in *.
  cbn [flat_map app]. rewrite IH.
  cbn [seq map]. rewrite Z.add_0_r. f_equal.
  rewrite <- seq_shift, map_map.
  apply map_ext. intros i. f_equal. f_equal. lia.
Qed.

End WithRetry.

(** C8. [withRetry(operation, maxRetries, baseDelay)] over an operation
    that rejects on every invocation invokes it exactly [maxRetries]
    times, waits [baseDelay * 2^(attempt-1)] after each attempt but the
    last, and throws the last rejection itself; over an operation whose
    [k]-th invocation is the first to resolve it returns that value after
    exactly [k] invocations. *)
Theorem C8_withRetry_attempts_and_backoff
    {World E T : Type} (op : operation World E T)
    (maxRetries : nat) (baseDelay : Z) (w0 : World) :
  (1 <= maxRetries)%nat ->
  ((forall w, exists e, fst (op w) = inl e) ->
   exists e_last evs,
     nth_outcome op maxRetries w0 = inl e_last /\
     withRetry op (Z.of_nat maxRetries) baseDelay w0 =
       (Throw (Some e_last), world_after op maxRetries w0, evs) /\
     count_invocations evs = maxRetries /\
     waits evs = map (fun attempt => baseDelay * 2 ^ (Z.of_nat attempt - 1))
                     (seq 1 (maxRetries - 1)) /\
     evs = backoff_schedule baseDelay 1 maxRetries)
  /\
  (forall (k : nat) (v : T),
     (1 <= k <= maxRetries)%nat ->
     (forall j, (1 <= j < k)%nat -> exists e, nth_outcome op j w0 = inl e) ->
     nth_outcome op k w0 = inr v ->
     exists evs,
       withRetry op (Z.of_nat maxRetries) baseDelay w0 =
         (Return v, world_after op k w0, evs) /\
       count_invocations evs = k /\
       waits evs = map (fun attempt => baseDelay * 2 ^ (Z.of_nat attempt - 1))
                       (seq 1 (k - 1)) /\
       evs = backoff_schedule baseDelay 1 k).
Proof.
  intros Hpos.
  assert (Hwaits : forall n, (1 <= n)%nat ->
            waits (backoff_schedule baseDelay 1 n) =
            map (fun attempt => baseDelay * 2 ^ (Z.of_nat attempt - 1)) (seq 1 (n - 1))).
  { intros n Hn. destruct n as [|n]; [lia|].
    rewrite waits_backoff_schedule. simpl Nat.sub. rewrite Nat.sub_0_r.
    rewrite <- seq_shift, map_map. apply map_ext. intros i. f_equal. f_equal. lia. }
  split.
  - intros Hfail.
    destruct (attempts_all_fail _ _ _ op (Z.of_nat maxRetries) baseDelay
                maxRetries 1 None w0) as [e_last [Hl Hrun]].
    + lia.
    + exact Hpos.
    + intros j _. apply Hfail.
    + exists e_last, (backoff_schedule baseDelay 1 maxRetries).
      unfold withRetry. rewrite Nat2Z.id.
      repeat split; auto using count_backoff_schedule.
  - intros k v Hk Hfail Hok.
    exists (backoff_schedule baseDelay 1 k).
    unfold withRetry. rewrite Nat2Z.id.
    rewrite (attempts_first_success _ _ _ op (Z.of_nat maxRetries) baseDelay v k)
      by (assumption || lia).
    repeat split; auto using count_backoff_schedule.
    apply Hwaits. lia.
Qed.

(** An instance of C8: three attempts, delays of 1000 and 2000 ms. *)
Lemma C8_withRetry_witness :
  (exists e_last evs,
     nth_outcome always_failing 3 0%nat = inl e_last /\
     withRetry always_failing 3 1000 0%nat = (Throw (Some e_last), 3%nat, evs) /\
     count_invocations evs = 3%nat /\
     waits evs = [1000; 2000] /\
     evs = [Invoke; Wait 1000; Invoke; Wait 2000; Invoke])
  /\
  (exists evs,
     withRetry third_time_lucky 5 1000 0%nat = (Return 3%nat, 3%nat, evs) /\
     count_invocations evs = 3%nat /\
     waits evs = [1000; 2000] /\
     evs = [Invoke; Wait 1000; Invoke; Wait 2000; Invoke]).
Proof.
  split.
  - destruct (C8_withRetry_attempts_and_backoff always_failing 3 1000 0%nat
                ltac:(lia)) as [H _].
    apply H. intros w. exists (S w). reflexivity.
  - destruct (C8_withRetry_attempts_and_backoff third_time_lucky 5 1000 0%nat
                ltac:(lia)) as [_ H].
    apply (H 3%nat 3%nat).
    + lia.
    + intros j Hj. exists j.
      destruct j as [|[|[|j]]]; try lia; reflexivity.
    + reflexivity.
Defined.

End RetryFacts.

Module JSFacts.
Import JS.
Local Open Scope N_scope.

(** ** Equality of strings *)

Lemma jstring_eqb_refl s : jstring_eqb s s = true.
Proof.
  induction s as [|c s IH]; simpl; [reflexivity|].
  rewrite N.eqb_refl. exact IH.
Qed.

Lemma jstring_eqb_eq a : forall b, jstring_eqb a b = true <-> a = b.
Proof.
  induction a as [|x a IH]; intros [|y b]; simpl; split; intros H;
    try reflexivity; try discriminate.
  - apply andb_true_iff in H. destruct H as [H1 H2].
    apply N.eqb_eq in H1. apply IH in H2. congruence.
  - injection H as -> ->. rewrite N.eqb_refl. apply jstring_eqb_refl.
Qed.

(** ** trim *)

Lemma trimStart_suffix s : exists pre, s = pre ++ trimStart s.
Proof.
  induction s as [|c s [pre IH]]; [exists []; reflexivity|].
  simpl. destruct (is_whitespace c).
  - exists (c :: pre). simpl. f_equal. exact IH.
  - exists []. reflexivity.
Qed.

Lemma trimEnd_prefix s : exists suf, s = trimEnd s ++ suf.
Proof.
  unfold trimEnd. destruct (trimStart_suffix (rev s)) as [pre H].
  exists (rev pre). rewrite <- rev_app_distr, <- H, rev_involutive. reflexivity.
Qed.

Lemma trimStart_clean s : clean_start (trimStart s).
Proof.
  induction s as [|c s IH]; simpl; [exact I|].
  destruct (is_whitespace c) eqn:E; [exact IH|exact E].
Qed.

Lemma trimStart_id s : clean_start s -> trimStart s = s.
Proof. destruct s as [|c s]; simpl; [reflexivity|]. intros ->. reflexivity. Qed.

Lemma trimEnd_id s : clean_end s -> trimEnd s = s.
Proof.
  unfold clean_end, trimEnd. intros H. rewrite trimStart_id by exact H.
  apply rev_involutive.
Qed.

Lemma trimEnd_clean s : clean_end (trimEnd s).
Proof.
  unfold clean_end, trimEnd. rewrite rev_involutive. apply trimStart_clean.
Qed.

Lemma clean_start_prefix s suf : clean_start (s ++ suf) -> clean_start s.
Proof. destruct s; simpl; auto. Qed.

Lemma trim_clean s : clean_start (trim s) /\ clean_end (trim s).
Proof.
  unfold trim. split; [|apply trimEnd_clean].
  destruct (trimEnd_prefix (trimStart s)) as [suf H].
  apply clean_start_prefix with (suf := suf). rewrite <- H.
  apply trimStart_clean.
Qed.

Lemma trim_id s : clean_start s -> clean_end s -> trim s = s.
Proof.
  intros H1 H2. unfold trim. rewrite trimStart_id by exact H1.
  apply trimEnd_id. exact H2.
Qed.

Lemma trim_idempotent s : trim (trim s) = trim s.
Proof. destruct (trim_clean s). apply trim_id; assumption. Qed.

Lemma Forall_trimStart (Q : N -> Prop) s : Forall Q s -> Forall Q (trimStart s).
Proof.
  intros H. destruct (trimStart_suffix s) as [pre E].
  rewrite E in H. apply Forall_app in H. tauto.
Qed.

Lemma Forall_trim (Q : N -> Prop) s : Forall Q s -> Forall Q (trim s).
Proof.
  intros H. unfold trim.
  destruct (trimEnd_prefix (trimStart s)) as [suf E].
  apply Forall_trimStart in H. rewrite E in H. apply Forall_app in H. tauto.
Qed.

(** ** replace *)

(** Replacing matches by nothing only deletes characters. *)
Lemma Forall_replace_from_nil (Q : N -> Prop) r : forall s skip,
  Forall Q s -> Forall Q (replace_from r [] skip s).
Proof.
  induction s as [|c s IH]; intros skip H.
  - simpl. destruct skip; [destruct (match_length r [])|]; constructor.
  - inversion H as [|? ? Hc Hs]; subst. simpl.
    destruct skip as [|n]; [|apply IH; exact Hs].
    destruct (match_length r (c :: s)) as [[|n]|]; simpl.
    + constructor; [exact Hc|apply IH; exact Hs].
    + apply IH; exact Hs.
    + constructor; [exact Hc|apply IH; exact Hs].
Qed.

Lemma Forall_replace_all_nil (Q : N -> Prop) r s :
  Forall Q s -> Forall Q (replace_all r [] s).
Proof. apply Forall_replace_from_nil. Qed.

Lemma match_length_class (p : N -> bool) c s :
  match_length (Chr p) (c :: s) = if p c then Some 1%nat else None.
Proof.
  unfold match_length. cbn [rmatch]. destruct (p c); [|reflexivity].
  f_equal. cbn [length]. lia.
Qed.

(** After the matches of a one-character class are deleted, no character
    of the class is left. *)
Lemma replace_all_class_nil (p : N -> bool) s :
  Forall (fun c => p c = false) (replace_all (Chr p) [] s).
Proof.
  unfold replace_all. induction s as [|c s IH]; cbn [replace_from].
  - destruct (match_length (Chr p) []); constructor.
  - rewrite match_length_class. destruct (p c) eqn:E.
    + exact IH.
    + constructor; assumption.
Qed.

Lemma replace_all_class (p : N -> bool) repl s :
  replace_all (Chr p) repl s = flat_map (fun c => if p c then repl else [c]) s.
Proof.
  unfold replace_all. induction s as [|c s IH]; [reflexivity|].
  cbn [replace_from flat_map]. rewrite match_length_class.
  destruct (p c); rewrite IH; reflexivity.
Qed.

(** A replacement changes nothing where nothing matches. *)
Lemma replace_all_class_none (p : N -> bool) repl s :
  Forall (fun c => p c = false) s -> replace_all (Chr p) repl s = s.
Proof.
  intros H. rewrite replace_all_class.
  induction H as [|c s Hc _ IH]; [reflexivity|].
  cbn [flat_map]. rewrite Hc, IH. reflexivity.
Qed.

(** ** trim, continued *)

Lemma In_trimStart c s :
  In c s -> is_whitespace c = false -> In c (trimStart s).
Proof.
  induction s as [|a s IH]; intros Hin Hc; [destruct Hin|].
  simpl. destruct (is_whitespace a) eqn:Ea; [|exact Hin].
  destruct Hin as [->|Hin]; [congruence|auto].
Qed.

Lemma trim_nonblank c s :
  In c s -> is_whitespace c = false -> trim s <> [].
Proof.
  intros Hin Hc. unfold trim, trimEnd.
  assert (H : In c (rev (trimStart (rev (trimStart s))))).
  { rewrite <- in_rev. apply In_trimStart; [|exact Hc].
    rewrite <- in_rev. apply In_trimStart; assumption. }
  intros E. rewrite E in H. destruct H.
Qed.

(** ** split and join *)

Lemma split_nonempty sep s : split sep s <> [].
Proof.
  induction s as [|c s IH]; simpl; [discriminate|].
  destruct (c =? sep); [discriminate|].
  destruct (split sep s); [contradiction|discriminate].
Qed.

Lemma split_app_sep sep a b :
  ~ In sep a -> split sep (a ++ sep :: b) = a :: split sep b.
Proof.
  induction a as [|c a IH]; intros Hnot.
  - simpl. rewrite N.eqb_refl. reflexivity.
  - cbn [app split].
    destruct (N.eqb_spec c sep) as [->|Hne]; [destruct Hnot; left; reflexivity|].
    rewrite IH; [reflexivity|]. intros Hin. apply Hnot. right. exact Hin.
Qed.

Lemma split_no_sep sep a : ~ In sep a -> split sep a = [a].
Proof.
  induction a as [|c a IH]; intros Hnot; [reflexivity|].
  cbn [split].
  destruct (N.eqb_spec c sep) as [->|Hne]; [destruct Hnot; left; reflexivity|].
  rewrite IH; [reflexivity|]. intros Hin. apply Hnot. right. exact Hin.
Qed.

Lemma join_cons_char sep c p ps :
  join sep ((c :: p) :: ps) = c :: join sep (p :: ps).
Proof. destruct ps; reflexivity. Qed.

Lemma join_split sep s : join [sep] (split sep s) = s.
Proof.
  induction s as [|c s IH]; [reflexivity|].
  cbn [split]. pose proof (split_nonempty sep s) as Hne.
  destruct (split sep s) as [|p ps]; [contradiction|].
  destruct (N.eqb_spec c sep) as [->|Hc].
  - change (join [sep] ([] :: p :: ps)) with ([] ++ [sep] ++ join [sep] (p :: ps)).
    rewrite IH. reflexivity.
  - change (join [sep] ((c :: p) :: ps) = c :: s).
    rewrite join_cons_char. f_equal. exact IH.
Qed.

(** A text made of lines without line feeds splits back into them. *)
Lemma split_lines sep x rows :
  ~ In sep x -> Forall (fun r => ~ In sep r) rows ->
  split sep (x ++ flat_map (fun r => sep :: r) rows) = x :: rows.
Proof.
  intros Hx Hrows. revert x Hx.
  induction Hrows as [|r rows Hr _ IH]; intros x Hx.
  - simpl. rewrite app_nil_r. apply split_no_sep. exact Hx.
  - cbn [flat_map]. rewrite <- app_comm_cons.
    rewrite split_app_sep by exact Hx. rewrite IH by exact Hr. reflexivity.
Qed.

End JSFacts.

(* ================================================================== *)
(** * Sorting *)
(* ================================================================== *)

Module SortFacts.
Import JS.
Local Open Scope Z_scope.

Section Sorting.
Context {A : Type}.
Variable cmp : A -> A -> Z.

Lemma insert_sorted_permutes x : forall l,
  Permutation (x :: l) (insert_sorted cmp x l).
Proof.
  induction l as [|y l IH]; cbn [insert_sorted]; [reflexivity|].
  destruct (cmp x y <=? 0); [reflexivity|].
  rewrite perm_swap. apply perm_skip. exact IH.
Qed.

Lemma stable_sort_permutes : forall l, Permutation l (stable_sort cmp l).
Proof.
  induction l as [|x l IH]; cbn [stable_sort]; [reflexivity|].
  rewrite <- insert_sorted_permutes. apply perm_skip. exact IH.
Qed.

(** A list in the order of the comparison is left as it is. *)
Lemma stable_sort_fixed : forall l,
  Sorted (fun a b => cmp a b <= 0) l -> stable_sort cmp l = l.
Proof.
  induction l as [|x l IH]; intros H; [reflexivity|].
  inversion H as [|? ? Hl Hhd]; subst.
  cbn [stable_sort]. rewrite (IH Hl).
  destruct Hhd as [|y r Hxy]; [reflexivity|].
  cbn [insert_sorted]. apply Z.leb_le in Hxy. rewrite Hxy. reflexivity.
Qed.

Lemma consistent_spec l a b c :
  consistent cmp l = true -> In a l -> In b l -> In c l ->
  consistent_at cmp a b c = true.
Proof.
  unfold consistent. intros H Ha Hb Hc.
  rewrite forallb_forall in H. specialize (H a Ha).
  rewrite forallb_forall in H. specialize (H b Hb).
  rewrite forallb_forall in H. exact (H c Hc).
Qed.

(** Of two elements, one greater than the other, the other is not
    greater than the one. *)
Lemma consistent_antisym l a b :
  consistent cmp l = true -> In a l -> In b l ->
  0 < cmp a b -> cmp b a <= 0.
Proof.
  intros H Ha Hb Hab.
  pose proof (consistent_spec l a b a H Ha Hb Ha) as Haba.
  unfold consistent_at in Haba.
  destruct (Z.ltb_spec 0 (cmp b a)) as [Hba|Hba]; [|exact Hba].
  apply Z.ltb_lt in Hab. rewrite Hab in Haba.
  destruct (Z.eqb_spec (cmp a a) 0) as [Haa|Haa].
  - rewrite Haa in Haba. cbn in Haba.
    rewrite !andb_false_r in Haba. discriminate Haba.
  - cbn in Haba. discriminate Haba.
Qed.

Lemma consistent_permutation l l' :
  Permutation l l' -> consistent cmp l = true -> consistent cmp l' = true.
Proof.
  intros Hp H. unfold consistent.
  apply forallb_forall. intros a Ha.
  apply forallb_forall. intros b Hb.
  apply forallb_forall. intros c Hc.
  apply (consistent_spec l); [exact H|..];
    apply (Permutation_in _ (Permutation_sym Hp)); assumption.
Qed.

Lemma insert_sorted_sorted x : forall l,
  (forall y, In y l -> 0 < cmp x y -> cmp y x <= 0) ->
  Sorted (fun a b => cmp a b <= 0) l ->
  Sorted (fun a b => cmp a b <= 0) (insert_sorted cmp x l).
Proof.
  induction l as [|y l IH]; intros Hanti Hs; cbn [insert_sorted].
  - repeat constructor.
  - destruct (Z.leb_spec (cmp x y) 0) as [Hxy|Hxy].
    + constructor; [exact Hs|]. constructor. exact Hxy.
    + inversion Hs as [|? ? Hl Hhd]; subst.
      constructor.
      * apply IH; [|exact Hl]. intros z Hz. apply Hanti. right. exact Hz.
      * destruct l as [|z l]; cbn [insert_sorted].
        -- constructor. apply Hanti; [left; reflexivity|exact Hxy].
        -- destruct (cmp x z <=? 0).
           ++ constructor. apply Hanti; [left; reflexivity|exact Hxy].
           ++ inversion Hhd; subst. constructor. assumption.
Qed.

Lemma stable_sort_sorted : forall l,
  (forall x y, In x l -> In y l -> 0 < cmp x y -> cmp y x <= 0) ->
  Sorted (fun a b => cmp a b <= 0) (stable_sort cmp l).
Proof.
  induction l as [|x l IH]; intros Hanti; cbn [stable_sort]; [constructor|].
  apply insert_sorted_sorted.
  - intros y Hy. apply Hanti; [left; reflexivity|].
    right. apply (Permutation_in _ (Permutation_sym (stable_sort_permutes l))).
    exact Hy.
  - apply IH. intros a b Ha Hb. apply Hanti; right; assumption.
Qed.

Lemma stable_sort_idempotent l :
  consistent cmp l = true ->
  stable_sort cmp (stable_sort cmp l) = stable_sort cmp l.
Proof.
  intros H. apply stable_sort_fixed, stable_sort_sorted.
  intros x y Hx Hy. apply (consistent_antisym l); assumption.
Qed.

End Sorting.

Lemma stable_sort_rearranges {A} : rearranges (@stable_sort A).
Proof. intros cmp l. apply stable_sort_permutes. Qed.

Lemma stable_sort_stable {A} : stable_when_consistent (@stable_sort A).
Proof. intros cmp l _. reflexivity. Qed.

(** Sorting what has been sorted changes nothing, when the comparison is
    consistent. *)
Lemma sort_again {A} (sort : (A -> A -> Z) -> list A -> list A) cmp l :
  rearranges sort -> stable_when_consistent sort ->
  consistent cmp l = true ->
  sort cmp (sort cmp l) = sort cmp l.
Proof.
  intros Hperm Hstable Hcons.
  rewrite (Hstable cmp (sort cmp l)).
  - rewrite (Hstable cmp l Hcons). apply stable_sort_idempotent. exact Hcons.
  - apply (consistent_permutation cmp l); [apply Hperm|exact Hcons].
Qed.

(** The order of strings by code units is a strict total order. *)
Lemma jstring_ltb_irrefl a : jstring_ltb a a = false.
Proof.
  induction a as [|x a IH]; [reflexivity|].
  cbn [jstring_ltb]. rewrite N.ltb_irrefl, N.eqb_refl, IH. reflexivity.
Qed.

Lemma jstring_ltb_trans : forall a b c,
  jstring_ltb a b = true -> jstring_ltb b c = true -> jstring_ltb a c = true.
Proof.
  induction a as [|x a IH]; intros [|y b] [|z c]; cbn [jstring_ltb];
    try discriminate; try reflexivity.
  intros Hab Hbc.
  destruct (N.ltb_spec x y), (N.eqb_spec x y), (N.ltb_spec y z),
           (N.eqb_spec y z), (N.ltb_spec x z), (N.eqb_spec x z);
    cbn [orb andb] in *; try reflexivity; try discriminate; try lia.
  apply (IH b c); assumption.
Qed.

Lemma jstring_ltb_total : forall a b,
  jstring_ltb a b = false -> jstring_ltb b a = false -> a = b.
Proof.
  induction a as [|x a IH]; intros [|y b]; cbn [jstring_ltb];
    try discriminate; try reflexivity.
  intros Hab Hba.
  destruct (N.ltb_spec x y), (N.eqb_spec x y), (N.ltb_spec y x),
           (N.eqb_spec y x);
    cbn [orb andb] in *; try discriminate; try lia.
  subst y. f_equal. apply IH; assumption.
Qed.

(** What the conditions of a consistent comparison ask of three
    elements. *)
Lemma consistent_at_intro {A} (cmp : A -> A -> Z) a b c :
  cmp a a = 0%Z ->
  (cmp a b = 0 -> cmp b a = 0)%Z ->
  (cmp a b = 0 -> cmp b c = 0 -> cmp a c = 0)%Z ->
  (cmp a b < 0 -> cmp b c < 0 -> cmp a c < 0)%Z ->
  (0 < cmp a b -> 0 < cmp b c -> 0 < cmp a c)%Z ->
  consistent_at cmp a b c = true.
Proof.
  intros H1 H2 H3 H4 H5. unfold consistent_at.
  destruct (Z.eqb_spec (cmp a a) 0); [|contradiction].
  destruct (Z.eqb_spec (cmp a b) 0), (Z.eqb_spec (cmp b a) 0),
           (Z.eqb_spec (cmp b c) 0), (Z.eqb_spec (cmp a c) 0),
           (Z.ltb_spec (cmp a b) 0), (Z.ltb_spec (cmp b c) 0),
           (Z.ltb_spec (cmp a c) 0), (Z.ltb_spec 0 (cmp a b)),
           (Z.ltb_spec 0 (cmp b c)), (Z.ltb_spec 0 (cmp a c));
    cbn [negb andb orb]; try reflexivity; exfalso; lia.
Qed.

End SortFacts.

Module SecurityFacts.
Import JS Runtime Security JSFacts.

(** ** sanitizeInput *)

Lemma sanitize_passes_no_angle s :
  Forall not_angle
    (replace_all data_protocol []
      (replace_all event_handler []
        (replace_all javascript_protocol []
          (replace_all angle_brackets [] s)))).
Proof.
  do 3 apply Forall_replace_all_nil.
  pose proof (replace_all_class_nil
                (fun c => (c =? 60)%N || (c =? 62)%N) s) as H.
  eapply Forall_impl; [|exact H].
  intros c Hc. apply orb_false_elim in Hc. destruct Hc as [H1 H2].
  split; apply N.eqb_neq; assumption.
Qed.

(** The examples of the specification. *)
Example sanitizeInput_script :
  sanitizeInput (P := Whole.platform) (VStr (lit "<script>alert(1)</script>"))
    = lit "scriptalert(1)/script".
Proof. reflexivity. Qed.

Example containsMaliciousContent_javascript :
  containsMaliciousContent (P := Whole.platform)
    (VStr (lit "javascript:doEvil()")) = true.
Proof. vm_compute. reflexivity. Qed.

Example containsMaliciousContent_hello :
  containsMaliciousContent (P := Whole.platform)
    (VStr (lit "hello world")) = false.
Proof. vm_compute. reflexivity. Qed.

(** C6, as the code has it. For a string, [sanitizeInput] deletes the angle
    brackets, then makes one left-to-right pass for each of
    [javascript:], [on\w+=] and [data:], then trims: the result has no
    angle bracket and no surrounding white space, in security.ts and in
    security.js alike. Anything that is not a string is left
    unsanitized: security.ts returns [String(input)], security.js the
    input itself. *)
Theorem C6_sanitizeInput_strings_only
    {P : Platform} (input : value) :
  (forall s, input = VStr s ->
     sanitizeInput input =
       trim (replace_all data_protocol []
              (replace_all event_handler []
                (replace_all javascript_protocol []
                  (replace_all angle_brackets [] s))))
     /\ sanitizeInput_js input = VStr (sanitizeInput input)
     /\ Forall not_angle (sanitizeInput input)
     /\ trim (sanitizeInput input) = sanitizeInput input)
  /\ (is_string input = false ->
        sanitizeInput input = ToString input
        /\ sanitizeInput_js input = input).
Proof.
  split.
  - intros s ->. simpl. split; [reflexivity|]. split; [reflexivity|]. split.
    + apply Forall_trim. apply sanitize_passes_no_angle.
    + apply trim_idempotent.
  - destruct input; simpl; intros H; try (split; reflexivity); discriminate.
Qed.

(** Instances of C6 on the platform of whole numbers. *)
Lemma C6_sanitizeInput_witness :
  (sanitizeInput (P := Whole.platform)
     (VStr (lit "  <a href=javascript:go() onclick=x>data:1</a> "))
     = lit "a href=go() x1/a"
   /\ sanitizeInput_js (P := Whole.platform)
        (VStr (lit "  <a href=javascript:go() onclick=x>data:1</a> "))
      = VStr (lit "a href=go() x1/a")
   /\ Forall not_angle (lit "a href=go() x1/a"))
  /\ sanitizeInput (Whole.number 42) = lit "42"
  /\ sanitizeInput_js (Whole.number 42) = Whole.number 42.
Proof.
  destruct (C6_sanitizeInput_strings_only (P := Whole.platform)
              (VStr (lit "  <a href=javascript:go() onclick=x>data:1</a> ")))
    as [Hs _].
  destruct (Hs _ eq_refl) as (Heq & Hjs & Hangle & _).
  destruct (C6_sanitizeInput_strings_only (Whole.number 42)) as [_ Hn].
  destruct (Hn eq_refl) as [Hts Hsame].
  split; [split; [|split]|split].
  - reflexivity.
  - reflexivity.
  - exact Hangle.
  - exact Hts.
  - exact Hsame.
Defined.

(** C6 as stated fails twice over. An array comes back with brackets,
    handler and padding intact: as its string form from security.ts, as
    the array itself, which is no string at all, from security.js. And in
    a string the single pass for [javascript:] leaves the occurrence that
    the deletion itself puts together. *)
Lemma C6_sanitizeInput_counterexample :
  sanitizeInput (P := Whole.platform) (VArr [VStr (lit " <img onerror=x> ")])
    = lit " <img onerror=x> "
  /\ sanitizeInput_js (P := Whole.platform)
       (VArr [VStr (lit " <img onerror=x> ")])
     = VArr [VStr (lit " <img onerror=x> ")]
  /\ is_string (P := Whole.platform) (VArr [VStr (lit " <img onerror=x> ")])
     = false
  /\ test angle_brackets (lit " <img onerror=x> ") = true
  /\ test event_handler (lit " <img onerror=x> ") = true
  /\ trim (lit " <img onerror=x> ") <> lit " <img onerror=x> "
  /\ sanitizeInput (P := Whole.platform)
       (VStr (lit "javajavascript:script:alert(1)"))
     = lit "javascript:alert(1)"
  /\ sanitizeInput_js (P := Whole.platform)
       (VStr (lit "javajavascript:script:alert(1)"))
     = VStr (lit "javascript:alert(1)")
  /\ test javascript_protocol (lit "javascript:alert(1)") = true.
Proof.
  repeat split; try reflexivity.
  vm_compute. discriminate.
Qed.

(** ** SecureStorage *)

Section Storage.
Context {P : Platform}.
Variable JSON_stringify : value -> option jstring.
Variable JSON_parse : jstring -> option value.
Variable btoa : jstring -> option jstring.
Variable atob : jstring -> option jstring.

Lemma construct_unavailable prefix ls :
  fst (checkAvailability ls) = false ->
  isAvailable (fst (construct prefix ls)) = false.
Proof.
  unfold construct. destruct (checkAvailability ls) as [ok ls'].
  simpl. intros ->. reflexivity.
Qed.

End Storage.

(** C1, as the code has it. On an adapter whose availability probe
    failed, [getItem] returns [null] and [removeItem] and [clear] return
    [false], all without touching the store; [setItem] does not degrade:
    it throws [Error('Storage not available')]. *)
Theorem C1_unavailable_adapter_behaviour
    {P : Platform}
    (JSON_stringify : value -> option jstring)
    (JSON_parse : jstring -> option value)
    (btoa atob : jstring -> option jstring)
    (prefix : jstring) (ls : LocalStorage) :
  fst (checkAvailability ls) = false ->
  let ss := fst (construct prefix ls) in
  let ls' := snd (construct prefix ls) in
  forall (key : jstring) (v : value) (flag : bool),
    setItem JSON_stringify btoa ss key v flag ls'
      = (inl (lit "Storage not available"), ls')
    /\ getItem JSON_parse atob ss key flag ls' = inr VNull
    /\ removeItem ss key ls' = (inr false, ls')
    /\ clear ss ls' = (inr false, ls').
Proof.
  intros Hprobe ss ls' key v flag.
  pose proof (construct_unavailable prefix ls Hprobe) as Hun.
  fold ss in Hun.
  unfold setItem, getItem, removeItem, clear. rewrite Hun. simpl.
  repeat split.
Qed.

(** An instance of C1: a browser that denies access to the store. The
    serialisers are never reached, so any will do. *)
Lemma C1_unavailable_adapter_witness :
  let ss := fst (construct (lit "quickmh_") denied_store) in
  let ls' := snd (construct (lit "quickmh_") denied_store) in
  setItem (P := Whole.platform) failing_codec failing_codec
      ss (lit "entries") (VStr (lit "[]")) false ls'
    = (inl (lit "Storage not available"), ls')
  /\ getItem (P := Whole.platform) failing_codec failing_codec
       ss (lit "entries") false ls' = inr VNull
  /\ removeItem ss (lit "entries") ls' = (inr false, ls')
  /\ clear ss ls' = (inr false, ls').
Proof.
  apply (C1_unavailable_adapter_behaviour (P := Whole.platform)
           failing_codec failing_codec failing_codec failing_codec
           (lit "quickmh_") denied_store eq_refl
           (lit "entries") (VStr (lit "[]")) false).
Defined.

(** C1 as stated fails: storing a string through an adapter built over a
    store that denies access lets an exception escape. *)
Lemma C1_unavailable_adapter_counterexample :
  fst (checkAvailability denied_store) = false
  /\ setItem (P := Whole.platform) failing_codec failing_codec
       (fst (construct (lit "quickmh_") denied_store))
       (lit "entries") (VStr (lit "[]")) false
       (snd (construct (lit "quickmh_") denied_store))
     = (inl (lit "Storage not available"), denied_store).
Proof. split; reflexivity. Qed.

End SecurityFacts.

Module AppFacts.
Import JS Runtime Security App JSFacts SortFacts.

(** A literal is a plain field: by computation. *)
Ltac plain_literal :=
  match goal with
  | |- plain_field ?s =>
      let v := eval vm_compute in s in change (plain_field v)
  end;
  split; [discriminate|];
  split; [repeat (constructor; [repeat split; discriminate|]); constructor
         | split; reflexivity].


Section Application.
Context {P : Platform}.

Lemma validate_entry e :
  Validation.validate entryValidator (get e) =
    let failing :=
      filter (fun fe => nonempty (snd fe))
        [ (lit "id", id_errors e); (lit "date", date_errors e);
          (lit "domainKey", domainKey_errors e);
          (lit "score", score_errors e); (lit "note", note_errors e) ] in
    {| Validation.isValid := negb (nonempty failing);
       Validation.errors := failing |}.
Proof.
  unfold Validation.validate.
  change (map (fun fr => (fst fr,
                 Validation.field_errors (snd fr) (get e (fst fr)))) entryValidator)
    with [ (lit "id", Validation.field_errors
              [Validation.required (lit "Entry ID is required")] (id e));
           (lit "date", Validation.field_errors
              [Validation.required (lit "Date is required");
               Validation.date (lit "Please enter a valid date")] (date e));
           (lit "domainKey", Validation.field_errors
              [Validation.required (lit "Assessment type is required");
               Validation.custom (fun v => Some (hasOwnDomain v))
                 (lit "Invalid assessment type")] (domainKey e));
           (lit "score", Validation.field_errors
              [Validation.required (lit "Score is required");
               Validation.number (lit "Score must be a number")] (score e));
           (lit "note", Validation.field_errors
              [Validation.maxLength_rule 1000
                 (lit "Note must not exceed 1000 characters");
               Validation.custom
                 (fun v => if negb (truthy v) then Some true
                           else Some (negb (containsMaliciousContent v)))
                 (lit "Note contains potentially unsafe content")] (note e)) ].
  unfold Validation.field_errors.
  cbn [flat_map Validation.rule_validate Validation.required Validation.date
       Validation.custom Validation.number Validation.maxLength_rule
       Validation.message].
  unfold id_errors, date_errors, domainKey_errors, score_errors, note_errors,
         note_safe.
  repeat rewrite app_nil_r.
  destruct (negb (truthy (note e)));
    cbn [orb]; destruct (filter _ _); reflexivity.
Qed.

Lemma entry_valid_ok e : entry_valid e = entry_ok e.
Proof.
  unfold entry_valid. rewrite validate_entry. cbn [Validation.isValid].
  unfold entry_ok, id_errors, date_errors, domainKey_errors, score_errors,
         note_errors.
  destruct (Validation.isRequired (id e)); [|reflexivity].
  destruct (Validation.isRequired (date e)); [|reflexivity].
  destruct (Validation.isDate (date e)); [|reflexivity].
  destruct (Validation.isRequired (domainKey e)); [|reflexivity].
  destruct (hasOwnDomain (domainKey e)); [|reflexivity].
  destruct (Validation.isRequired (score e)); [|reflexivity].
  destruct (Validation.isNumber (score e)); [|reflexivity].
  destruct (Validation.maxLength (note e) 1000); [|reflexivity].
  destruct (note_safe (note e)); reflexivity.
Qed.

Lemma validate_entry_ok e :
  entry_ok e = true ->
  Validation.validate entryValidator (get e) =
    {| Validation.isValid := true; Validation.errors := [] |}.
Proof.
  intros H. rewrite validate_entry.
  unfold entry_ok in H. repeat rewrite andb_true_iff in H.
  destruct H as [[[[Hid [Hd1 Hd2]] [Hk1 Hk2]] [Hs1 Hs2]] [Hn1 Hn2]].
  unfold id_errors, date_errors, domainKey_errors, score_errors, note_errors.
  rewrite Hid, Hd1, Hd2, Hk1, Hk2, Hs1, Hs2, Hn1, Hn2. reflexivity.
Qed.

(** A domain key of the catalog is present. *)
Lemma hasOwnDomain_required v :
  hasOwnDomain v = true -> Validation.isRequired v = true.
Proof.
  destruct v as [| |b|n|[|c s]|l|o]; try reflexivity; intros H; discriminate H.
Qed.

(** ** Identifiers *)

Lemma strict_eq_string v s : strict_eq v (VStr s) = true <-> v = VStr s.
Proof.
  destruct v; simpl; split; intros H; try discriminate.
  - apply jstring_eqb_eq in H. congruence.
  - injection H as ->. apply jstring_eqb_refl.
Qed.

Lemma has_id_app key es es' :
  has_id key (es ++ es') = has_id key es || has_id key es'.
Proof. apply existsb_app. Qed.

Lemma has_id_string_false s es :
  has_id (VStr s) es = false -> ~ In (VStr s) (map id es).
Proof.
  unfold has_id. intros H Hin. apply in_map_iff in Hin.
  destruct Hin as [e [He Hin]].
  assert (existsb (fun entry => strict_eq (id entry) (VStr s)) es = true).
  { apply existsb_exists. exists e. split; [exact Hin|].
    apply strict_eq_string. exact He. }
  congruence.
Qed.

Lemma NoDup_map_filter {A B} (g : A -> B) (f : A -> bool) l :
  NoDup (map g l) -> NoDup (map g (filter f l)).
Proof.
  induction l as [|a l IH]; simpl; intros H; [constructor|].
  inversion H as [|? ? Hnotin Hnd]; subst.
  destruct (f a); simpl; [|auto].
  constructor; [|auto].
  intros Hin. apply Hnotin. apply in_map_iff in Hin.
  destruct Hin as [x [Hx Hin]]. apply filter_In in Hin.
  apply in_map_iff. exists x. tauto.
Qed.

(** ** One row of an import *)

Lemma import_row_cases st rowStr :
  import_row st rowStr =
    if row_blank rowStr then st
    else if row_accepted rowStr
            && negb (has_id (id (row_entry rowStr)) (imp_entries st))
         then imported (row_entry rowStr) st
         else skipped st.
Proof.
  unfold import_row, row_blank, row_accepted, row_entry, has_id.
  destruct (trim rowStr); [reflexivity|].
  destruct (parseCSVRow rowStr) as [[[[id0 date0] domainKey0] score0] note0].
  cbn [id].
  destruct (isValidImportRow id0 date0 domainKey0 score0 note0); [|reflexivity].
  destruct (existsb _ (imp_entries st)); cbn [negb andb].
  - rewrite andb_false_r. reflexivity.
  - rewrite andb_true_r. cbn [andb]. reflexivity.
Qed.

(** The id of a row is always a string. *)
Lemma row_entry_id rowStr : exists s, id (row_entry rowStr) = VStr s.
Proof.
  unfold row_entry, parseCSVRow, part.
  destruct (split COMMA rowStr) as [|p ps] eqn:E.
  - destruct (split_nonempty _ _ E).
  - simpl. eexists. reflexivity.
Qed.

Lemma import_row_distinct_ids st rowStr :
  NoDup (map id (imp_entries st)) ->
  NoDup (map id (imp_entries (import_row st rowStr))).
Proof.
  intros Hnd. rewrite import_row_cases.
  destruct (row_blank rowStr); [exact Hnd|].
  destruct (row_accepted rowStr); cbn [andb]; [|exact Hnd].
  destruct (has_id (id (row_entry rowStr)) (imp_entries st)) eqn:Hdup;
    cbn [negb]; [exact Hnd|].
  destruct (row_entry_id rowStr) as [k Hk]. rewrite Hk in Hdup.
  apply has_id_string_false in Hdup.
  cbn [imported imp_entries]. rewrite map_app. cbn [map]. rewrite Hk.
  apply NoDup_app; [exact Hnd | repeat constructor; auto |].
  intros a Ha [<-|[]]. exact (Hdup Ha).
Qed.

(** ** Importing the same text again *)

Lemma import_row_grows st rowStr :
  exists added, imp_entries (import_row st rowStr) = imp_entries st ++ added.
Proof.
  rewrite import_row_cases.
  destruct (row_blank rowStr); [exists []; symmetry; apply app_nil_r|].
  destruct (_ && _).
  - exists [row_entry rowStr]. reflexivity.
  - exists []. symmetry. apply app_nil_r.
Qed.

Lemma fold_import_grows rows : forall st,
  exists added,
    imp_entries (fold_left import_row rows st) = imp_entries st ++ added.
Proof.
  induction rows as [|r rows IH]; intros st; simpl.
  - exists []. symmetry. apply app_nil_r.
  - destruct (IH (import_row st r)) as [a2 H2].
    destruct (import_row_grows st r) as [a1 H1].
    exists (a1 ++ a2). rewrite H2, H1, app_assoc. reflexivity.
Qed.

(** Once a row has been seen, the id of an accepted row is in the
    collection: it was there, or the row put it there. *)
Lemma import_row_covers st rowStr :
  row_blank rowStr = false -> row_accepted rowStr = true ->
  has_id (id (row_entry rowStr)) (imp_entries (import_row st rowStr)) = true.
Proof.
  intros Hb Ha. rewrite import_row_cases, Hb, Ha. cbn [andb].
  destruct (has_id (id (row_entry rowStr)) (imp_entries st)) eqn:E; cbn [negb].
  - exact E.
  - cbn [imported imp_entries]. rewrite has_id_app, E.
    destruct (row_entry_id rowStr) as [k Hk].
    unfold has_id. cbn [existsb orb]. rewrite Hk. cbn [strict_eq].
    rewrite jstring_eqb_refl. reflexivity.
Qed.

Lemma fold_import_covers rows : forall st r,
  In r rows -> row_blank r = false -> row_accepted r = true ->
  has_id (id (row_entry r)) (imp_entries (fold_left import_row rows st)) = true.
Proof.
  induction rows as [|r0 rows IH]; intros st r Hin Hb Ha; [destruct Hin|].
  cbn [fold_left]. destruct Hin as [->|Hin].
  - destruct (fold_import_grows rows (import_row st r)) as [added Hadd].
    rewrite Hadd, has_id_app.
    rewrite (import_row_covers st r Hb Ha). reflexivity.
  - apply IH; assumption.
Qed.

(** Rows whose ids are all in the collection change nothing and are all
    counted as skipped. *)
Lemma fold_import_all_skipped rows : forall st,
  (forall r, In r rows -> row_blank r = false -> row_accepted r = true ->
             has_id (id (row_entry r)) (imp_entries st) = true) ->
  fold_left import_row rows st =
    {| imp_entries := imp_entries st;
       importedCount := importedCount st;
       skippedCount := skippedCount st + count_nonblank rows |}.
Proof.
  induction rows as [|r rows IH]; intros st Hcov.
  - simpl. unfold count_nonblank. simpl. rewrite Nat.add_0_r.
    destruct st; reflexivity.
  - cbn [fold_left]. rewrite import_row_cases.
    unfold count_nonblank in *. cbn [filter].
    destruct (row_blank r) eqn:Hb; cbn [negb].
    + apply IH. intros r' Hin. apply Hcov. right. exact Hin.
    + assert (Hskip : row_accepted r
                      && negb (has_id (id (row_entry r)) (imp_entries st)) = false).
      { destruct (row_accepted r) eqn:Ha; [|reflexivity].
        rewrite (Hcov r (or_introl eq_refl) Hb Ha). reflexivity. }
      rewrite Hskip, IH.
      * cbn [skipped imp_entries importedCount skippedCount length].
        f_equal. lia.
      * intros r' Hin. cbn [skipped imp_entries]. apply Hcov. right. exact Hin.
Qed.

(** ** Export *)

Lemma join_cons sep x rows :
  join sep (x :: rows) = x ++ flat_map (fun r => sep ++ r) rows.
Proof.
  revert x. induction rows as [|r rows IH]; intros x.
  - simpl. symmetry. apply app_nil_r.
  - change (join sep (x :: r :: rows)) with (x ++ sep ++ join sep (r :: rows)).
    rewrite IH. cbn [flat_map]. rewrite <- app_assoc. reflexivity.
Qed.

Lemma entry_valid_note e :
  entry_valid e = true -> exists s, note e = VStr s.
Proof.
  rewrite entry_valid_ok. unfold entry_ok. intros H.
  repeat rewrite andb_true_iff in H.
  destruct H as [_ [H _]]. destruct (note e); try discriminate.
  eexists. reflexivity.
Qed.

Lemma escapeCSV_string s : escapeCSV (or_empty (VStr s)) = Some (quoted s).
Proof.
  unfold escapeCSV, quoted, chr.
  destruct s as [|c s]; [reflexivity|].
  cbn [or_empty truthy]. rewrite replace_all_class.
  rewrite (flat_map_ext _
             (fun c => if (c =? DQUOTE)%N then [DQUOTE; DQUOTE] else [c])).
  - reflexivity.
  - intros a. rewrite N.eqb_sym. reflexivity.
Qed.

Lemma csv_row_valid e :
  entry_valid e = true -> csv_row e = Some (row_text e).
Proof.
  intros H. destruct (entry_valid_note e H) as [s Hs].
  unfold csv_row, row_text, note_text. rewrite Hs, escapeCSV_string.
  reflexivity.
Qed.

Lemma csv_rows_valid es :
  Forall (fun e => entry_valid e = true) es ->
  csv_rows es = Some (map row_text es).
Proof.
  induction 1 as [|e es He _ IH]; [reflexivity|].
  cbn [csv_rows map]. rewrite (csv_row_valid e He), IH. reflexivity.
Qed.

Lemma Forall_filter_valid (es : list LogEntry) :
  Forall (fun e => entry_valid e = true) (filter entry_valid es).
Proof. apply Forall_forall. intros e He. apply filter_In in He. tauto. Qed.

Lemma filter_all_valid (es : list LogEntry) :
  Forall (fun e => entry_valid e = true) es -> filter entry_valid es = es.
Proof.
  induction 1 as [|e es He _ IH]; [reflexivity|].
  simpl. rewrite He, IH. reflexivity.
Qed.

Lemma exportToCSV_text app :
  entries app <> [] ->
  exportToCSV app =
    Some (BOM :: header
              ++ flat_map (fun e => LF :: row_text e)
                   (filter entry_valid (entries app))).
Proof.
  intros Hne. unfold exportToCSV.
  destruct (entries app) as [|e0 es] eqn:E; [contradiction|].
  rewrite csv_rows_valid by apply Forall_filter_valid.
  rewrite join_cons, flat_map_concat_map, map_map, <- flat_map_concat_map.
  reflexivity.
Qed.

(** ** Round trip *)

Lemma plain_not_in s c :
  plain_field s -> c = COMMA \/ c = LF -> ~ In c s.
Proof.
  intros (_ & Hall & _) Hc Hin.
  rewrite Forall_forall in Hall. destruct (Hall c Hin) as (H1 & H2 & _).
  destruct Hc; contradiction.
Qed.

Lemma plain_sanitized s :
  plain_field s ->
  trim (replace_all (Chr (fun c => (c =? 13)%N || (c =? 10)%N || (c =? 9)%N))
          (lit " ") s) = s.
Proof.
  intros (_ & Hall & Hs & He).
  rewrite replace_all_class_none; [apply trim_id; assumption|].
  eapply Forall_impl; [|exact Hall].
  intros c (_ & H2 & H3 & H4).
  destruct (N.eqb_spec c 13); [contradiction|].
  destruct (N.eqb_spec c 10); [contradiction|].
  destruct (N.eqb_spec c 9); [contradiction|]. reflexivity.
Qed.

Lemma sanitizeCSVValue_plain s :
  plain_field s -> sanitizeCSVValue (VStr s) = s.
Proof. intros H. unfold sanitizeCSVValue. cbn [ToString]. apply plain_sanitized, H. Qed.

Lemma sanitizeCSVValue_number n :
  plain_field (Number_toString n) ->
  sanitizeCSVValue (VNum n) = Number_toString n.
Proof. intros H. unfold sanitizeCSVValue. cbn [ToString]. apply plain_sanitized, H. Qed.

Lemma quoted_doubled t : quoted t = DQUOTE :: doubled t ++ [DQUOTE].
Proof. reflexivity. Qed.

Lemma strip_outer_quoted t : strip_outer_quotes (quoted t) = doubled t.
Proof.
  rewrite quoted_doubled. unfold strip_outer_quotes.
  rewrite N.eqb_refl, rev_app_distr. cbn [rev app].
  rewrite N.eqb_refl. apply rev_involutive.
Qed.

Lemma undouble_doubled t :
  replace_all (Seq (chr DQUOTE) (chr DQUOTE)) [DQUOTE] (doubled t) = t.
Proof.
  unfold replace_all, doubled. induction t as [|c t IH]; [reflexivity|].
  cbn [flat_map]. destruct (N.eqb_spec c DQUOTE) as [->|Hc].
  - cbn [app]. cbn [replace_from].
    assert (Hhit : forall rest,
              match_length (Seq (chr DQUOTE) (chr DQUOTE))
                (DQUOTE :: DQUOTE :: rest) = Some 2%nat).
    { intros rest. unfold match_length, chr. cbn [rmatch].
      rewrite N.eqb_refl. f_equal. cbn [length]. lia. }
    rewrite Hhit. cbn [app]. f_equal. exact IH.
  - cbn [app]. cbn [replace_from].
    assert (Hmiss : forall rest,
              match_length (Seq (chr DQUOTE) (chr DQUOTE)) (c :: rest) = None).
    { intros rest. unfold match_length, chr. cbn [rmatch].
      destruct (N.eqb_spec DQUOTE c); [congruence|reflexivity]. }
    rewrite Hmiss. f_equal. exact IH.
Qed.

Lemma unquote_quoted t : unquote_note (VStr (quoted t)) = VStr t.
Proof.
  unfold unquote_note. rewrite quoted_doubled.
  rewrite <- quoted_doubled, strip_outer_quoted, undouble_doubled.
  reflexivity.
Qed.

Lemma quoted_clean t : clean_start (quoted t) /\ clean_end (quoted t).
Proof.
  rewrite quoted_doubled. split; [reflexivity|].
  unfold clean_end. cbn [rev]. rewrite rev_app_distr. reflexivity.
Qed.

Lemma quoted_no_LF t : ~ In LF t -> ~ In LF (quoted t).
Proof.
  intros Ht. rewrite quoted_doubled. intros [H|H]; [discriminate|].
  apply in_app_or in H. destruct H as [H|[H|[]]]; [|discriminate].
  unfold doubled in H. apply in_flat_map in H. destruct H as [c [Hc H]].
  destruct (N.eqb_spec c DQUOTE).
  - destruct H as [H|[H|[]]]; discriminate.
  - destruct H as [->|[]]. exact (Ht Hc).
Qed.

Lemma parseCSVRow_plain i d k sc t :
  plain_field i -> plain_field d -> plain_field k -> plain_field sc ->
  parseCSVRow (plain_row i d k sc t) =
    (VStr i, VStr d, VStr k, VStr sc, VStr (quoted t)).
Proof.
  intros Hi Hd Hk Hs. unfold parseCSVRow, plain_row.
  rewrite !split_app_sep by (apply plain_not_in; auto).
  unfold part. cbn [nth_error skipn].
  rewrite join_split.
  destruct Hi as (_ & _ & ? & ?), Hd as (_ & _ & ? & ?),
           Hk as (_ & _ & ? & ?), Hs as (_ & _ & ? & ?).
  destruct (quoted_clean t).
  rewrite !trim_id by assumption. reflexivity.
Qed.

Lemma plain_row_no_LF i d k sc t :
  plain_field i -> plain_field d -> plain_field k -> plain_field sc ->
  ~ In LF t -> ~ In LF (plain_row i d k sc t).
Proof.
  intros Hi Hd Hk Hs Ht. unfold plain_row.
  repeat (rewrite in_app_iff; cbn [In]).
  pose proof (plain_not_in _ LF Hi (or_intror eq_refl)).
  pose proof (plain_not_in _ LF Hd (or_intror eq_refl)).
  pose proof (plain_not_in _ LF Hk (or_intror eq_refl)).
  pose proof (plain_not_in _ LF Hs (or_intror eq_refl)).
  pose proof (quoted_no_LF t Ht).
  assert (COMMA <> LF) by discriminate.
  tauto.
Qed.

Lemma plain_row_not_blank i d k sc t : row_blank (plain_row i d k sc t) = false.
Proof.
  unfold row_blank.
  destruct (trim (plain_row i d k sc t)) eqn:E; [|reflexivity].
  exfalso. revert E. apply (trim_nonblank DQUOTE); [|reflexivity].
  unfold plain_row. repeat (apply in_or_app; right; right).
  left. reflexivity.
Qed.

(** The keys of the catalog are plain. *)
Lemma catalog_key_plain k : hasOwnDomain (VStr k) = true -> plain_field k.
Proof.
  unfold hasOwnDomain, own_property, domains_en. cbn [ToString assoc_get].
  repeat match goal with
         | |- context [jstring_eqb ?key k] =>
             let E := fresh "E" in
             destruct (jstring_eqb key k) eqn:E;
             [apply jstring_eqb_eq in E; subst k; intros _; plain_literal|]
         end.
  discriminate.
Qed.

Lemma truthy_nonempty s : s <> [] -> truthy (VStr s) = true.
Proof. destruct s; [contradiction|reflexivity]. Qed.

(** What an import makes of the exported row of a valid, portable
    entry: the entry itself. *)
Lemma portable_row e :
  entry_valid e = true -> portable e ->
  row_blank (row_text e) = false
  /\ row_accepted (row_text e) = true
  /\ row_entry (row_text e) = e
  /\ ~ In LF (row_text e)
  /\ exists i, id e = VStr i.
Proof.
  intros Hvalid (i & d & k & n & t & -> & Hi & Hd & Hsc & Hback & Ht).
  pose proof Hvalid as Hok. rewrite entry_valid_ok in Hok.
  unfold entry_ok in Hok. cbn [id date domainKey score note] in Hok.
  repeat rewrite andb_true_iff in Hok.
  destruct Hok as [[[[_ _] [_ Hdom]] [_ Hnum]] _].
  pose proof (catalog_key_plain k Hdom) as Hk.
  assert (HnotNaN : num_isNaN n = false).
  { unfold Validation.isNumber in Hnum. apply andb_true_iff in Hnum.
    destruct Hnum as [Hnum _]. apply negb_true_iff in Hnum. exact Hnum. }
  set (sc := Number_toString n) in *.
  assert (Hrow : row_text {| id := VStr i; date := VStr d; domainKey := VStr k;
                             score := VNum n; note := VStr t |}
                 = plain_row i d k sc t).
  { unfold row_text, note_text. cbn [id date domainKey score note].
    rewrite !sanitizeCSVValue_plain by assumption.
    rewrite sanitizeCSVValue_number by assumption. reflexivity. }
  assert (Hentry : row_entry (plain_row i d k sc t) =
                   {| id := VStr i; date := VStr d; domainKey := VStr k;
                      score := VNum n; note := VStr t |}).
  { unfold row_entry. rewrite parseCSVRow_plain by assumption.
    cbn [ToNumber]. rewrite Hback, unquote_quoted.
    reflexivity. }
  rewrite Hrow. split; [apply plain_row_not_blank|].
  split; [|split; [exact Hentry|split; [apply plain_row_no_LF; assumption|]]].
  - unfold row_accepted. rewrite parseCSVRow_plain by assumption.
    rewrite Hentry, Hvalid, andb_true_r.
    unfold isValidImportRow.
    destruct Hi as (Hi & _), Hd as (Hd & _), Hk as (Hk & _), Hsc as (Hs & _).
    rewrite !truthy_nonempty by assumption.
    unfold known_domain, domain_lookup. cbn [ToString].
    unfold hasOwnDomain in Hdom. cbn [ToString] in Hdom.
    destruct (own_property k domains_en); [|discriminate].
    unfold isNaN. cbn [ToNumber]. rewrite Hback, HnotNaN.
    reflexivity.
  - exists i. reflexivity.
Qed.

Lemma has_id_not_in s es :
  ~ In (VStr s) (map id es) -> has_id (VStr s) es = false.
Proof.
  induction es as [|e es IH]; intros Hnot; [reflexivity|].
  unfold has_id in *. cbn [existsb].
  rewrite IH by (intros H; apply Hnot; right; exact H).
  destruct (strict_eq (id e) (VStr s)) eqn:E; [|reflexivity].
  apply strict_eq_string in E. destruct Hnot. left. exact E.
Qed.

(** Importing the exported rows of valid, portable entries with distinct
    ids appends exactly those entries. *)
Lemma fold_import_portable es : forall acc n_imported n_skipped,
  NoDup (map id (acc ++ es)) ->
  Forall (fun e => entry_valid e = true) es ->
  Forall portable es ->
  fold_left import_row (map row_text es)
    {| imp_entries := acc; importedCount := n_imported;
       skippedCount := n_skipped |}
  = {| imp_entries := acc ++ es;
       importedCount := n_imported + length es;
       skippedCount := n_skipped |}.
Proof.
  induction es as [|e es IH]; intros acc n_imported n_skipped Hnd Hvalid Hport.
  - simpl. rewrite app_nil_r, Nat.add_0_r. reflexivity.
  - inversion Hvalid as [|? ? He Hvalid']; subst.
    inversion Hport as [|? ? Hp Hport']; subst.
    destruct (portable_row e He Hp) as (Hb & Ha & Hentry & _ & i & Hid).
    cbn [map fold_left]. rewrite import_row_cases, Hb, Ha, Hentry, Hid.
    cbn [imp_entries andb].
    rewrite has_id_not_in.
    + cbn [negb]. unfold imported. cbn [imp_entries importedCount skippedCount].
      rewrite IH; [|rewrite <- app_assoc; exact Hnd|assumption|assumption].
      rewrite <- app_assoc. cbn [length app]. f_equal. lia.
    + rewrite map_app in Hnd. cbn [map] in Hnd.
      apply NoDup_remove_2 in Hnd. rewrite <- Hid.
      intros Hin. apply Hnd. apply in_or_app. left. exact Hin.
Qed.

Lemma header_line_no_LF : ~ In LF (BOM :: header).
Proof.
  assert (H : Forall (fun c => c <> LF) (BOM :: header)).
  { let v := eval vm_compute in (BOM :: header) in change (BOM :: header) with v.
    repeat (constructor; [discriminate|]). constructor. }
  intros Hin. rewrite Forall_forall in H. exact (H _ Hin eq_refl).
Qed.

End Application.

Section Sorting.
Context {P : Platform}.
Variable Array_sort : (LogEntry -> LogEntry -> Z) -> list LogEntry -> list LogEntry.
Variable toLowerCase : jstring -> jstring.

Lemma has_id_permutation key es es' :
  Permutation es es' -> has_id key es = has_id key es'.
Proof.
  unfold has_id.
  induction 1 as [|x l l' _ IH|x y l|l l' l'' _ IH1 _ IH2]; cbn [existsb].
  - reflexivity.
  - rewrite IH. reflexivity.
  - rewrite !orb_assoc, (orb_comm (strict_eq (id y) key)). reflexivity.
  - congruence.
Qed.

(** ** The sorting that comes with the drawing of the table *)

Lemma renderHistoryTable_entries app :
  entries (renderHistoryTable Array_sort app)
  = Array_sort (compare_entries (currentSort app)) (entries app).
Proof. reflexivity. Qed.

Lemma renderHistoryTable_permutes app :
  rearranges Array_sort ->
  Permutation (entries app) (entries (renderHistoryTable Array_sort app)).
Proof. intros H. rewrite renderHistoryTable_entries. apply H. Qed.

Lemma renderHistoryTable_distinct_ids app :
  rearranges Array_sort ->
  NoDup (map id (entries app)) ->
  NoDup (map id (entries (renderHistoryTable Array_sort app))).
Proof.
  intros Hperm. apply Permutation_NoDup, Permutation_map.
  apply renderHistoryTable_permutes, Hperm.
Qed.

(** Deleting keeps the ids distinct. *)
Lemma deleteEntry_distinct_ids key app :
  rearranges Array_sort ->
  NoDup (map id (entries app)) ->
  NoDup (map id (entries (snd (deleteEntry Array_sort key app)))).
Proof.
  intros Hperm Hnd. unfold deleteEntry.
  destruct (negb (truthy key)); [exact Hnd|].
  destruct (_ <? _)%nat; cbn [snd].
  - apply renderHistoryTable_distinct_ids; [exact Hperm|].
    cbn [entries with_entries]. apply NoDup_map_filter, Hnd.
  - cbn [entries with_entries]. apply NoDup_map_filter, Hnd.
Qed.

(** Adding keeps them distinct only if the new id is not there yet:
    [addEntry] itself does not look. *)
Lemma addEntry_distinct_ids_if_fresh e app :
  rearranges Array_sort ->
  NoDup (map id (entries app)) ->
  ~ In (id e) (map id (entries app)) ->
  NoDup (map id (entries (snd (addEntry Array_sort e app)))).
Proof.
  intros Hperm Hnd Hfresh.
  assert (Hpush : NoDup (map id (entries
            (renderHistoryTable Array_sort
               (with_entries app (entries app ++ [e])))))).
  { apply renderHistoryTable_distinct_ids; [exact Hperm|].
    cbn [entries with_entries].
    rewrite map_app. cbn [map]. apply NoDup_app; [exact Hnd | repeat constructor; auto |].
    intros a Ha [<-|[]]. exact (Hfresh Ha). }
  unfold addEntry.
  destruct (negb (Validation.isValid (Validation.validate entryValidator (get e))));
    [exact Hnd|].
  destruct (match translations_domains (currentLanguage app) with
            | Some domains => domain_lookup domains (ToString (domainKey e))
            | None => None
            end) as [range|]; [|exact Hpush].
  destruct (negb (validateScoreRange (score e) range)); [exact Hnd|exact Hpush].
Qed.

Lemma fold_import_distinct_ids rows : forall st,
  NoDup (map id (imp_entries st)) ->
  NoDup (map id (imp_entries (fold_left import_row rows st))).
Proof.
  induction rows as [|r rows IH]; intros st H; simpl; [exact H|].
  apply IH, import_row_distinct_ids, H.
Qed.

(** ** The guards of the import *)

(** What [importFromCSV] does once the rows have been gone through. *)
Lemma import_text_cases text app :
  import_text Array_sort text app =
    match trim text with
    | [] => None
    | _ =>
        let st := fold_left import_row (import_rows text)
                    {| imp_entries := entries app;
                       importedCount := 0;
                       skippedCount := 0 |} in
        Some {| imp_entries :=
                  Array_sort (compare_entries (currentSort app)) (imp_entries st);
                importedCount := importedCount st;
                skippedCount := skippedCount st |}
    end.
Proof. reflexivity. Qed.

(** A file that passes the guards is imported as its text is. *)
Lemma importFromCSV_accepted f text app :
  endsWith (lit ".csv") (toLowerCase (file_name f)) = true ->
  (file_size f <= maxFileSize)%Z ->
  file_text f = Some text ->
  importFromCSV Array_sort toLowerCase (Some f) app
  = import_text Array_sort text app.
Proof.
  intros Hname Hsize Htext. unfold importFromCSV.
  rewrite Hname, Htext. cbn [negb].
  destruct (Z.ltb_spec maxFileSize (file_size f)); [lia|reflexivity].
Qed.

(** An import that does something had a file that passed the guards. *)
Lemma importFromCSV_done file app st :
  importFromCSV Array_sort toLowerCase file app = Some st ->
  exists f text,
    file = Some f
    /\ endsWith (lit ".csv") (toLowerCase (file_name f)) = true
    /\ (file_size f <= maxFileSize)%Z
    /\ file_text f = Some text
    /\ import_text Array_sort text app = Some st.
Proof.
  unfold importFromCSV. destruct file as [f|]; [|discriminate].
  destruct (endsWith (lit ".csv") (toLowerCase (file_name f))) eqn:Hname;
    cbn [negb]; [|discriminate].
  destruct (Z.ltb_spec maxFileSize (file_size f)) as [|Hsize]; [discriminate|].
  destruct (file_text f) as [text|] eqn:Htext; [|discriminate].
  intros Hst. exists f, text.
  split; [reflexivity|]. split; [exact Hname|]. split; [exact Hsize|].
  split; [exact Htext|exact Hst].
Qed.

(** Importing keeps the ids distinct. *)
Lemma import_text_distinct_ids text app st :
  rearranges Array_sort ->
  NoDup (map id (entries app)) ->
  import_text Array_sort text app = Some st ->
  NoDup (map id (imp_entries st)).
Proof.
  intros Hperm Hnd. rewrite import_text_cases.
  destruct (trim text); [discriminate|]. intros [= <-].
  cbn [imp_entries].
  apply (Permutation_NoDup (Permutation_map id (Hperm _ _))).
  apply fold_import_distinct_ids. exact Hnd.
Qed.

Lemma importFromCSV_distinct_ids file app st :
  rearranges Array_sort ->
  NoDup (map id (entries app)) ->
  importFromCSV Array_sort toLowerCase file app = Some st ->
  NoDup (map id (imp_entries st)).
Proof.
  intros Hperm Hnd H.
  destruct (importFromCSV_done _ _ _ H) as (f & text & _ & _ & _ & _ & Ht).
  exact (import_text_distinct_ids text app st Hperm Hnd Ht).
Qed.

End Sorting.

Section Comparison.
Context {P : Platform}.

(** On entries whose sort column holds strings, the comparison of
    [sortEntries] is the order of those strings, or its reverse. *)
Lemma compare_entries_strings sort a b x y :
  get a (sort_column sort) = VStr x ->
  get b (sort_column sort) = VStr y ->
  let c := compare_entries sort a b in
  (c = 0 <-> x = y)%Z
  /\ match sort_direction sort with
     | Asc => (c < 0 <-> jstring_ltb x y = true)%Z
              /\ (0 < c <-> jstring_ltb y x = true)%Z
     | Desc => (c < 0 <-> jstring_ltb y x = true)%Z
               /\ (0 < c <-> jstring_ltb x y = true)%Z
     end.
Proof.
  intros Ha Hb. unfold compare_entries. rewrite Ha, Hb.
  cbn [less_than ToPrimitive].
  destruct (jstring_ltb y x) eqn:Eyx.
  - assert (Exy : jstring_ltb x y = false).
    { destruct (jstring_ltb x y) eqn:E; [|reflexivity].
      rewrite <- (jstring_ltb_irrefl x). symmetry.
      exact (jstring_ltb_trans _ _ _ E Eyx). }
    assert (x <> y).
    { intros ->. rewrite jstring_ltb_irrefl in Eyx. discriminate. }
    rewrite Exy. destruct (sort_direction sort); cbn zeta;
      repeat split; intros; try lia; try congruence; try discriminate.
  - destruct (jstring_ltb x y) eqn:Exy.
    + assert (x <> y).
      { intros ->. rewrite jstring_ltb_irrefl in Exy. discriminate. }
      destruct (sort_direction sort); cbn zeta;
        repeat split; intros; try lia; try congruence; try discriminate.
    + pose proof (jstring_ltb_total _ _ Exy Eyx).
      destruct (sort_direction sort); cbn zeta;
        repeat split; intros; try lia; try congruence; try discriminate.
Qed.

Lemma compare_entries_consistent sort (l : list LogEntry) :
  Forall (fun e => is_string (get e (sort_column sort)) = true) l ->
  consistent (compare_entries sort) l = true.
Proof.
  intros Hall. rewrite Forall_forall in Hall.
  assert (Hstr : forall e, In e l -> exists s, get e (sort_column sort) = VStr s).
  { intros e He. specialize (Hall e He).
    destruct (get e (sort_column sort)); try discriminate. eexists. reflexivity. }
  unfold consistent.
  apply forallb_forall. intros a Ha.
  apply forallb_forall. intros b Hb.
  apply forallb_forall. intros c Hc.
  destruct (Hstr a Ha) as [x Hx], (Hstr b Hb) as [y Hy], (Hstr c Hc) as [z Hz].
  pose proof (compare_entries_strings sort a a x x Hx Hx) as Haa.
  pose proof (compare_entries_strings sort a b x y Hx Hy) as Hab.
  pose proof (compare_entries_strings sort b a y x Hy Hx) as Hba.
  pose proof (compare_entries_strings sort b c y z Hy Hz) as Hbc.
  pose proof (compare_entries_strings sort a c x z Hx Hz) as Hac.
  cbn zeta in *.
  destruct Haa as [Haa _], Hab as [Hab Hab'], Hba as [Hba _],
           Hbc as [Hbc Hbc'], Hac as [Hac Hac'].
  apply consistent_at_intro.
  - apply Haa. reflexivity.
  - intros H. apply Hba. symmetry. apply Hab, H.
  - intros H1 H2. apply Hac. transitivity y; [apply Hab, H1|apply Hbc, H2].
  - destruct (sort_direction sort);
      destruct Hab' as [Hab' _], Hbc' as [Hbc' _], Hac' as [Hac' _];
      intros H1 H2; apply Hac'; apply Hab' in H1; apply Hbc' in H2.
    + exact (jstring_ltb_trans _ _ _ H1 H2).
    + exact (jstring_ltb_trans _ _ _ H2 H1).
  - destruct (sort_direction sort);
      destruct Hab' as [_ Hab'], Hbc' as [_ Hbc'], Hac' as [_ Hac'];
      intros H1 H2; apply Hac'; apply Hab' in H1; apply Hbc' in H2.
    + exact (jstring_ltb_trans _ _ _ H2 H1).
    + exact (jstring_ltb_trans _ _ _ H1 H2).
Qed.

End Comparison.

(** The repository's unit tests of the CSV helpers hold of the
    embedding. *)
Example escapeCSV_simple_text :
  escapeCSV (P := Whole.platform) (VStr (lit "simple text"))
    = Some ([DQUOTE] ++ lit "simple text" ++ [DQUOTE]).
Proof. vm_compute. reflexivity. Qed.

Example escapeCSV_with_quotes :
  escapeCSV (P := Whole.platform)
    (VStr (lit "text with " ++ [DQUOTE] ++ lit "quotes" ++ [DQUOTE]))
    = Some ([DQUOTE] ++ lit "text with " ++ [DQUOTE; DQUOTE] ++ lit "quotes"
            ++ [DQUOTE; DQUOTE; DQUOTE]).
Proof. vm_compute. reflexivity. Qed.

Example parseCSVRow_test_row :
  parseCSVRow (P := Whole.platform) Samples.test_row =
    (VStr (lit "1234567890"), VStr (lit "2023-12-01"), VStr (lit "phq-9"),
     VStr (lit "15"),
     VStr ([DQUOTE] ++ lit "Test note with, comma" ++ [DQUOTE])).
Proof. reflexivity. Qed.

Example isValidImportRow_tests :
  isValidImportRow (P := Whole.platform)
    (VStr (lit "123")) (VStr (lit "2023-12-01")) (VStr (lit "phq-9"))
    (VStr (lit "15")) (VStr (lit "note")) = true
  /\ isValidImportRow (P := Whole.platform)
       (VStr []) (VStr (lit "2023-12-01")) (VStr (lit "phq-9"))
       (VStr (lit "15")) (VStr (lit "note")) = false
  /\ isValidImportRow (P := Whole.platform)
       (VStr (lit "123")) (VStr (lit "2023-12-01")) (VStr (lit "invalid-domain"))
       (VStr (lit "15")) (VStr (lit "note")) = false
  /\ isValidImportRow (P := Whole.platform)
       (VStr (lit "123")) (VStr (lit "2023-12-01")) (VStr (lit "phq-9"))
       (VStr (lit "not-number")) (VStr (lit "note")) = false.
Proof. repeat split; vm_compute; reflexivity. Qed.

(** C3, as the code has it. A record is accepted, with an empty errors
    map, when its id is present, its date is present and well-formed, its
    domainKey is a member of the catalog, its score is present and
    numeric, and its note is a string of at most 1000 characters that is
    empty or passes the malicious-content screening. *)
Theorem C3_validate_accepts_complete_records
    {P : Platform} (r : LogEntry) :
  Validation.isRequired (id r) = true ->
  Validation.isRequired (date r) = true ->
  Validation.isDate (date r) = true ->
  hasOwnDomain (domainKey r) = true ->
  Validation.isRequired (score r) = true ->
  Validation.isNumber (score r) = true ->
  Validation.maxLength (note r) 1000 = true ->
  truthy (note r) = false \/ containsMaliciousContent (note r) = false ->
  Validation.validate entryValidator (get r) =
    {| Validation.isValid := true; Validation.errors := [] |}.
Proof.
  intros Hid Hd1 Hd2 Hk Hs1 Hs2 Hn1 Hn2.
  apply validate_entry_ok. unfold entry_ok, note_safe.
  rewrite Hid, Hd1, Hd2, Hk, Hs1, Hs2, Hn1, (hasOwnDomain_required _ Hk).
  destruct Hn2 as [-> | ->]; simpl; [reflexivity|].
  apply orb_true_r.
Qed.

(** An instance of C3: the example row of the specification. *)
Lemma C3_validate_witness :
  Validation.validate entryValidator (get Samples.tired) =
    {| Validation.isValid := true; Validation.errors := [] |}.
Proof.
  apply (C3_validate_accepts_complete_records Samples.tired);
    try reflexivity.
  right. reflexivity.
Defined.

(** C3 as stated fails: with the domain in the catalog, a well-formed
    date, a numeric score and a short note, a record without an id is
    rejected, and so is one whose note the screening flags. *)
Lemma C3_validate_counterexample :
  (hasOwnDomain (domainKey Samples.without_id) = true
   /\ Validation.isDate (date Samples.without_id) = true
   /\ Validation.isNumber (score Samples.without_id) = true
   /\ Validation.maxLength (note Samples.without_id) 1000 = true
   /\ Validation.validate entryValidator (get Samples.without_id) =
        {| Validation.isValid := false;
           Validation.errors := [(lit "id", [lit "Entry ID is required"])] |})
  /\
  (hasOwnDomain (domainKey Samples.unsafe_note) = true
   /\ Validation.isDate (date Samples.unsafe_note) = true
   /\ Validation.isNumber (score Samples.unsafe_note) = true
   /\ Validation.maxLength (note Samples.unsafe_note) 1000 = true
   /\ Validation.validate entryValidator (get Samples.unsafe_note) =
        {| Validation.isValid := false;
           Validation.errors :=
             [(lit "note", [lit "Note contains potentially unsafe content"])] |}).
Proof. repeat split; vm_compute; reflexivity. Qed.

(** C4, as the code has it. Importing a file a second time, into the
    collection the first import left, adds nothing: [importedCount = 0]
    and [skippedCount] is the number of non-blank lines among the rows
    the import looks at (the first 10000 lines after the header). Each of
    those rows is skipped because its id is already in the collection or
    because the row is not accepted (it is malformed or its entry fails
    validation). The collection holds the same entries afterwards, sorted
    once more by the current sort; it is the same list when the
    comparison of the current sort is a consistent one on these entries,
    sorting being stable; and consistent it is when the column sorted by
    holds strings, as the date does ([compare_entries_consistent]). Of
    [sort] this takes that it rearranges. *)
Theorem C4_second_import_adds_nothing
    {P : Platform}
    (Array_sort : (LogEntry -> LogEntry -> Z) -> list LogEntry -> list LogEntry)
    (toLowerCase : jstring -> jstring)
    (f : File) (text : jstring) (app : AppState) (first : ImportState) :
  rearranges Array_sort ->
  file_text f = Some text ->
  importFromCSV Array_sort toLowerCase (Some f) app = Some first ->
  importFromCSV Array_sort toLowerCase (Some f)
      (with_entries app (imp_entries first)) =
    Some {| imp_entries :=
              Array_sort (compare_entries (currentSort app)) (imp_entries first);
            importedCount := 0;
            skippedCount := count_nonblank (import_rows text) |}
  /\ Permutation (imp_entries first)
       (Array_sort (compare_entries (currentSort app)) (imp_entries first))
  /\ (stable_when_consistent Array_sort ->
      consistent (compare_entries (currentSort app)) (imp_entries first) = true ->
      Array_sort (compare_entries (currentSort app)) (imp_entries first)
      = imp_entries first)
  /\ (forall r, In r (import_rows text) -> row_blank r = false ->
        has_id (id (row_entry r)) (imp_entries first) = true
        \/ row_accepted r = false).
Proof.
  intros Hperm Htext H.
  destruct (importFromCSV_done _ _ _ _ _ H)
    as (f' & text' & [= <-] & Hname & Hsize & Htext' & Hfirst).
  rewrite Htext in Htext'. injection Htext' as <-.
  rewrite (importFromCSV_accepted _ _ f text _ Hname Hsize Htext).
  rewrite import_text_cases in Hfirst |- *.
  destruct (trim text); [discriminate|]. injection Hfirst as <-.
  set (st0 := {| imp_entries := entries app; importedCount := 0; skippedCount := 0 |}).
  set (cmp := compare_entries (currentSort app)).
  set (collected := imp_entries (fold_left import_row (import_rows text) st0)).
  cbn [imp_entries with_entries entries currentSort].
  assert (Hcov : forall r, In r (import_rows text) -> row_blank r = false ->
            row_accepted r = true ->
            has_id (id (row_entry r)) (Array_sort cmp collected) = true).
  { intros r Hin Hb Ha.
    rewrite <- (has_id_permutation _ _ _ (Hperm cmp collected)).
    apply fold_import_covers; assumption. }
  split; [|split; [|split]].
  - rewrite fold_import_all_skipped by exact Hcov. reflexivity.
  - apply Hperm.
  - intros Hstable Hcons. apply sort_again; [exact Hperm|exact Hstable|].
    apply (consistent_permutation cmp (Array_sort cmp collected));
      [apply Permutation_sym, Hperm|exact Hcons].
  - intros r Hin Hb. destruct (row_accepted r) eqn:Ha; [left|right; reflexivity].
    apply Hcov; assumption.
Qed.

(** An instance of C4: the file of the two sample entries, imported into
    the collection that a first import of it produced; the table being
    sorted by date, the later entry first. *)
Lemma C4_second_import_witness :
  Samples.import_exported Samples.two_entries_csv
      (with_entries Samples.empty_app [Samples.quoting; Samples.tired]) =
    Some {| imp_entries := [Samples.quoting; Samples.tired];
            importedCount := 0;
            skippedCount := 2 |}.
Proof.
  destruct (C4_second_import_adds_nothing
              stable_sort Security.lower_ascii
              (Samples.exported_file Samples.two_entries_csv)
              Samples.two_entries_csv Samples.empty_app
              {| imp_entries := [Samples.quoting; Samples.tired];
                 importedCount := 2;
                 skippedCount := 0 |}) as [H _].
  - apply stable_sort_rearranges.
  - reflexivity.
  - reflexivity.
  - unfold Samples.import_exported. cbn [imp_entries] in H. rewrite H.
    reflexivity.
Defined.

(** C4 as stated fails. The sample entry whose note has three lines is
    exported, imported into an empty collection and imported again. The
    second import does add nothing, but it skips two rows where one entry
    was exported, on three lines after the header; and the last of them
    is skipped as malformed, its id being nowhere in the collection. *)
Lemma C4_second_import_counterexample :
  exportToCSV (Samples.app_of [Samples.three_lines])
    = Some Samples.three_lines_csv
  /\ Samples.import_exported Samples.three_lines_csv Samples.empty_app
     = Some {| imp_entries := [Samples.first_line_only];
               importedCount := 1;
               skippedCount := 1 |}
  /\ Samples.import_exported Samples.three_lines_csv
       (with_entries Samples.empty_app [Samples.first_line_only])
     = Some {| imp_entries := [Samples.first_line_only];
               importedCount := 0;
               skippedCount := 2 |}
  /\ length (entries (Samples.app_of [Samples.three_lines])) = 1
  /\ length (tl (split LF Samples.three_lines_csv)) = 3
  /\ In (lit "b" ++ [DQUOTE]) (import_rows Samples.three_lines_csv)
  /\ row_blank (lit "b" ++ [DQUOTE]) = false
  /\ has_id (id (row_entry (lit "b" ++ [DQUOTE]))) [Samples.first_line_only]
     = false.
Proof.
  split; [vm_compute; reflexivity|].
  split; [reflexivity|].
  split; [reflexivity|].
  split; [reflexivity|].
  split; [vm_compute; reflexivity|].
  split; [vm_compute; auto|].
  split; reflexivity.
Qed.

(** C5, as the code has it. A non-empty collection is exported as the
    byte-order mark, the header row, and one row for each entry that
    passes validation (the others are left out; an empty collection gives
    no file): the four sanitized fields and the note in double quotes with
    its double quotes doubled. An empty note is written as a pair of
    quotes, [sanitizeCSVValue] turns [null] and [undefined] into the empty
    string, and the note of the specification's example becomes the field
    given there. *)
Theorem C5_export_format {P : Platform} (app : AppState) :
  entries app <> [] ->
  exportToCSV app =
    Some (BOM :: header
              ++ flat_map (fun e => LF :: row_text e)
                   (filter entry_valid (entries app)))
  /\ (Forall (fun e => entry_valid e = true) (entries app) ->
      exportToCSV app =
        Some (BOM :: header
                  ++ flat_map (fun e => LF :: row_text e) (entries app)))
  /\ sanitizeCSVValue VUndefined = []
  /\ sanitizeCSVValue VNull = []
  /\ escapeCSV (VStr []) = Some [DQUOTE; DQUOTE]
  /\ escapeCSV VUndefined = Some [DQUOTE; DQUOTE]
  /\ escapeCSV (VStr Samples.quoting_note) = Some Samples.quoting_field.
Proof.
  intros Hne. split; [apply exportToCSV_text; exact Hne|].
  split.
  - intros Hall. rewrite exportToCSV_text by exact Hne.
    rewrite filter_all_valid by exact Hall. reflexivity.
  - repeat split; vm_compute; reflexivity.
Qed.

(** An instance of C5: the file of the two sample entries. *)
Lemma C5_export_witness :
  exportToCSV (Samples.app_of [Samples.tired; Samples.quoting]) =
    Some Samples.two_entries_csv.
Proof.
  destruct (C5_export_format (Samples.app_of [Samples.tired; Samples.quoting]))
    as [H _]; [discriminate|].
  rewrite H. vm_compute. reflexivity.
Defined.

(** C5 as stated fails: not every entry gets a row, and an undefined
    field is not written as an empty one. Of two entries, the second
    without a date, only the first is exported; and from an empty
    collection nothing is. *)
Lemma C5_export_counterexample :
  exportToCSV (Samples.app_of [Samples.tired; Samples.without_date]) =
    Some (BOM :: header ++ [LF] ++ Samples.tired_row)
  /\ length (entries (Samples.app_of [Samples.tired; Samples.without_date])) = 2
  /\ length (tl (split LF (BOM :: header ++ [LF] ++ Samples.tired_row))) = 1
  /\ exportToCSV Samples.empty_app = None.
Proof. repeat split; vm_compute; reflexivity. Qed.

(** C2, as the code has it. Take a non-empty collection of at most 10000
    entries with pairwise distinct ids, all passing validation, in which
    every id, date and domainKey is a string, id and date are free of
    commas, line feeds, carriage returns, tabs and surrounding white
    space, the score is a number whose text is as plain and reads back as
    the number, and the note has no line feed. Exporting it and importing
    a file of that text, named as a CSV file and of at most ten
    mebibytes, into an empty collection gives back the same entries,
    field for field, in the order the current sort puts them in, with
    every row imported. The text read from the file may have lost the
    byte-order mark. Of [sort] this takes that it rearranges. *)
Theorem C2_export_import_round_trip
    {P : Platform}
    (Array_sort : (LogEntry -> LogEntry -> Z) -> list LogEntry -> list LogEntry)
    (toLowerCase : jstring -> jstring)
    (app : AppState) (f : File) :
  rearranges Array_sort ->
  entries app <> [] ->
  (length (entries app) <= maxImportRows)%nat ->
  NoDup (map id (entries app)) ->
  Forall (fun e => entry_valid e = true) (entries app) ->
  Forall portable (entries app) ->
  endsWith (lit ".csv") (toLowerCase (file_name f)) = true ->
  (file_size f <= maxFileSize)%Z ->
  (exists read, file_text f = Some read
     /\ (exportToCSV app = Some read \/ exportToCSV app = Some (BOM :: read))) ->
  exists text st,
    exportToCSV app = Some text
    /\ importFromCSV Array_sort toLowerCase (Some f) (with_entries app [])
       = Some st
    /\ Permutation (entries app) (imp_entries st)
    /\ imp_entries st
       = Array_sort (compare_entries (currentSort app)) (entries app)
    /\ importedCount st = length (entries app)
    /\ skippedCount st = 0.
Proof.
  intros Hperm Hne Hlen Hnd Hvalid Hport Hname Hsize (read & Hread & Hexp).
  set (rows := flat_map (fun e => LF :: row_text e) (entries app)).
  assert (Hexport : exportToCSV app = Some (BOM :: header ++ rows)).
  { rewrite exportToCSV_text by exact Hne.
    rewrite filter_all_valid by exact Hvalid. reflexivity. }
  assert (Hhead : exists head, read = head ++ rows /\ ~ In LF head
                                /\ In 105%N head).
  { rewrite Hexport in Hexp. destruct Hexp as [[= <-]|[= <-]].
    - exists (BOM :: header). split; [reflexivity|].
      split; [apply header_line_no_LF|]. right. left. reflexivity.
    - exists header. split; [reflexivity|].
      split; [|left; reflexivity].
      intros Hin. apply header_line_no_LF. right. exact Hin. }
  destruct Hhead as (head & -> & HnoLF & Hi).
  exists (BOM :: header ++ rows).
  exists {| imp_entries :=
              Array_sort (compare_entries (currentSort app)) (entries app);
            importedCount := length (entries app);
            skippedCount := 0 |}.
  split; [exact Hexport|]. split; [|split; [apply Hperm|repeat split]].
  rewrite (importFromCSV_accepted _ _ f _ _ Hname Hsize Hread).
  rewrite import_text_cases.
  destruct (trim (head ++ rows)) eqn:Etrim.
  { exfalso. revert Etrim. apply (trim_nonblank 105%N); [|reflexivity].
    apply in_or_app. left. exact Hi. }
  clear Etrim. cbv iota.
  assert (Hrows : import_rows (head ++ rows) = map row_text (entries app)).
  { unfold import_rows, rows.
    rewrite flat_map_concat_map.
    rewrite <- (map_map row_text (fun r => LF :: r)).
    rewrite <- flat_map_concat_map.
    rewrite split_lines.
    - cbn [tl]. apply firstn_all2. rewrite length_map. exact Hlen.
    - exact HnoLF.
    - apply Forall_forall. intros r Hr. apply in_map_iff in Hr.
      destruct Hr as [e [<- He]].
      rewrite Forall_forall in Hvalid, Hport.
      destruct (portable_row e (Hvalid e He) (Hport e He))
        as (_ & _ & _ & H & _).
      exact H. }
  rewrite Hrows. cbn [with_entries entries currentSort].
  rewrite fold_import_portable by assumption. reflexivity.
Qed.

Ltac not_in_literal :=
  let H := fresh "H" in
  intros H; vm_compute in H;
  repeat (destruct H as [H|H]; [discriminate|]); exact H.

Ltac portable_sample i d k n t :=
  exists i, d, k, n, t;
  split; [reflexivity|];
  split; [plain_literal|];
  split; [plain_literal|];
  split; [plain_literal|];
  split; [reflexivity|not_in_literal].

(** An instance of C2: the two sample entries, which the import leaves
    sorted by date, the later one first. *)
Lemma C2_round_trip_witness :
  exportToCSV (Samples.app_of [Samples.tired; Samples.quoting])
    = Some Samples.two_entries_csv
  /\ Samples.import_exported Samples.two_entries_csv Samples.empty_app =
       Some {| imp_entries := [Samples.quoting; Samples.tired];
               importedCount := 2;
               skippedCount := 0 |}
  /\ Permutation [Samples.tired; Samples.quoting]
       [Samples.quoting; Samples.tired].
Proof.
  assert (E : exportToCSV (Samples.app_of [Samples.tired; Samples.quoting])
              = Some Samples.two_entries_csv) by (vm_compute; reflexivity).
  destruct (C2_export_import_round_trip
              stable_sort Security.lower_ascii
              (Samples.app_of [Samples.tired; Samples.quoting])
              (Samples.exported_file Samples.two_entries_csv))
    as (text & st & Hexp & Himp & Hsame & Horder & Hn & Hs).
  - apply stable_sort_rearranges.
  - discriminate.
  - unfold maxImportRows. cbn [Samples.app_of entries length]. lia.
  - repeat constructor; simpl; intuition discriminate.
  - repeat constructor; vm_compute; reflexivity.
  - constructor; [|constructor; [|constructor]].
    + portable_sample (lit "1700000000000") (lit "2024-01-15") (lit "phq-9")
                      (Some 12%Z) (lit "felt tired, but ok").
    + portable_sample (lit "1700000000001") (lit "2024-01-16") (lit "gad-7")
                      (Some 0%Z) Samples.quoting_note.
  - reflexivity.
  - vm_compute. discriminate.
  - exists Samples.two_entries_csv. split; [reflexivity|left; exact E].
  - split; [exact E|]. split.
    + unfold Samples.import_exported.
      change (with_entries (Samples.app_of [Samples.tired; Samples.quoting]) [])
        with Samples.empty_app in Himp.
      rewrite Himp. destruct st as [es n k].
      cbn [imp_entries importedCount skippedCount] in Horder, Hn, Hs.
      subst es n k. reflexivity.
    + rewrite Horder in Hsame. exact Hsame.
Defined.

(** C2 as stated fails. Each of these entries passes validation, and none
    comes back from the round trip as it was: of the note with three
    lines only the first line returns; the row of the id with a comma is
    rejected, its fields having shifted; and the score kept as a numeric
    string returns as a number. *)
Lemma C2_round_trip_counterexample :
  (entry_valid Samples.three_lines = true
   /\ exportToCSV (Samples.app_of [Samples.three_lines])
      = Some Samples.three_lines_csv
   /\ Samples.import_exported Samples.three_lines_csv Samples.empty_app
      = Some {| imp_entries := [Samples.first_line_only];
                importedCount := 1; skippedCount := 1 |}
   /\ note_text Samples.first_line_only <> note_text Samples.three_lines)
  /\
  (entry_valid Samples.comma_id = true
   /\ exportToCSV (Samples.app_of [Samples.comma_id])
      = Some Samples.comma_id_csv
   /\ Samples.import_exported Samples.comma_id_csv Samples.empty_app
      = Some {| imp_entries := []; importedCount := 0; skippedCount := 1 |})
  /\
  (entry_valid Samples.string_score = true
   /\ exportToCSV (Samples.app_of [Samples.string_score])
      = Some Samples.string_score_csv
   /\ Samples.import_exported Samples.string_score_csv Samples.empty_app
      = Some {| imp_entries := [Samples.number_score];
                importedCount := 1; skippedCount := 0 |}
   /\ is_number (score Samples.number_score) = true
   /\ is_number (score Samples.string_score) = false).
Proof.
  split; [|split].
  - split; [vm_compute; reflexivity|].
    split; [vm_compute; reflexivity|].
    split; [reflexivity|].
    vm_compute. discriminate.
  - split; [vm_compute; reflexivity|].
    split; [vm_compute; reflexivity|reflexivity].
  - split; [vm_compute; reflexivity|].
    split; [vm_compute; reflexivity|].
    split; [reflexivity|].
    split; reflexivity.
Qed.

(** C9. [addEntry] does not preserve the distinctness of ids: it appends
    the validated entry without looking for its id. Here the collection
    holds one entry and a second one created in the same millisecond is
    added; the two having the same date, the stable sort that follows
    leaves them as they are. [deleteEntry] and [importFromCSV] do preserve
    distinctness ([deleteEntry_distinct_ids],
    [importFromCSV_distinct_ids]). *)
Theorem C9_addEntry_accepts_duplicate_id
    (Array_sort : (LogEntry -> LogEntry -> Z) -> list LogEntry -> list LogEntry) :
  stable_when_consistent Array_sort ->
  NoDup (map id (entries (Samples.app_of [Samples.tired])))
  /\ addEntry Array_sort Samples.same_millisecond (Samples.app_of [Samples.tired]) =
       (true, Samples.app_of [Samples.tired; Samples.same_millisecond])
  /\ ~ NoDup (map id [Samples.tired; Samples.same_millisecond]).
Proof.
  intros Hstable.
  split; [constructor; [intros []|constructor]|].
  split.
  - assert (Hadd : addEntry Array_sort Samples.same_millisecond
                     (Samples.app_of [Samples.tired])
                   = (true, renderHistoryTable Array_sort
                              (Samples.app_of
                                 [Samples.tired; Samples.same_millisecond])))
      by reflexivity.
    rewrite Hadd. f_equal.
    unfold renderHistoryTable, sortEntries, with_entries.
    cbn [entries currentLanguage currentSort Samples.app_of].
    rewrite Hstable by reflexivity. reflexivity.
  - intros H. inversion H as [|? ? Hnotin _]; subst.
    apply Hnotin. left. reflexivity.
Qed.

(** An instance of C9, with the stable insertion sort. *)
Lemma C9_addEntry_witness :
  addEntry stable_sort Samples.same_millisecond (Samples.app_of [Samples.tired]) =
    (true, Samples.app_of [Samples.tired; Samples.same_millisecond]).
Proof.
  destruct (C9_addEntry_accepts_duplicate_id stable_sort) as (_ & H & _).
  - apply stable_sort_stable.
  - exact H.
Defined.

End AppFacts.

(* ================================================================== *)
(** * Further properties: SecurityManager *)
(* ================================================================== *)

Module SecurityManagerFacts.
Import JS Runtime Security.

Lemma accumulate_differences_zero : forall a b r,
  length a = length b ->
  (accumulate_differences r a b = 0%N <-> r = 0%N /\ a = b).
Proof.
  induction a as [|x a IH]; intros [|y b] r Hlen; try discriminate; simpl.
  - tauto.
  - injection Hlen as Hlen.
    rewrite (IH b _ Hlen), N.lor_eq_0_iff, N.lxor_eq_0_iff.
    split.
    + intros [[Hr Hxy] Hab]. subst. auto.
    + intros [Hr Hab]. injection Hab as -> ->. auto.
Qed.

(** X1 (constantTimeEquals): the comparison that accumulates the
    differences of the code units answers true exactly when the two
    strings are equal. *)
Theorem constantTimeEquals_iff_equal (a b : jstring) :
  constantTimeEquals a b = true <-> a = b.
Proof.
  unfold constantTimeEquals.
  destruct (Nat.eqb_spec (length a) (length b)) as [Hlen|Hlen]; simpl.
  - rewrite N.eqb_eq, (accumulate_differences_zero a b 0%N Hlen). tauto.
  - split; [discriminate|]. intros ->. contradiction.
Qed.

(** ** The screening for malicious content *)

Lemma rmatch_text_i {A} (k : jstring -> option A) post : forall w w',
  map upper w' = map upper w ->
  rmatch (text_i w) (w' ++ post) k = k post.
Proof.
  induction w as [|c w IH]; intros [|c' w'] H; try discriminate.
  - reflexivity.
  - cbn [map] in H. injection H as Hc Hw.
    destruct w as [|c2 w].
    + destruct w'; [|discriminate]. cbn [text_i chr_i rmatch app].
      rewrite Hc, N.eqb_refl. reflexivity.
    + change (text_i (c :: c2 :: w)) with (Seq (chr_i c) (text_i (c2 :: w))).
      cbn [rmatch chr_i app]. rewrite Hc, N.eqb_refl. apply IH. exact Hw.
Qed.

(** A match at the front of a suffix is a match somewhere. *)
Lemma test_at r pre s :
  match_length r s <> None -> test r (pre ++ s) = true.
Proof.
  intros H. induction pre as [|c pre IH].
  - destruct s; simpl; destruct (match_length r _); try reflexivity;
      contradiction.
  - cbn [app test].
    destruct (match_length r (c :: pre ++ s)); [reflexivity|exact IH].
Qed.

Lemma test_text_i w w' pre post :
  map upper w' = map upper w -> test (text_i w) (pre ++ w' ++ post) = true.
Proof.
  intros H. apply test_at. unfold match_length.
  rewrite (rmatch_text_i _ post w w' H). discriminate.
Qed.

(** X2 (containsMaliciousContent): a string that contains the
    javascript protocol anywhere, its letters in any mix of upper and
    lower case, is flagged. *)
Theorem javascript_protocol_is_flagged
    {P : Platform} (pre w post : jstring) :
  map upper w = map upper (lit "javascript:") ->
  containsMaliciousContent (VStr (pre ++ w ++ post)) = true.
Proof.
  intros H. unfold containsMaliciousContent. apply existsb_exists.
  exists (text_i (lit "javascript:")). split.
  - right. left. reflexivity.
  - apply test_text_i. exact H.
Qed.

Lemma javascript_protocol_is_flagged_witness :
  containsMaliciousContent (P := Whole.platform)
    (VStr (lit "click " ++ lit "JaVaScRiPt:" ++ lit "alert(1)")) = true.
Proof.
  apply (javascript_protocol_is_flagged (P := Whole.platform)
           (lit "click ") (lit "JaVaScRiPt:") (lit "alert(1)")).
  reflexivity.
Defined.

(** ** sanitizeHTML *)

Lemma escape_html_char_no_angle c : Forall not_angle (escape_html_char c).
Proof.
  unfold escape_html_char.
  destruct (N.eqb_spec c 38); [repeat constructor; discriminate|].
  destruct (N.eqb_spec c 160); [repeat constructor; discriminate|].
  destruct (N.eqb_spec c 60); [repeat constructor; discriminate|].
  destruct (N.eqb_spec c 62); [repeat constructor; discriminate|].
  repeat constructor; assumption.
Qed.

Lemma escape_html_no_angle s : Forall not_angle (flat_map escape_html_char s).
Proof.
  induction s as [|c s IH]; cbn [flat_map]; [constructor|].
  apply Forall_app. split; [apply escape_html_char_no_angle|exact IH].
Qed.

Lemma escape_html_char_inj c1 c2 r1 r2 :
  escape_html_char c1 ++ r1 = escape_html_char c2 ++ r2 -> c1 = c2 /\ r1 = r2.
Proof.
  unfold escape_html_char.
  destruct (N.eqb_spec c1 38); [|destruct (N.eqb_spec c1 160);
    [|destruct (N.eqb_spec c1 60); [|destruct (N.eqb_spec c1 62)]]];
  (destruct (N.eqb_spec c2 38); [|destruct (N.eqb_spec c2 160);
    [|destruct (N.eqb_spec c2 60); [|destruct (N.eqb_spec c2 62)]]]);
  cbn; intros H; try discriminate H;
  injection H; intros; subst; first [congruence | split; congruence].
Qed.

Lemma escape_html_inj : forall s1 s2,
  flat_map escape_html_char s1 = flat_map escape_html_char s2 -> s1 = s2.
Proof.
  assert (Hne : forall c r, escape_html_char c ++ r <> []).
  { intros c r. unfold escape_html_char.
    repeat match goal with |- context [if ?b then _ else _] => destruct b end;
      discriminate. }
  induction s1 as [|c1 s1 IH]; intros [|c2 s2] H; cbn [flat_map] in H.
  - reflexivity.
  - symmetry in H. apply Hne in H. contradiction.
  - apply Hne in H. contradiction.
  - apply escape_html_char_inj in H. destruct H as [-> H]. f_equal.
    apply IH, H.
Qed.

(** X3 (sanitizeHTML): the escaped text never contains an angle
    bracket; anything that is not a string gives the empty string;
    escaping loses nothing, two strings with the same escaped text being
    equal; and a string without ampersand, no-break space and angle
    brackets is returned as it is. *)
Theorem sanitizeHTML_escapes {P : Platform} (html : value) :
  Forall not_angle (sanitizeHTML html)
  /\ (is_string html = false -> sanitizeHTML html = [])
  /\ (forall s s', html = VStr s ->
        sanitizeHTML (VStr s') = sanitizeHTML html -> s' = s)
  /\ (forall s, html = VStr s ->
        Forall (fun c => c <> 38 /\ c <> 160 /\ c <> 60 /\ c <> 62)%N s ->
        sanitizeHTML html = s).
Proof.
  repeat split.
  - destruct html; try constructor. apply escape_html_no_angle.
  - destruct html; try reflexivity. discriminate.
  - intros s s' -> H. apply escape_html_inj. exact H.
  - intros s -> H. cbn [sanitizeHTML].
    induction H as [|c s (H1 & H2 & H3 & H4) _ IH]; [reflexivity|].
    cbn [flat_map]. rewrite IH. unfold escape_html_char.
    apply N.eqb_neq in H1, H2, H3, H4. rewrite H1, H2, H3, H4. reflexivity.
Qed.

Lemma sanitizeHTML_escapes_witness :
  Forall not_angle
    (sanitizeHTML (P := Whole.platform) (VStr (lit "<b>Tom & Jerry</b>")))
  /\ sanitizeHTML (P := Whole.platform) (VStr (lit "plain text"))
     = lit "plain text".
Proof.
  split.
  - apply (sanitizeHTML_escapes (P := Whole.platform)
             (VStr (lit "<b>Tom & Jerry</b>"))).
  - destruct (sanitizeHTML_escapes (P := Whole.platform)
                (VStr (lit "plain text"))) as (_ & _ & _ & H).
    apply (H (lit "plain text")); [reflexivity|].
    repeat (constructor; [repeat split; discriminate|]). constructor.
Defined.

End SecurityManagerFacts.

(* ================================================================== *)
(** * Further properties: SecureStorage *)
(* ================================================================== *)

Module Base64Facts.
Import JS Security Security.Base64.

Lemma below_64 (q : N -> bool) :
  forallb q (map N.of_nat (seq 0 64)) = true ->
  forall n, (n < 64)%N -> q n = true.
Proof.
  intros H n Hn. rewrite forallb_forall in H. apply H.
  apply in_map_iff. exists (N.to_nat n). split; [apply N2Nat.id|].
  apply in_seq. lia.
Qed.

Lemma char_sextet_char n :
  (n < 64)%N -> char_sextet (sextet_char n) = Some n /\ sextet_char n <> 61%N.
Proof.
  intros Hn.
  pose proof (below_64
    (fun n => match char_sextet (sextet_char n) with
              | Some m => (m =? n)%N && negb (sextet_char n =? 61)%N
              | None => false
              end) eq_refl n Hn) as H.
  cbv beta in H.
  destruct (char_sextet (sextet_char n)) as [m|]; [|discriminate].
  apply andb_prop in H. destruct H as [Hm H61].
  apply N.eqb_eq in Hm. subst m. split; [reflexivity|].
  intros E. rewrite E in H61. discriminate.
Qed.

(** The four sextets of three bytes, and the bytes back from them. *)
Lemma sextets a b c :
  (a <= 255 -> b <= 255 -> c <= 255 ->
   a / 4 < 64 /\ (a mod 4) * 16 + b / 16 < 64 /\ (b mod 16) * 4 + c / 64 < 64
   /\ c mod 64 < 64 /\ (a mod 4) * 16 < 64 /\ (b mod 16) * 4 < 64
   /\ (a / 4) * 4 + ((a mod 4) * 16 + b / 16) / 16 = a
   /\ (((a mod 4) * 16 + b / 16) mod 16) * 16 + ((b mod 16) * 4 + c / 64) / 4 = b
   /\ (((b mod 16) * 4 + c / 64) mod 4) * 64 + c mod 64 = c
   /\ (a / 4) * 4 + ((a mod 4) * 16) / 16 = a
   /\ (((a mod 4) * 16 + b / 16) mod 16) * 16 + ((b mod 16) * 4) / 4 = b)%N.
Proof.
  intros. repeat split; zify; Z.to_euclidean_division_equations; lia.
Qed.

Lemma atob_encode : forall (n : nat) (s : jstring),
  (length s <= n)%nat ->
  forallb (fun c => (c <=? 255)%N) s = true -> atob (encode s) = Some s.
Proof.
  induction n as [|n IH]; intros s Hlen Hs.
  - destruct s; [reflexivity|simpl in Hlen; lia].
  - destruct s as [|a [|b [|c rest]]]; [reflexivity| | |].
    + cbn [forallb] in Hs. rewrite andb_true_r in Hs. apply N.leb_le in Hs.
      destruct (sextets a 0 0 Hs)
        as (H1 & _ & _ & _ & H5 & _ & _ & _ & _ & H10 & _); try lia.
      cbn [encode atob].
      destruct (char_sextet_char _ H1) as [-> _].
      destruct (char_sextet_char _ H5) as [-> _].
      cbn [N.eqb Pos.eqb]. rewrite H10. reflexivity.
    + cbn [forallb] in Hs. rewrite andb_true_r in Hs.
      apply andb_prop in Hs. destruct Hs as [Ha Hb].
      apply N.leb_le in Ha, Hb.
      destruct (sextets a b 0 Ha Hb)
        as (H1 & H2 & _ & _ & _ & H6 & H7 & _ & _ & _ & H11); try lia.
      cbn [encode atob].
      destruct (char_sextet_char _ H1) as [-> _].
      destruct (char_sextet_char _ H2) as [-> _].
      destruct (char_sextet_char _ H6) as [E3 N3].
      cbn [N.eqb Pos.eqb].
      apply N.eqb_neq in N3. rewrite N3, E3, H7, H11. reflexivity.
    + cbn [forallb] in Hs.
      apply andb_prop in Hs. destruct Hs as [Ha Hs].
      apply andb_prop in Hs. destruct Hs as [Hb Hs].
      apply andb_prop in Hs. destruct Hs as [Hc Hs].
      apply N.leb_le in Ha, Hb, Hc.
      destruct (sextets a b c Ha Hb Hc)
        as (H1 & H2 & H3 & H4 & _ & _ & H7 & H8 & H9 & _).
      cbn [encode app atob].
      destruct (char_sextet_char _ H1) as [-> _].
      destruct (char_sextet_char _ H2) as [-> _].
      destruct (char_sextet_char _ H3) as [-> _].
      destruct (char_sextet_char _ H4) as [E4 N4].
      apply N.eqb_neq in N4. rewrite N4, E4.
      rewrite (IH rest); [|simpl in Hlen; lia|exact Hs].
      rewrite H7, H8, H9. reflexivity.
Qed.

(** Decoding gives back what was encoded. *)
Lemma atob_btoa s b : btoa s = Some b -> atob b = Some s.
Proof.
  unfold btoa. destruct (forallb _ s) eqn:Hs; [|discriminate].
  intros [= <-]. apply (atob_encode (length s)); [lia|exact Hs].
Qed.

End Base64Facts.

Module StorageFacts.
Import JS Runtime Security.

Lemma jstring_eqb_neq a b : a <> b -> jstring_eqb a b = false.
Proof.
  intros H. destruct (jstring_eqb a b) eqn:E; [|reflexivity].
  apply JSFacts.jstring_eqb_eq in E. contradiction.
Qed.

Lemma assoc_get_set_same key v l : assoc_get key (assoc_set key v l) = Some v.
Proof.
  induction l as [|[k v0] l IH]; simpl.
  - rewrite JSFacts.jstring_eqb_refl. reflexivity.
  - destruct (jstring_eqb k key) eqn:E; simpl; rewrite E; [reflexivity|exact IH].
Qed.

Lemma assoc_get_set_other key v k l :
  k <> key -> assoc_get k (assoc_set key v l) = assoc_get k l.
Proof.
  intros Hk. induction l as [|[k0 v0] l IH]; simpl.
  - rewrite jstring_eqb_neq; [reflexivity|congruence].
  - destruct (jstring_eqb k0 key) eqn:E; simpl.
    + apply JSFacts.jstring_eqb_eq in E. subst k0.
      rewrite jstring_eqb_neq; [reflexivity|congruence].
    + rewrite IH. reflexivity.
Qed.

(** Looking a key up after a filter on the keys. *)
Lemma assoc_get_filter (f : jstring -> bool) k l :
  assoc_get k (filter (fun kv => f (fst kv)) l) =
    if f k then assoc_get k l else None.
Proof.
  induction l as [|[k0 v0] l IH]; cbn [filter fst assoc_get].
  - destruct (f k); reflexivity.
  - destruct (jstring_eqb k0 k) eqn:E.
    + apply JSFacts.jstring_eqb_eq in E. subst k0.
      destruct (f k) eqn:Ef.
      * cbn [assoc_get]. rewrite JSFacts.jstring_eqb_refl. reflexivity.
      * rewrite IH. reflexivity.
    + destruct (f k0); cbn [assoc_get]; [rewrite E|]; exact IH.
Qed.

Lemma assoc_get_remove key k l :
  assoc_get k (assoc_remove key l) =
    if jstring_eqb k key then None else assoc_get k l.
Proof.
  unfold assoc_remove.
  rewrite (assoc_get_filter (fun k0 => negb (jstring_eqb k0 key))).
  destruct (jstring_eqb k key); reflexivity.
Qed.

Lemma assoc_remove_set key v l :
  assoc_remove key (assoc_set key v l) = assoc_remove key l.
Proof.
  unfold assoc_remove. induction l as [|[k v0] l IH]; simpl.
  - rewrite JSFacts.jstring_eqb_refl. reflexivity.
  - destruct (jstring_eqb k key) eqn:E; simpl; rewrite E; simpl;
      [reflexivity|rewrite IH; reflexivity].
Qed.

Lemma ls_setItem_inr key v ls ls' :
  ls_setItem key v ls = inr ls' ->
  access_denied ls = false /\ ls' = with_items ls (assoc_set key v (items ls)).
Proof.
  unfold ls_setItem. destruct (access_denied ls); [discriminate|].
  destruct (capacity ls) as [cap|].
  - destruct (cap <? _)%nat; [discriminate|]. intros [= <-]. auto.
  - intros [= <-]. auto.
Qed.

Lemma ls_getItem_with_items k ls l :
  access_denied ls = false ->
  ls_getItem k (with_items ls l) = inr (assoc_get k l).
Proof. intros H. unfold ls_getItem. simpl. rewrite H. reflexivity. Qed.

Lemma ls_getItem_open k ls :
  access_denied ls = false -> ls_getItem k ls = inr (assoc_get k (items ls)).
Proof. intros H. unfold ls_getItem. rewrite H. reflexivity. Qed.

(** Applying the key twice gives the text back. *)
Lemma xor_from_involutive key : forall s i,
  xor_from i (xor_from i s key) key = s.
Proof.
  induction s as [|c s IH]; intros i; simpl; [reflexivity|].
  rewrite IH, N.lxor_assoc, N.lxor_nilpotent, N.lxor_0_r. reflexivity.
Qed.

Section Storage.
Context {P : Platform}.
Variable JSON_stringify : value -> option jstring.
Variable JSON_parse : jstring -> option value.
Variable btoa atob : jstring -> option jstring.

Lemma decrypt_after_encrypt (data : value) (stored : jstring) :
  (forall s b, btoa s = Some b -> atob b = Some s) ->
  encrypt JSON_stringify btoa data = inr stored ->
  decrypt atob stored = Some (stored_text JSON_stringify data).
Proof.
  intros Hcodec. unfold encrypt, decrypt.
  assert (Hgen : forall str,
            match btoa (xor_from 0 str default_key) with
            | Some b64 => inr b64
            | None => inl (lit "InvalidCharacterError")
            end = inr stored ->
            match atob stored with
            | Some d => Some (xor_from 0 d default_key)
            | None => None
            end = Some str).
  { intros str H.
    destruct (btoa (xor_from 0 str default_key)) as [b64|] eqn:Hb;
      [|discriminate].
    injection H as <-. rewrite (Hcodec _ _ Hb), xor_from_involutive.
    reflexivity. }
  intros H.
  destruct data; cbn [stored_text];
    try (destruct (JSON_stringify _) as [str|] eqn:Hj;
         [apply Hgen; exact H|discriminate]).
  apply Hgen; exact H.
Qed.

(** X4 (encrypt, decrypt): with a decoder that inverts the encoder,
    decrypting what encrypt returned gives back the text that was
    encrypted: the string itself, or the serialisation of a value that is
    not a string. *)
Theorem decrypt_inverts_encrypt (data : value) (stored : jstring) :
  (forall s b, btoa s = Some b -> atob b = Some s) ->
  encrypt JSON_stringify btoa data = inr stored ->
  decrypt atob stored = Some (stored_text JSON_stringify data)
  /\ (forall s, data = VStr s -> decrypt atob stored = Some s).
Proof.
  intros Hcodec H.
  pose proof (decrypt_after_encrypt data stored Hcodec H) as Hd.
  split; [exact Hd|].
  intros s ->. exact Hd.
Qed.

(** X5 (setItem, getItem): after a write that reported success, reading
    the same key with the same encryption flag returns the stored text as
    getItem reads a text: parsed when JSON.parse accepts it, the text
    itself otherwise. For an encrypted write this needs a decoder that
    inverts the encoder. *)
Theorem setItem_getItem_round_trip
    (ss : SecureStorage) (key : jstring) (v : value) (flag : bool)
    (ls ls' : LocalStorage) :
  (flag = true -> forall s b, btoa s = Some b -> atob b = Some s) ->
  setItem JSON_stringify btoa ss key v flag ls = (inr true, ls') ->
  getItem JSON_parse atob ss key flag ls' =
    inr (parse_or_text JSON_parse (stored_text JSON_stringify v)).
Proof.
  intros Hcodec. unfold setItem, getItem.
  destruct (isAvailable ss); cbn [negb]; [|discriminate].
  destruct flag.
  - destruct (encrypt JSON_stringify btoa v) as [e|stored] eqn:He;
      [discriminate|].
    destruct (ls_setItem _ stored ls) as [e|ls1] eqn:Hs; [discriminate|].
    intros [= <-]. apply ls_setItem_inr in Hs. destruct Hs as [Hd ->].
    rewrite (ls_getItem_with_items _ _ _ Hd), assoc_get_set_same.
    rewrite (decrypt_after_encrypt v stored (Hcodec eq_refl) He).
    reflexivity.
  - set (data := stored_text JSON_stringify v).
    assert (Hd : (match v with
                  | VStr s => inr s
                  | _ => match JSON_stringify v with
                         | Some s => inr s
                         | None => inr (lit "undefined")
                         end
                  end : exn + jstring) = inr data).
    { unfold data, stored_text. destruct v; try reflexivity;
        destruct (JSON_stringify _); reflexivity. }
    rewrite Hd.
    destruct (ls_setItem _ data ls) as [e|ls1] eqn:Hs; [discriminate|].
    intros [= <-]. apply ls_setItem_inr in Hs. destruct Hs as [Hden ->].
    rewrite (ls_getItem_with_items _ _ _ Hden), assoc_get_set_same.
    reflexivity.
Qed.

(** X6 (setItem): a write touches the one prefixed key and nothing
    else: every other key reads as before, and a write that did not
    report success leaves the store as it was. *)
Theorem setItem_touches_one_key
    (ss : SecureStorage) (key : jstring) (v : value) (flag : bool)
    (ls ls' : LocalStorage) (r : exn + bool) :
  setItem JSON_stringify btoa ss key v flag ls = (r, ls') ->
  (forall k, k <> keyPrefix ss ++ key -> ls_getItem k ls' = ls_getItem k ls)
  /\ (r <> inr true -> ls' = ls)
  /\ access_denied ls' = access_denied ls
  /\ capacity ls' = capacity ls.
Proof.
  unfold setItem.
  destruct (isAvailable ss); cbn [negb].
  2:{ intros [= <- <-]. repeat split; auto. }
  match goal with
  | |- match ?d with _ => _ end = _ -> _ => destruct d as [e|data]
  end.
  { intros [= <- <-]. repeat split; auto. }
  destruct (ls_setItem _ data ls) as [e|ls1] eqn:Hs.
  { intros [= <- <-]. repeat split; auto. }
  intros [= <- <-]. apply ls_setItem_inr in Hs. destruct Hs as [Hden ->].
  repeat split; try reflexivity.
  - intros k Hk.
    rewrite (ls_getItem_with_items _ _ _ Hden), (ls_getItem_open _ _ Hden).
    rewrite assoc_get_set_other; [reflexivity|exact Hk].
  - intros H. contradiction H. reflexivity.
Qed.

(** X7 (removeItem): after a removal that reported success the key
    reads as null, with either flag; every other key reads as before; and
    a removal that did not report success returns false and leaves the
    store as it was. *)
Theorem removeItem_forgets_the_key
    (ss : SecureStorage) (key : jstring) (ls ls' : LocalStorage)
    (r : exn + bool) :
  removeItem ss key ls = (r, ls') ->
  (r = inr true ->
     forall flag, getItem JSON_parse atob ss key flag ls' = inr VNull)
  /\ (forall k, k <> keyPrefix ss ++ key -> ls_getItem k ls' = ls_getItem k ls)
  /\ (r <> inr true -> r = inr false /\ ls' = ls).
Proof.
  unfold removeItem, getItem.
  destruct (isAvailable ss); cbn [negb].
  2:{ intros [= <- <-]. split; [discriminate|]. split; auto. }
  unfold ls_removeItem.
  destruct (access_denied ls) eqn:Hden.
  { intros [= <- <-]. split; [discriminate|]. split; auto. }
  intros [= <- <-]. split; [|split].
  - intros _ flag.
    rewrite (ls_getItem_with_items _ _ _ Hden), assoc_get_remove.
    rewrite JSFacts.jstring_eqb_refl. reflexivity.
  - intros k Hk.
    rewrite (ls_getItem_with_items _ _ _ Hden), (ls_getItem_open _ _ Hden).
    rewrite assoc_get_remove, jstring_eqb_neq; [reflexivity|exact Hk].
  - intros H. contradiction H. reflexivity.
Qed.

End Storage.

Lemma remove_keys_open : forall keys ls,
  access_denied ls = false ->
  remove_keys keys ls =
    (None, with_items ls
             (filter (fun kv => negb (existsb (jstring_eqb (fst kv)) keys))
                     (items ls))).
Proof.
  induction keys as [|k keys IH]; intros ls Hden; simpl.
  - f_equal. destruct ls as [l d c]. unfold with_items. simpl. f_equal.
    clear Hden. induction l as [|x l IHl]; simpl; [reflexivity|].
    f_equal. exact IHl.
  - unfold ls_removeItem. rewrite Hden.
    rewrite IH by exact Hden. f_equal.
    change (with_items (with_items ls (assoc_remove k (items ls))) ?l)
      with (with_items ls l).
    f_equal. cbn [items with_items]. unfold assoc_remove.
    induction (items ls) as [|x l IHl]; simpl; [reflexivity|].
    destruct (jstring_eqb (fst x) k); simpl; [exact IHl|].
    destruct (existsb _ keys); simpl; [exact IHl|]. f_equal. exact IHl.
Qed.

Lemma existsb_owned prefix k (l : list (jstring * jstring)) :
  In k (map fst l) ->
  existsb (jstring_eqb k) (filter (owned_key prefix) (map fst l))
    = owned_key prefix k.
Proof.
  intros Hin. destruct (owned_key prefix k) eqn:Ho.
  - apply existsb_exists. exists k. split; [|apply JSFacts.jstring_eqb_refl].
    apply filter_In. auto.
  - destruct (existsb _ _) eqn:E; [|reflexivity].
    apply existsb_exists in E. destruct E as (k' & Hk' & E).
    apply JSFacts.jstring_eqb_eq in E. subst k'.
    apply filter_In in Hk'. destruct Hk' as [_ Hk']. congruence.
Qed.

(** X8 (clear): on an adapter that is available and a store that can
    be reached, clear reports success and removes exactly the items whose
    key is not empty and starts with the prefix; the other items stay, in
    their order, and read as before. *)
Theorem clear_removes_owned_keys (ss : SecureStorage) (ls : LocalStorage) :
  isAvailable ss = true -> access_denied ls = false ->
  clear ss ls =
    (inr true,
     with_items ls
       (filter (fun kv => negb (owned_key (keyPrefix ss) (fst kv))) (items ls)))
  /\ (forall k,
        ls_getItem k (snd (clear ss ls)) =
          if owned_key (keyPrefix ss) k then inr None else ls_getItem k ls).
Proof.
  intros Hav Hden.
  assert (Hclear : clear ss ls =
    (inr true,
     with_items ls
       (filter (fun kv => negb (owned_key (keyPrefix ss) (fst kv)))
               (items ls)))).
  { unfold clear, ls_keys. rewrite Hav, Hden. cbn [negb].
    change (filter _ (map fst (items ls)))
      with (filter (owned_key (keyPrefix ss)) (map fst (items ls))).
    rewrite remove_keys_open by exact Hden. f_equal. f_equal.
    apply filter_ext_in. intros [k v] Hin. cbn [fst]. f_equal.
    apply existsb_owned. apply in_map_iff. exists (k, v). auto. }
  split; [exact Hclear|].
  intros k. rewrite Hclear. cbn [snd].
  rewrite (ls_getItem_with_items _ _ _ Hden), (ls_getItem_open _ _ Hden).
  rewrite (assoc_get_filter (fun k0 => negb (owned_key (keyPrefix ss) k0))).
  destruct (owned_key (keyPrefix ss) k); reflexivity.
Qed.

(** X9 (checkAvailability): the probe changes no key but its own;
    when it succeeds nothing is left under the key of the probe, an item
    that was there before included; when it fails the store is as it
    was. *)
Theorem checkAvailability_probe (ls ls' : LocalStorage) (ok : bool) :
  checkAvailability ls = (ok, ls') ->
  (forall k, k <> storage_probe -> ls_getItem k ls' = ls_getItem k ls)
  /\ (ok = true -> ls_getItem storage_probe ls' = inr None)
  /\ (ok = false -> ls' = ls).
Proof.
  unfold checkAvailability. fold storage_probe.
  destruct (ls_setItem storage_probe storage_probe ls) as [e|ls1] eqn:Hs.
  { intros [= <- <-]. repeat split; auto. discriminate. }
  apply ls_setItem_inr in Hs. destruct Hs as [Hden ->].
  unfold ls_removeItem. cbn [access_denied with_items]. rewrite Hden.
  intros [= <- <-]. cbn [items]. rewrite assoc_remove_set.
  repeat split.
  - intros k Hk. unfold ls_getItem. cbn [access_denied items with_items].
    rewrite Hden, assoc_get_remove, jstring_eqb_neq; [reflexivity|exact Hk].
  - intros _. unfold ls_getItem. cbn [access_denied items with_items].
    rewrite Hden, assoc_get_remove, JSFacts.jstring_eqb_refl. reflexivity.
  - discriminate.
Qed.

Lemma decrypt_inverts_encrypt_witness :
  encrypt (P := Whole.platform) failing_codec Base64.btoa (VStr (lit "hello"))
    = inr Samples.hello_stored
  /\ decrypt Base64.atob Samples.hello_stored = Some (lit "hello").
Proof.
  split; [reflexivity|].
  destruct (decrypt_inverts_encrypt (P := Whole.platform)
              failing_codec Base64.btoa Base64.atob
              (VStr (lit "hello")) Samples.hello_stored) as [H _].
  - exact Base64Facts.atob_btoa.
  - reflexivity.
  - exact H.
Defined.

Lemma setItem_getItem_round_trip_witness :
  getItem (P := Whole.platform) Samples.json_whole_number Base64.atob
    Samples.adapter (lit "note") true
    (snd (setItem (P := Whole.platform) failing_codec Base64.btoa
            Samples.adapter (lit "note") (VStr (lit "hello")) true
            Samples.shared_store))
  = inr (VStr (lit "hello"))
  /\
  getItem (P := Whole.platform) Samples.json_whole_number Base64.atob
    Samples.adapter (lit "score") false
    (snd (setItem (P := Whole.platform) failing_codec Base64.btoa
            Samples.adapter (lit "score") (VStr (lit "42")) false
            Samples.shared_store))
  = inr (Whole.number 42).
Proof.
  split.
  - apply (setItem_getItem_round_trip (P := Whole.platform)
             failing_codec Samples.json_whole_number Base64.btoa Base64.atob
             Samples.adapter (lit "note") (VStr (lit "hello")) true
             Samples.shared_store).
    + intros _. exact Base64Facts.atob_btoa.
    + reflexivity.
  - apply (setItem_getItem_round_trip (P := Whole.platform)
             failing_codec Samples.json_whole_number Base64.btoa Base64.atob
             Samples.adapter (lit "score") (VStr (lit "42")) false
             Samples.shared_store).
    + discriminate.
    + reflexivity.
Defined.

Lemma setItem_touches_one_key_witness :
  ls_getItem (lit "theme")
    (snd (setItem (P := Whole.platform) failing_codec Base64.btoa
            Samples.adapter (lit "lang") (VStr (lit "en")) false
            Samples.shared_store))
  = ls_getItem (lit "theme") Samples.shared_store.
Proof.
  apply (setItem_touches_one_key (P := Whole.platform)
           failing_codec Base64.btoa
           Samples.adapter (lit "lang") (VStr (lit "en")) false
           Samples.shared_store _ (inr true)).
  - reflexivity.
  - discriminate.
Defined.

Lemma removeItem_forgets_the_key_witness :
  getItem (P := Whole.platform) Samples.json_whole_number Base64.atob
    Samples.adapter (lit "lang") false
    (snd (removeItem Samples.adapter (lit "lang") Samples.shared_store))
  = inr VNull.
Proof.
  apply (removeItem_forgets_the_key (P := Whole.platform)
           Samples.json_whole_number Base64.atob
           Samples.adapter (lit "lang") Samples.shared_store _ (inr true));
    reflexivity.
Defined.

Lemma clear_removes_owned_keys_witness :
  clear Samples.adapter Samples.shared_store
    = (inr true, Samples.cleared_store).
Proof.
  apply (clear_removes_owned_keys Samples.adapter Samples.shared_store);
    reflexivity.
Defined.

Lemma checkAvailability_probe_witness :
  fst (checkAvailability Samples.shared_store) = true
  /\ ls_getItem storage_probe (snd (checkAvailability Samples.shared_store))
     = inr None
  /\ ls_getItem storage_probe Samples.shared_store = inr (Some (lit "mine")).
Proof.
  split; [reflexivity|]. split; [|reflexivity].
  apply (checkAvailability_probe Samples.shared_store _ true);
    reflexivity.
Defined.

End StorageFacts.

(* ================================================================== *)
(** * Further properties: SecureValidator.validateAndSanitize *)
(* ================================================================== *)

Module SecureValidatorFacts.
Import JS Runtime Security.

Lemma Forall_firstn {A} (Q : A -> Prop) : forall n l,
  Forall Q l -> Forall Q (firstn n l).
Proof.
  induction n as [|n IH]; intros l H; [constructor|].
  destruct H as [|x l Hx Hl]; [constructor|].
  cbn [firstn]. constructor; auto.
Qed.

(** What the length limits do to a text. *)
Lemma apply_limits_spec (text : jstring) (options : LengthOptions) :
  let r := apply_limits text options in
  (isValid r = true <-> error r = None)
  /\ (Z.of_nat (length (sanitized r))
        <= Z.max 0 (or_default (opt_maxLength options) 10000))%Z
  /\ (exists n, sanitized r = firstn n text)
  /\ (isValid r = true ->
        sanitized r = text
        /\ (or_default (opt_minLength options) 0 <= Z.of_nat (length text)
            <= or_default (opt_maxLength options) 10000)%Z).
Proof.
  unfold apply_limits.
  destruct (Z.ltb_spec (or_default (opt_maxLength options) 10000)
                       (Z.of_nat (length text))) as [Hlong|Hfits].
  - cbn [isValid error sanitized]. repeat split; try discriminate.
    + rewrite length_firstn. lia.
    + eexists. reflexivity.
  - destruct (Z.ltb_spec (Z.of_nat (length text))
                         (or_default (opt_minLength options) 0)) as [Hshort|Hok];
      cbn [isValid error sanitized]; repeat split; try discriminate; try lia;
      try (exists (length text); symmetry; apply firstn_all).
Qed.

(** A greedy run of one character class consumes a prefix of that class. *)
Lemma rmatch_class_star_sound {A} (p : N -> bool) (k : jstring -> option A) a :
  forall n s,
  iterate true (fun s0 k0 => rmatch (Chr p) s0 k0) n s k = Some a ->
  exists pre rest,
    s = pre ++ rest /\ Forall (fun c => p c = true) pre /\ k rest = Some a.
Proof.
  induction n as [|n IH]; intros s H.
  - exists [], s. auto.
  - cbn [iterate rmatch] in H.
    destruct s as [|c s'].
    + exists [], []. auto.
    + destruct (p c) eqn:Hc.
      * destruct (length s' <? length (c :: s'))%nat.
        -- destruct (iterate true _ n s' k) as [a'|] eqn:Hi.
           ++ injection H as <-.
              destruct (IH s' Hi) as (pre & rest & -> & Hp & Hk).
              exists (c :: pre), rest. auto.
           ++ exists [], (c :: s'). auto.
        -- exists [], (c :: s'). auto.
      * exists [], (c :: s'). auto.
Qed.

Lemma rmatch_class_plus_sound {A} (p : N -> bool) (k : jstring -> option A) a s :
  rmatch (Plus (Chr p)) s k = Some a ->
  exists pre rest,
    s = pre ++ rest /\ pre <> [] /\ Forall (fun c => p c = true) pre
    /\ k rest = Some a.
Proof.
  unfold Plus. cbn [rmatch]. destruct s as [|c s']; [discriminate|].
  destruct (p c) eqn:Hc; [|discriminate].
  intros H. apply rmatch_class_star_sound in H.
  destruct H as (pre & rest & -> & Hp & Hk).
  exists (c :: pre), rest. repeat split; auto. discriminate.
Qed.

(** What the expression for e-mail addresses accepts. *)
Lemma email_format_sound s :
  full_match email_format s = true ->
  exists l d t,
    s = l ++ 64%N :: d ++ 46%N :: t
    /\ l <> [] /\ d <> [] /\ t <> []
    /\ Forall (fun c => email_char c = true) (l ++ d ++ t).
Proof.
  unfold full_match, email_format, email_part. cbn [cat].
  destruct (rmatch _ s _) as [[]|] eqn:H; [intros _|discriminate].
  cbn [rmatch] in H.
  change (rmatch (Chr email_char) s
            (fun s1 => rmatch (Star (Chr email_char)) s1
               (fun s2 => rmatch (chr 64) s2
                  (fun s3 => rmatch (Plus (Chr email_char)) s3
                     (fun s4 => rmatch (chr 46) s4
                        (fun s5 => rmatch (Plus (Chr email_char)) s5
                           (fun rest => match rest with
                                        | [] => Some tt
                                        | _ :: _ => None
                                        end))))))
          = Some tt)
    with (rmatch (Plus (Chr email_char)) s
            (fun s2 => rmatch (chr 64) s2
               (fun s3 => rmatch (Plus (Chr email_char)) s3
                  (fun s4 => rmatch (chr 46) s4
                     (fun s5 => rmatch (Plus (Chr email_char)) s5
                        (fun rest => match rest with
                                     | [] => Some tt
                                     | _ :: _ => None
                                     end)))))
          = Some tt) in H.
  apply rmatch_class_plus_sound in H.
  destruct H as (l & r1 & -> & Hl & Fl & H).
  cbn [rmatch chr] in H. destruct r1 as [|c1 r1]; [discriminate|].
  destruct (N.eqb_spec 64 c1) as [<-|]; [|discriminate].
  apply rmatch_class_plus_sound in H.
  destruct H as (d & r2 & -> & Hd & Fd & H).
  cbn [rmatch chr] in H. destruct r2 as [|c2 r2]; [discriminate|].
  destruct (N.eqb_spec 46 c2) as [<-|]; [|discriminate].
  apply rmatch_class_plus_sound in H.
  destruct H as (t & r3 & -> & Ht & Ft & H).
  destruct r3; [|discriminate].
  exists l, d, t. rewrite app_nil_r. repeat split; auto.
  apply Forall_app. split; [exact Fl|]. apply Forall_app. auto.
Qed.

(** What the expression for dates accepts. *)
Lemma date_format_sound s :
  full_match date_format s = true ->
  exists y1 y2 y3 y4 m1 m2 d1 d2,
    s = [y1; y2; y3; y4; 45; m1; m2; 45; d1; d2]%N
    /\ forallb is_digit [y1; y2; y3; y4; m1; m2; d1; d2] = true.
Proof.
  unfold full_match, date_format, digit, chr. cbn [cat rmatch].
  destruct s as [|y1 s]; [discriminate|].
  destruct (is_digit y1) eqn:Hy1; [|discriminate].
  destruct s as [|y2 s]; [discriminate|].
  destruct (is_digit y2) eqn:Hy2; [|discriminate].
  destruct s as [|y3 s]; [discriminate|].
  destruct (is_digit y3) eqn:Hy3; [|discriminate].
  destruct s as [|y4 s]; [discriminate|].
  destruct (is_digit y4) eqn:Hy4; [|discriminate].
  destruct s as [|h1 s]; [discriminate|].
  destruct (N.eqb_spec 45 h1) as [<-|]; [|discriminate].
  destruct s as [|m1 s]; [discriminate|].
  destruct (is_digit m1) eqn:Hm1; [|discriminate].
  destruct s as [|m2 s]; [discriminate|].
  destruct (is_digit m2) eqn:Hm2; [|discriminate].
  destruct s as [|h2 s]; [discriminate|].
  destruct (N.eqb_spec 45 h2) as [<-|]; [|discriminate].
  destruct s as [|d1 s]; [discriminate|].
  destruct (is_digit d1) eqn:Hd1; [|discriminate].
  destruct s as [|d2 s]; [discriminate|].
  destruct (is_digit d2) eqn:Hd2; [|discriminate].
  destruct s; [|discriminate]. intros _.
  exists y1, y2, y3, y4, m1, m2, d1, d2. split; [reflexivity|].
  cbn [forallb]. rewrite Hy1, Hy2, Hy3, Hy4, Hm1, Hm2, Hd1, Hd2. reflexivity.
Qed.

Section Validator.
Context {P : Platform}.
Variable toLowerCase : jstring -> jstring.

(** The two ways the function returns: a rejection with an empty text,
    or the length limits applied to the text the type calls for. *)
Lemma validateAndSanitize_cases
    (input : value) (type : ValidationInputType) (options : LengthOptions) :
  (exists e, validateAndSanitize toLowerCase input type options = rejected e)
  \/ (input <> VNull /\ input <> VUndefined
      /\ containsMaliciousContent (VStr (ToString input)) = false
      /\ exists text,
           validateAndSanitize toLowerCase input type options
             = apply_limits text options
           /\ match type with
              | TypeText | TypeOther =>
                  text = sanitizeInput (VStr (ToString input))
              | TypeHtml => text = sanitizeHTML (VStr (ToString input))
              | TypeNumber =>
                  text = replace_all (Chr (fun c => negb (numeric_char c))) []
                           (ToString input)
              | TypeDate =>
                  text = ToString input /\ full_match date_format text = true
              | TypeEmail =>
                  text = trim (toLowerCase (ToString input))
                  /\ full_match email_format text = true
              end).
Proof.
  destruct (match input with VNull | VUndefined => true | _ => false end)
    eqn:Hmissing.
  { left. exists InputRequired. destruct input; try discriminate; reflexivity. }
  assert (Hn : input <> VNull) by (intros ->; discriminate).
  assert (Hu : input <> VUndefined) by (intros ->; discriminate).
  assert (Hbody :
    validateAndSanitize toLowerCase input type options =
      if containsMaliciousContent (VStr (ToString input))
      then rejected MaliciousContent
      else
        match type with
        | TypeText | TypeOther =>
            apply_limits (sanitizeInput (VStr (ToString input))) options
        | TypeHtml =>
            apply_limits (sanitizeHTML (VStr (ToString input))) options
        | TypeNumber =>
            apply_limits
              (replace_all (Chr (fun c => negb (numeric_char c))) []
                 (ToString input)) options
        | TypeDate =>
            if negb (full_match date_format (ToString input))
            then rejected InvalidDateFormat
            else apply_limits (ToString input) options
        | TypeEmail =>
            if negb (full_match email_format
                       (trim (toLowerCase (ToString input))))
            then rejected InvalidEmailFormat
            else apply_limits (trim (toLowerCase (ToString input))) options
        end).
  { destruct input; try discriminate; reflexivity. }
  rewrite Hbody.
  destruct (containsMaliciousContent (VStr (ToString input))) eqn:Hm;
    [left; eexists; reflexivity|].
  destruct type.
  - right. do 3 (split; [first [assumption|reflexivity]|]).
    eexists. split; reflexivity.
  - right. do 3 (split; [first [assumption|reflexivity]|]).
    eexists. split; reflexivity.
  - right. do 3 (split; [first [assumption|reflexivity]|]).
    eexists. split; reflexivity.
  - destruct (full_match date_format (ToString input)) eqn:Hf; cbn [negb];
      [|left; eexists; reflexivity].
    right. do 3 (split; [first [assumption|reflexivity]|]).
    eexists. split; [reflexivity|]. auto.
  - destruct (full_match email_format (trim (toLowerCase (ToString input))))
      eqn:Hf; cbn [negb]; [|left; eexists; reflexivity].
    right. do 3 (split; [first [assumption|reflexivity]|]).
    eexists. split; [reflexivity|]. auto.
  - right. do 3 (split; [first [assumption|reflexivity]|]).
    eexists. split; reflexivity.
Qed.

(** X10 (validateAndSanitize): a result is valid exactly when it
    carries no error; the sanitized text is never longer than the maximum
    in force, valid or not; and a valid result comes from an input that
    is neither null nor undefined, whose text passed the screening, and
    its sanitized text has a length between the two limits in force,
    where a limit that is absent or zero counts as 10000 for the maximum
    and as 0 for the minimum. *)
Theorem validateAndSanitize_valid
    (input : value) (type : ValidationInputType) (options : LengthOptions) :
  let r := validateAndSanitize toLowerCase input type options in
  (isValid r = true <-> error r = None)
  /\ (Z.of_nat (length (sanitized r))
        <= Z.max 0 (or_default (opt_maxLength options) 10000))%Z
  /\ (isValid r = true ->
        input <> VNull /\ input <> VUndefined
        /\ containsMaliciousContent (VStr (ToString input)) = false
        /\ (or_default (opt_minLength options) 0
              <= Z.of_nat (length (sanitized r))
              <= or_default (opt_maxLength options) 10000)%Z).
Proof.
  cbv zeta.
  destruct (validateAndSanitize_cases input type options)
    as [[e ->]|(Hn & Hu & Hm & text & -> & _)].
  - cbn. repeat split; try discriminate. lia.
  - destruct (apply_limits_spec text options) as (Ha & Hb & _ & Hd).
    split; [exact Ha|]. split; [exact Hb|].
    intros Hv. destruct (Hd Hv) as [-> Hlen]. auto.
Qed.

(** X11 (validateAndSanitize): whatever the input and whether the
    result is valid or not, the sanitized text of the types text and html
    and of an unknown type has no angle bracket, and that of the type
    number consists of digits, dots and minus signs. *)
Theorem validateAndSanitize_alphabet
    (input : value) (options : LengthOptions) :
  Forall not_angle
    (sanitized (validateAndSanitize toLowerCase input TypeText options))
  /\ Forall not_angle
       (sanitized (validateAndSanitize toLowerCase input TypeOther options))
  /\ Forall not_angle
       (sanitized (validateAndSanitize toLowerCase input TypeHtml options))
  /\ forallb numeric_char
       (sanitized (validateAndSanitize toLowerCase input TypeNumber options))
     = true.
Proof.
  assert (Hfirst : forall (Q : N -> Prop) text,
            Forall Q text -> Forall Q (sanitized (apply_limits text options))).
  { intros Q text HQ.
    destruct (apply_limits_spec text options) as (_ & _ & [n ->] & _).
    apply Forall_firstn. exact HQ. }
  assert (Hinput : forall s, Forall not_angle (sanitizeInput (VStr s))).
  { intros s. cbn [sanitizeInput].
    apply JSFacts.Forall_trim, SecurityFacts.sanitize_passes_no_angle. }
  split; [|split; [|split]].
  - destruct (validateAndSanitize_cases input TypeText options)
      as [[e ->]|(_ & _ & _ & text & -> & ->)]; [constructor|].
    apply Hfirst, Hinput.
  - destruct (validateAndSanitize_cases input TypeOther options)
      as [[e ->]|(_ & _ & _ & text & -> & ->)]; [constructor|].
    apply Hfirst, Hinput.
  - destruct (validateAndSanitize_cases input TypeHtml options)
      as [[e ->]|(_ & _ & _ & text & -> & ->)]; [constructor|].
    apply Hfirst, SecurityManagerFacts.escape_html_no_angle.
  - destruct (validateAndSanitize_cases input TypeNumber options)
      as [[e ->]|(_ & _ & _ & text & -> & ->)]; [reflexivity|].
    apply forallb_forall. apply Forall_forall. apply Hfirst.
    pose proof (JSFacts.replace_all_class_nil
                  (fun c => negb (numeric_char c)) (ToString input)) as H.
    revert H. apply Forall_impl. intros c Hc.
    apply negb_false_iff in Hc. exact Hc.
Qed.

(** X12 (validateAndSanitize): a valid result of the type date returns
    the text of the input unchanged, and that text is four digits, a
    hyphen, two digits, a hyphen and two digits; a valid result of the
    type email returns the lowered and trimmed text, and that text is a
    local part, an at sign, a domain, a dot and an ending, the three of
    them not empty and free of white space and of further at signs. *)
Theorem validateAndSanitize_shapes
    (input : value) (options : LengthOptions) :
  (isValid (validateAndSanitize toLowerCase input TypeDate options) = true ->
     sanitized (validateAndSanitize toLowerCase input TypeDate options)
       = ToString input
     /\ exists y1 y2 y3 y4 m1 m2 d1 d2,
          ToString input = [y1; y2; y3; y4; 45; m1; m2; 45; d1; d2]%N
          /\ forallb is_digit [y1; y2; y3; y4; m1; m2; d1; d2] = true)
  /\
  (isValid (validateAndSanitize toLowerCase input TypeEmail options) = true ->
     sanitized (validateAndSanitize toLowerCase input TypeEmail options)
       = trim (toLowerCase (ToString input))
     /\ exists l d t,
          trim (toLowerCase (ToString input)) = l ++ 64%N :: d ++ 46%N :: t
          /\ l <> [] /\ d <> [] /\ t <> []
          /\ Forall (fun c => email_char c = true) (l ++ d ++ t)).
Proof.
  split; intros Hv.
  - destruct (validateAndSanitize_cases input TypeDate options)
      as [[e He]|(_ & _ & _ & text & He & -> & Hf)];
      rewrite He in Hv |- *; [discriminate|].
    destruct (apply_limits_spec (ToString input) options) as (_ & _ & _ & Hd).
    destruct (Hd Hv) as [-> _]. split; [reflexivity|].
    apply date_format_sound. exact Hf.
  - destruct (validateAndSanitize_cases input TypeEmail options)
      as [[e He]|(_ & _ & _ & text & He & -> & Hf)];
      rewrite He in Hv |- *; [discriminate|].
    destruct (apply_limits_spec (trim (toLowerCase (ToString input))) options)
      as (_ & _ & _ & Hd).
    destruct (Hd Hv) as [-> _]. split; [reflexivity|].
    apply email_format_sound. exact Hf.
Qed.

End Validator.

Lemma validateAndSanitize_valid_witness :
  isValid (validateAndSanitize (P := Whole.platform) lower_ascii
             (VStr (lit "  hello <b> ")) TypeText
             {| opt_maxLength := None; opt_minLength := Some 3%Z |}) = true
  /\ (3 <= Z.of_nat (length (sanitized
             (validateAndSanitize (P := Whole.platform) lower_ascii
                (VStr (lit "  hello <b> ")) TypeText
                {| opt_maxLength := None; opt_minLength := Some 3%Z |})))
      <= 10000)%Z.
Proof.
  split; [reflexivity|].
  apply (validateAndSanitize_valid (P := Whole.platform) lower_ascii
           (VStr (lit "  hello <b> ")) TypeText
           {| opt_maxLength := None; opt_minLength := Some 3%Z |}).
  reflexivity.
Defined.

Lemma validateAndSanitize_shapes_witness :
  (exists y1 y2 y3 y4 m1 m2 d1 d2,
     lit "2023-02-30" = [y1; y2; y3; y4; 45; m1; m2; 45; d1; d2]%N
     /\ forallb is_digit [y1; y2; y3; y4; m1; m2; d1; d2] = true)
  /\ sanitized (validateAndSanitize (P := Whole.platform) lower_ascii
                  (VStr (lit "  Ann@Example.org ")) TypeEmail
                  {| opt_maxLength := None; opt_minLength := None |})
     = lit "ann@example.org".
Proof.
  split.
  - apply (validateAndSanitize_shapes (P := Whole.platform) lower_ascii
             (VStr (lit "2023-02-30"))
             {| opt_maxLength := None; opt_minLength := None |}).
    reflexivity.
  - apply (validateAndSanitize_shapes (P := Whole.platform) lower_ascii
             (VStr (lit "  Ann@Example.org "))
             {| opt_maxLength := None; opt_minLength := None |}).
    reflexivity.
Defined.

End SecureValidatorFacts.

(* ================================================================== *)
(** * Further properties: the rate limiter over any history *)
(* ================================================================== *)

Module SlidingWindowFacts.
Import RateLimiter.
Local Open Scope Z_scope.

(** What the eviction drops is older than the window. *)
Lemma evict_split timeWindow now : forall calls,
  exists gone,
    calls = gone ++ evict timeWindow now calls
    /\ Forall (fun t => t < now - timeWindow) gone.
Proof.
  induction calls as [|c rest IH].
  - exists []. split; [reflexivity|constructor].
  - cbn [evict]. destruct (Z.ltb_spec c (now - timeWindow)) as [Hc|Hc].
    + destruct IH as (gone & Hg & Hf). exists (c :: gone). split.
      * cbn [app]. f_equal. exact Hg.
      * constructor; assumption.
    + exists []. split; [reflexivity|constructor].
Qed.

Lemma count_in_window_app timeWindow s a b :
  count_in_window timeWindow s (a ++ b) =
    (count_in_window timeWindow s a + count_in_window timeWindow s b)%nat.
Proof. unfold count_in_window. rewrite filter_app, length_app. reflexivity. Qed.

Lemma count_in_window_le timeWindow s a :
  (count_in_window timeWindow s a <= length a)%nat.
Proof. apply filter_length_le. Qed.

Lemma count_in_window_before timeWindow s a :
  Forall (fun t => t < s) a -> count_in_window timeWindow s a = 0%nat.
Proof.
  unfold count_in_window. induction 1 as [|t a Ht _ IH]; [reflexivity|].
  cbn [filter]. destruct (Z.leb_spec s t); [lia|]. exact IH.
Qed.

Lemma nondecreasing_head t rest :
  nondecreasing (t :: rest) ->
  nondecreasing rest /\ forall u, In u rest -> t <= u.
Proof.
  revert t. induction rest as [|t2 rest IH]; intros t H.
  - split; [exact I|]. intros u [].
  - destruct H as [Ht H]. split; [exact H|].
    intros u [<-|Hu]; [exact Ht|].
    destruct (IH t2 H) as [_ Hle]. specialize (Hle u Hu). lia.
Qed.

Section Limiter.
Variables World T : Type.
Variable maxCalls timeWindow : Z.
Variable fn : operation World T.

(** The invariant: the executed calls are the recorded ones preceded by
    calls that the clock has left behind for good. *)
Lemma sliding_window_invariant : forall times calls w ex gone last,
  nondecreasing times ->
  (forall t, In t times -> last <= t) ->
  ex = gone ++ calls ->
  Forall (fun t => t < last - timeWindow) gone ->
  (forall s, Z.of_nat (count_in_window timeWindow s ex) <= Z.max 0 maxCalls) ->
  forall s,
    Z.of_nat (count_in_window timeWindow s
                (ex ++ executed_times times
                         (fst (invoke_all maxCalls timeWindow fn times
                                 (calls, w)))))
    <= Z.max 0 maxCalls.
Proof.
  induction times as [|now rest IH];
    intros calls w ex gone last Hnd Hlast Hex Hgone Hcount s.
  - cbn. rewrite app_nil_r. apply Hcount.
  - apply nondecreasing_head in Hnd. destruct Hnd as [Hnd Hnow].
    assert (Hle : last <= now) by (apply Hlast; left; reflexivity).
    destruct (evict_split timeWindow now calls) as (gone2 & Hcalls & Hgone2).
    assert (Hgone' : Forall (fun t => t < now - timeWindow) (gone ++ gone2)).
    { apply Forall_app. split; [|exact Hgone2].
      revert Hgone. apply Forall_impl. intros t Ht. lia. }
    cbn [invoke_all]. unfold invoke. cbn [fst snd].
    destruct (Z.geb_spec (Z.of_nat (length (evict timeWindow now calls)))
                         maxCalls) as [Hfull|Hroom].
    + destruct (invoke_all maxCalls timeWindow fn rest
                  (evict timeWindow now calls, w)) as [os st2] eqn:Hrest.
      cbn [fst executed_times].
      change os with (fst (os, st2)). rewrite <- Hrest.
      apply (IH _ w ex (gone ++ gone2) now); auto.
      rewrite Hex, Hcalls at 1. rewrite app_assoc. reflexivity.
    + destruct (fn w) as [r w'].
      destruct (invoke_all maxCalls timeWindow fn rest
                  (evict timeWindow now calls ++ [now], w')) as [os st2]
        eqn:Hrest.
      cbn [fst executed_times].
      change os with (fst (os, st2)). rewrite <- Hrest.
      change (now :: executed_times rest
                (fst (invoke_all maxCalls timeWindow fn rest
                        (evict timeWindow now calls ++ [now], w'))))
        with ([now] ++ executed_times rest
                (fst (invoke_all maxCalls timeWindow fn rest
                        (evict timeWindow now calls ++ [now], w')))).
      rewrite app_assoc.
      apply (IH _ w' (ex ++ [now]) (gone ++ gone2) now); auto.
      * rewrite Hex, Hcalls at 1. rewrite !app_assoc. reflexivity.
      * intros s0. rewrite count_in_window_app.
        unfold count_in_window at 2. cbn [filter].
        destruct ((s0 <=? now) && (now <=? s0 + timeWindow)) eqn:Hin.
        -- apply andb_prop in Hin. destruct Hin as [H1 H2].
           apply Z.leb_le in H1, H2.
           rewrite Hex, Hcalls, app_assoc, count_in_window_app.
           rewrite count_in_window_before.
           2:{ revert Hgone'. apply Forall_impl. intros t Ht. lia. }
           pose proof (count_in_window_le timeWindow s0
                         (evict timeWindow now calls)).
           cbn [length]. lia.
        -- cbn [length]. specialize (Hcount s0). lia.
Qed.

End Limiter.

(** X13 (createRateLimiter): with a clock that never goes back, and
    whatever the quota, the window and the times of the calls, no
    interval of the length of the window ever contains more executed
    calls than the quota allows, a quota below zero counting as zero. *)
Theorem rate_limiter_sliding_window
    {World T : Type} (maxCalls timeWindow : Z) (fn : operation World T)
    (times : list Z) (w0 : World) (s : Z) :
  nondecreasing times ->
  Z.of_nat (count_in_window timeWindow s
              (executed_times times
                 (fst (invoke_all maxCalls timeWindow fn times (fresh w0)))))
  <= Z.max 0 maxCalls.
Proof.
  intros Hnd.
  destruct times as [|t0 rest]; [cbn; lia|].
  apply (sliding_window_invariant World T maxCalls timeWindow fn
           (t0 :: rest) [] w0 [] [] t0 Hnd).
  - intros t [<-|Ht]; [lia|].
    apply nondecreasing_head in Hnd. destruct Hnd as [_ H]. apply H, Ht.
  - reflexivity.
  - constructor.
  - intros s0. cbn. lia.
Qed.

Lemma rate_limiter_sliding_window_witness :
  Z.of_nat (count_in_window 1000 5
              (executed_times [0; 10; 20; 1000; 1005; 1011]
                 (fst (invoke_all 2 1000 counting
                         [0; 10; 20; 1000; 1005; 1011] (fresh 0%nat)))))
  <= Z.max 0 2.
Proof.
  apply (rate_limiter_sliding_window 2 1000 counting
           [0; 10; 20; 1000; 1005; 1011] 0%nat 5).
  cbn. lia.
Defined.

(** The clock must not go back for this: after a jump ahead and back,
    three calls run between 100 and 110 under a quota of two per ten. *)
Example rate_limiter_clock_set_back :
  count_in_window 10 100
    (executed_times [100; 105; 300; 106]
       (fst (invoke_all 2 10 counting [100; 105; 300; 106] (fresh 0%nat))))
  = 3%nat.
Proof. reflexivity. Qed.

End SlidingWindowFacts.

(* ================================================================== *)
(** * Further properties: withRetry over any operation *)
(* ================================================================== *)

Module RetryRunFacts.
Import Retry.
Local Open Scope Z_scope.

Section WithRetry.
Variables World E T : Type.
Variable op : operation World E T.
Variable maxRetries : Z.
Variable delay : Z.

Lemma total_wait_backoff_schedule : forall n a,
  1 <= a ->
  total_wait (backoff_schedule delay a (S n)) =
    delay * 2 ^ (a - 1) * (2 ^ Z.of_nat n - 1).
Proof.
  induction n as [|n IH]; intros a Ha.
  - cbn. lia.
  - rewrite RetryFacts.backoff_schedule_step.
    unfold total_wait, waits in *. cbn [flat_map app fold_right].
    rewrite IH by lia.
    replace (a + 1 - 1) with (Z.succ (a - 1)) by lia.
    rewrite Nat2Z.inj_succ, !Z.pow_succ_r by lia. ring.
Qed.

(** A run of the loop that is entered: it invokes the operation some
    [n] times, all but the last failing. *)
Lemma attempts_run : forall rem attempt lastError w,
  Z.of_nat rem = maxRetries - attempt + 1 ->
  (1 <= rem)%nat ->
  exists n,
    (1 <= n <= rem)%nat
    /\ snd (attempts op maxRetries delay rem attempt lastError w)
         = backoff_schedule delay attempt n
    /\ snd (fst (attempts op maxRetries delay rem attempt lastError w))
         = world_after op n w
    /\ (forall j, (1 <= j < n)%nat -> exists e, nth_outcome op j w = inl e)
    /\ match fst (fst (attempts op maxRetries delay rem attempt lastError w)) with
       | Return v => nth_outcome op n w = inr v
       | Throw (Some e) => n = rem /\ nth_outcome op n w = inl e
       | Throw None => False
       end.
Proof.
  induction rem as [|rem IH]; intros attempt lastError w Hrem Hpos; [lia|].
  assert (Hfirst : forall r w1, op w = (r, w1) -> nth_outcome op 1 w = r).
  { intros r w1 Hop. unfold nth_outcome. cbn. rewrite Hop. reflexivity. }
  cbn [attempts].
  destruct (Z.leb_spec attempt maxRetries); [|lia].
  destruct (op w) as [[e|v] w1] eqn:Hop.
  - destruct (Z.eqb_spec attempt maxRetries) as [Heq|Hne].
    + exists 1%nat. cbn [fst snd].
      split; [lia|]. split; [reflexivity|].
      split; [cbn; rewrite Hop; reflexivity|].
      split; [intros j Hj; lia|].
      split; [lia|]. apply (Hfirst _ _ eq_refl).
    + destruct (IH (attempt + 1) (Some e) w1)
        as (n & Hn & Hev & Hw & Hfail & Hc); [lia|lia|].
      destruct (attempts op maxRetries delay rem (attempt + 1) (Some e) w1)
        as [[c w2] evs].
      cbn [fst snd] in *. exists (S n).
      assert (Hshift : forall j, (1 <= j)%nat ->
                nth_outcome op (S j) w = nth_outcome op j w1).
      { intros j Hj. rewrite RetryFacts.nth_outcome_shift by exact Hj.
        rewrite Hop. reflexivity. }
      split; [lia|]. split; [|split; [|split]].
      * destruct n as [|n]; [lia|].
        rewrite RetryFacts.backoff_schedule_step, Hev. reflexivity.
      * cbn [world_after]. rewrite Hop. exact Hw.
      * intros j Hj. destruct j as [|[|j]]; [lia| |].
        -- exists e. apply (Hfirst _ _ eq_refl).
        -- rewrite Hshift by lia. apply Hfail. lia.
      * destruct c as [v|[e'|]].
        -- rewrite Hshift by lia. exact Hc.
        -- destruct Hc as [-> Hc]. split; [reflexivity|].
           rewrite Hshift by lia. exact Hc.
        -- exact Hc.
  - exists 1%nat. cbn [fst snd].
    split; [lia|]. split; [reflexivity|].
    split; [cbn; rewrite Hop; reflexivity|].
    split; [intros j Hj; lia|].
    apply (Hfirst _ _ eq_refl).
Qed.

End WithRetry.

(** X14 (withRetry): with a number of attempts of zero or less the
    operation is never invoked, nothing is waited for, and what is thrown
    is the variable that was never assigned: undefined. *)
Theorem withRetry_without_attempts
    {World E T : Type} (op : operation World E T)
    (maxRetries delay : Z) (w : World) :
  maxRetries <= 0 ->
  withRetry op maxRetries delay w = (Throw None, w, []).
Proof.
  intros H. unfold withRetry.
  replace (Z.to_nat maxRetries) with 0%nat by lia. reflexivity.
Qed.

Lemma withRetry_without_attempts_witness :
  withRetry always_failing 0 1000 0%nat = (Throw None, 0%nat, []).
Proof.
  apply (withRetry_without_attempts always_failing 0 1000 0%nat). lia.
Defined.

(** X15 (withRetry): with at least one attempt allowed and whatever
    the operation does, it is invoked some n times, at least once and at
    most maxRetries times, each invocation but the last having failed;
    the events are n invocations with the doubling delays between them,
    the time waited in all being the base delay times 2^(n-1) - 1; a
    value returned is the value of the n-th invocation; an error thrown
    is the error of the last allowed invocation; and undefined is never
    thrown. *)
Theorem withRetry_runs
    {World E T : Type} (op : operation World E T)
    (maxRetries delay : Z) (w : World) :
  1 <= maxRetries ->
  exists n,
    (1 <= n <= Z.to_nat maxRetries)%nat
    /\ snd (withRetry op maxRetries delay w) = backoff_schedule delay 1 n
    /\ count_invocations (snd (withRetry op maxRetries delay w)) = n
    /\ total_wait (snd (withRetry op maxRetries delay w))
         = delay * (2 ^ (Z.of_nat n - 1) - 1)
    /\ snd (fst (withRetry op maxRetries delay w)) = world_after op n w
    /\ (forall j, (1 <= j < n)%nat -> exists e, nth_outcome op j w = inl e)
    /\ match fst (fst (withRetry op maxRetries delay w)) with
       | Return v => nth_outcome op n w = inr v
       | Throw (Some e) =>
           n = Z.to_nat maxRetries /\ nth_outcome op n w = inl e
       | Throw None => False
       end.
Proof.
  unfold withRetry. intros H.
  destruct (attempts_run World E T op maxRetries delay
              (Z.to_nat maxRetries) 1 None w)
    as (n & Hn & Hev & Hw & Hfail & Hc); [lia|lia|].
  exists n. split; [lia|]. split; [exact Hev|].
  split; [|split; [|split; [exact Hw|split; [exact Hfail|exact Hc]]]].
  - rewrite Hev. apply RetryFacts.count_backoff_schedule.
  - rewrite Hev. destruct n as [|n]; [lia|].
    rewrite total_wait_backoff_schedule by lia.
    replace (Z.of_nat (S n) - 1) with (Z.of_nat n) by lia.
    cbn. lia.
Qed.

Lemma withRetry_runs_witness :
  exists n,
    (1 <= n <= Z.to_nat 5)%nat
    /\ snd (withRetry third_time_lucky 5 1000 0%nat)
         = backoff_schedule 1000 1 n
    /\ count_invocations (snd (withRetry third_time_lucky 5 1000 0%nat)) = n
    /\ total_wait (snd (withRetry third_time_lucky 5 1000 0%nat))
         = 1000 * (2 ^ (Z.of_nat n - 1) - 1)
    /\ snd (fst (withRetry third_time_lucky 5 1000 0%nat))
         = world_after third_time_lucky n 0%nat
    /\ (forall j, (1 <= j < n)%nat ->
          exists e, nth_outcome third_time_lucky j 0%nat = inl e)
    /\ match fst (fst (withRetry third_time_lucky 5 1000 0%nat)) with
       | Return v => nth_outcome third_time_lucky n 0%nat = inr v
       | Throw (Some e) =>
           n = Z.to_nat 5 /\ nth_outcome third_time_lucky n 0%nat = inl e
       | Throw None => False
       end.
Proof.
  apply (withRetry_runs third_time_lucky 5 1000 0%nat). lia.
Defined.

End RetryRunFacts.

(* ================================================================== *)
(** * Further properties: the error log and the form validator *)
(* ================================================================== *)

Module ErrorHandlerFacts.
Import JS ErrorHandler.

Lemma slice_last_app {A} (n : nat) (X R : list A) :
  slice_last n (slice_last n X ++ R) = slice_last n (X ++ R).
Proof.
  unfold slice_last.
  destruct (Nat.le_gt_cases (length X) n) as [Hle|Hgt].
  - replace (length X - n)%nat with 0%nat by lia. reflexivity.
  - rewrite !length_app, length_skipn.
    replace (length X - (length X - n) + length R - n)%nat
      with (length R) by lia.
    replace (length X + length R - n)%nat
      with (length R + (length X - n))%nat by lia.
    rewrite <- skipn_skipn. f_equal.
    rewrite skipn_app.
    replace (length X - n - length X)%nat with 0%nat by lia.
    reflexivity.
Qed.

Section Log.
Variable Details : Type.

Lemma logError_slice env type (d : Details) errors :
  logError env type d errors =
    slice_last maxErrors (errors ++ [new_error env type d]).
Proof.
  unfold logError.
  destruct (Nat.ltb_spec maxErrors (length (errors ++ [new_error env type d])))
    as [H|H]; [reflexivity|].
  unfold slice_last.
  replace (length (errors ++ [new_error env type d]) - maxErrors)%nat
    with 0%nat by lia.
  reflexivity.
Qed.

Lemma log_all_slice (calls : list (Environment * jstring * Details)) :
  forall seen errors,
    errors = slice_last maxErrors seen ->
    log_all calls errors = slice_last maxErrors (seen ++ records_of calls).
Proof.
  induction calls as [|[[env type] d] calls IH]; intros seen errors ->.
  - cbn. rewrite app_nil_r. reflexivity.
  - cbn [log_all fold_left records_of map].
    change (fold_left _ calls ?e) with (log_all calls e).
    rewrite (IH (seen ++ [new_error env type d])).
    + rewrite <- app_assoc. reflexivity.
    + rewrite logError_slice. apply slice_last_app.
Qed.

(** X16 (logError): after any series of calls on a fresh handler the
    log holds the last hundred of the errors logged, in their order, or
    all of them when there are fewer; and on a log of at most a hundred
    errors one call keeps it at most a hundred long, puts the new error
    last and drops at most the oldest one. *)
Theorem logError_keeps_the_last_hundred
    (calls : list (Environment * jstring * Details)) :
  log_all calls [] = slice_last 100 (records_of calls)
  /\ length (log_all calls []) = Nat.min (length calls) 100
  /\ (forall env type (d : Details) errors,
        (length errors <= 100)%nat ->
        (length (logError env type d errors) <= 100)%nat
        /\ last (logError env type d errors) (new_error env type d)
             = new_error env type d
        /\ exists dropped,
             errors ++ [new_error env type d]
               = dropped ++ logError env type d errors
             /\ (length dropped <= 1)%nat).
Proof.
  assert (Hall : log_all calls [] = slice_last 100 (records_of calls)).
  { apply (log_all_slice calls [] []). reflexivity. }
  split; [exact Hall|]. split.
  - rewrite Hall. unfold slice_last, records_of.
    rewrite length_skipn, length_map. lia.
  - intros env type d errors Hlen.
    rewrite logError_slice. unfold slice_last, maxErrors.
    rewrite length_app. cbn [length].
    split; [rewrite length_skipn, length_app; cbn [length]; lia|].
    split.
    + rewrite skipn_app.
      replace (length errors + 1 - 100 - length errors)%nat with 0%nat by lia.
      cbn [skipn]. apply last_last.
    + exists (firstn (length errors + 1 - 100)
                (errors ++ [new_error env type d])).
      split; [symmetry; apply firstn_skipn|].
      rewrite length_firstn. lia.
Qed.

End Log.

Lemma logError_keeps_the_last_hundred_witness :
  length (log_all (repeat (Samples.browser, lit "Storage Error", lit "save") 150)
            [])
  = Nat.min (length (repeat (Samples.browser, lit "Storage Error", lit "save")
                       150)) 100
  /\ (length (logError Samples.browser (lit "Render Error") (lit "table") [])
      <= 100)%nat.
Proof.
  split.
  - apply (logError_keeps_the_last_hundred jstring
             (repeat (Samples.browser, lit "Storage Error", lit "save") 150)).
  - destruct (logError_keeps_the_last_hundred jstring []) as (_ & _ & H).
    apply (H Samples.browser (lit "Render Error") (lit "table") []).
    cbn. lia.
Defined.

End ErrorHandlerFacts.

Module FormValidatorFacts.
Import JS Runtime Validation.

Section Validators.
Context {P : Platform}.



End Validators.


End FormValidatorFacts.

(* ================================================================== *)
(** * Further properties: the collection of entries *)
(* ================================================================== *)

Module CollectionFacts.
Import JS Runtime Security App.
Import JSFacts SortFacts AppFacts.

Section Application.
Context {P : Platform}.

Lemma import_row_valid st rowStr :
  Forall (fun x => entry_valid x = true) (imp_entries st) ->
  Forall (fun x => entry_valid x = true) (imp_entries (import_row st rowStr)).
Proof.
  intros H. rewrite import_row_cases.
  destruct (row_blank rowStr); [exact H|].
  destruct (row_accepted rowStr) eqn:Ha; cbn [andb]; [|exact H].
  destruct (negb _); [|exact H].
  unfold imported. cbn [imp_entries]. apply Forall_app. split; [exact H|].
  constructor; [|constructor].
  unfold row_accepted in Ha. destruct (parseCSVRow rowStr) as [[[[? ?] ?] ?] ?].
  apply andb_prop in Ha. apply Ha.
Qed.

Lemma fold_import_valid rows : forall st,
  Forall (fun x => entry_valid x = true) (imp_entries st) ->
  Forall (fun x => entry_valid x = true)
         (imp_entries (fold_left import_row rows st)).
Proof.
  induction rows as [|r rows IH]; intros st H; [exact H|].
  cbn [fold_left]. apply IH, import_row_valid, H.
Qed.




Lemma import_row_counts st rowStr :
  exists added,
    imp_entries (import_row st rowStr) = imp_entries st ++ added
    /\ importedCount (import_row st rowStr)
         = (importedCount st + length added)%nat
    /\ (importedCount (import_row st rowStr)
        + skippedCount (import_row st rowStr)
        = importedCount st + skippedCount st
          + (if row_blank rowStr then 0 else 1))%nat
    /\ Forall (fun x => x = row_entry rowStr /\ row_blank rowStr = false
                        /\ row_accepted rowStr = true) added.
Proof.
  rewrite import_row_cases.
  destruct (row_blank rowStr).
  - exists []. rewrite app_nil_r. cbn [length].
    repeat split; try lia. constructor.
  - destruct (row_accepted rowStr); cbn [andb].
    + destruct (negb _).
      * exists [row_entry rowStr]. unfold imported.
        cbn [imp_entries importedCount skippedCount length].
        repeat split; try lia; repeat constructor.
      * exists []. rewrite app_nil_r. unfold skipped.
        cbn [imp_entries importedCount skippedCount length].
        repeat split; try lia; repeat constructor.
    + exists []. rewrite app_nil_r. unfold skipped.
      cbn [imp_entries importedCount skippedCount length].
      repeat split; try lia; repeat constructor.
Qed.

Lemma fold_import_counts rows : forall st,
  exists added,
    imp_entries (fold_left import_row rows st) = imp_entries st ++ added
    /\ importedCount (fold_left import_row rows st)
         = (importedCount st + length added)%nat
    /\ (importedCount (fold_left import_row rows st)
        + skippedCount (fold_left import_row rows st)
        = importedCount st + skippedCount st + count_nonblank rows)%nat
    /\ Forall (fun x => exists r, In r rows /\ x = row_entry r
                                  /\ row_blank r = false
                                  /\ row_accepted r = true) added.
Proof.
  induction rows as [|r rows IH]; intros st.
  - exists []. cbn. rewrite app_nil_r. repeat split; try lia. constructor.
  - cbn [fold_left].
    destruct (import_row_counts st r) as (a1 & E1 & C1 & S1 & F1).
    destruct (IH (import_row st r)) as (a2 & E2 & C2 & S2 & F2).
    exists (a1 ++ a2). split; [|split; [|split]].
    + rewrite E2, E1, app_assoc. reflexivity.
    + rewrite C2, C1, length_app. lia.
    + rewrite S2, S1. unfold count_nonblank. cbn [filter].
      destruct (row_blank r); cbn [negb length]; lia.
    + apply Forall_app. split.
      * revert F1. apply Forall_impl. intros x (-> & Hb & Ha).
        exists r. repeat split; auto. left. reflexivity.
      * revert F2. apply Forall_impl. intros x (r0 & Hin & Hx).
        exists r0. split; [right; exact Hin|exact Hx].
Qed.

Lemma validateScoreRange_number sc range :
  validateScoreRange sc range = true -> is_number sc = true.
Proof.
  destruct range as [[|c r]|]; destruct sc; try discriminate; reflexivity.
Qed.

(** The two catalogs have the same keys, and their ranges, once the
    digits are normalised, check a score alike. *)
Lemma catalog_ranges_agree k r_en :
  own_property k domains_en = Some r_en ->
  exists r_fa,
    own_property k domains_fa = Some r_fa
    /\ forall sc, validateScoreRange sc (Some r_fa)
                  = validateScoreRange sc (Some r_en).
Proof.
  unfold own_property, domains_en, domains_fa. cbn [assoc_get].
  repeat match goal with
  | |- context [jstring_eqb ?a k] =>
      destruct (jstring_eqb a k);
      [intros [= <-]; eexists; split; [reflexivity|];
       intros sc; destruct sc; reflexivity|]
  end.
  discriminate.
Qed.

Lemma range_in_supported k :
  match own_property k domains_en with
  | Some r_en =>
      range_in (lit "en") k = Some (Some r_en)
      /\ exists r_fa,
           range_in (lit "fa") k = Some (Some r_fa)
           /\ forall sc, validateScoreRange sc (Some r_fa)
                         = validateScoreRange sc (Some r_en)
  | None => True
  end.
Proof.
  destruct (own_property k domains_en) as [r_en|] eqn:Hen; [|exact I].
  destruct (catalog_ranges_agree k r_en Hen) as (r_fa & Hfa & Hsame).
  change (range_in (lit "en") k) with (domain_lookup domains_en k).
  change (range_in (lit "fa") k) with (domain_lookup domains_fa k).
  unfold domain_lookup. rewrite Hen, Hfa. split; [reflexivity|].
  exists r_fa. auto.
Qed.

End Application.

Section Sorting.
Context {P : Platform}.
Variable Array_sort : (LogEntry -> LogEntry -> Z) -> list LogEntry -> list LogEntry.
Variable toLowerCase : jstring -> jstring.

(** [addEntry], with the validation and the range check named. *)
Lemma addEntry_cases e app :
  addEntry Array_sort e app =
    if entry_valid e then
      match range_in (currentLanguage app) (ToString (domainKey e)) with
      | Some scoreRange =>
          if validateScoreRange (score e) scoreRange
          then (true, renderHistoryTable Array_sort
                        (with_entries app (entries app ++ [e])))
          else (false, app)
      | None => (true, renderHistoryTable Array_sort
                         (with_entries app (entries app ++ [e])))
      end
    else (false, app).
Proof.
  unfold addEntry, range_in, entry_valid.
  destruct (Validation.isValid _); cbn [negb]; [|reflexivity].
  destruct (translations_domains (currentLanguage app)) as [domains|];
    [|reflexivity].
  destruct (domain_lookup domains _) as [range|]; [|reflexivity].
  destruct (validateScoreRange (score e) range); reflexivity.
Qed.


(** X19 (addEntry, deleteEntry, importFromCSV): a collection in which
    every entry passes the validator stays so under the three operations
    that change it, whatever their arguments. Of [sort] this takes that
    it rearranges. *)
Theorem entries_stay_valid
    (e : LogEntry) (key : value) (file : option File) (app : AppState) :
  rearranges Array_sort ->
  Forall (fun x => entry_valid x = true) (entries app) ->
  Forall (fun x => entry_valid x = true)
         (entries (snd (addEntry Array_sort e app)))
  /\ Forall (fun x => entry_valid x = true)
            (entries (snd (deleteEntry Array_sort key app)))
  /\ (forall st, importFromCSV Array_sort toLowerCase file app = Some st ->
        Forall (fun x => entry_valid x = true) (imp_entries st)).
Proof.
  intros Hperm H.
  assert (Hdrawn : forall es,
            Forall (fun x => entry_valid x = true) es ->
            Forall (fun x => entry_valid x = true)
              (entries (renderHistoryTable Array_sort (with_entries app es)))).
  { intros es Hes. rewrite renderHistoryTable_entries.
    cbn [entries with_entries currentSort].
    exact (Permutation_Forall (Hperm _ es) Hes). }
  split; [|split].
  - rewrite addEntry_cases.
    destruct (entry_valid e) eqn:He; [|exact H].
    assert (Hadd : Forall (fun x => entry_valid x = true)
                     (entries (renderHistoryTable Array_sort
                                 (with_entries app (entries app ++ [e]))))).
    { apply Hdrawn. apply Forall_app. split; [exact H|].
      constructor; [exact He|constructor]. }
    destruct (range_in _ _) as [range|]; [|exact Hadd].
    destruct (validateScoreRange _ _); [exact Hadd|exact H].
  - assert (Hrest : Forall (fun x => entry_valid x = true)
                      (filter (fun entry => negb (strict_eq (id entry) key))
                              (entries app))).
    { apply Forall_forall. intros x Hx. apply filter_In in Hx.
      rewrite Forall_forall in H. apply H, Hx. }
    unfold deleteEntry. destruct (negb (truthy key)); [exact H|].
    destruct (_ <? _)%nat; cbn [snd].
    + apply Hdrawn, Hrest.
    + exact Hrest.
  - intros st Hst.
    destruct (importFromCSV_done _ _ _ _ _ Hst)
      as (f & text & _ & _ & _ & _ & Ht).
    rewrite import_text_cases in Ht.
    destruct (trim text); [discriminate|]. injection Ht as <-.
    cbn [imp_entries].
    apply (Permutation_Forall (Hperm _ _)).
    apply fold_import_valid. exact H.
Qed.


(** X21 (importFromCSV): nothing is done exactly when there is no file,
    the name of the file does not end in .csv once lowered, the file is
    larger than ten mebibytes, it cannot be read, or its text is blank;
    otherwise every row that is not blank is counted once, as imported or
    as skipped; at most maxImportRows rows are looked at; the collection
    is the sorted list of the entries that were there followed by the
    entries added, so it holds these and no others; and the entries added
    are as many as the imported count says, each the entry of a row that
    was accepted. Of [sort] this takes that it rearranges. *)
Theorem importFromCSV_accounting (file : option File) (app : AppState) :
  rearranges Array_sort ->
  (importFromCSV Array_sort toLowerCase file app = None <->
     file = None
     \/ exists f,
          file = Some f
          /\ (endsWith (lit ".csv") (toLowerCase (file_name f)) = false
              \/ (maxFileSize < file_size f)%Z
              \/ file_text f = None
              \/ exists text, file_text f = Some text /\ trim text = []))
  /\ (forall st, importFromCSV Array_sort toLowerCase file app = Some st ->
        exists f text,
          file = Some f /\ file_text f = Some text
          /\ (importedCount st + skippedCount st
                = count_nonblank (import_rows text))%nat
          /\ (length (import_rows text) <= maxImportRows)%nat
          /\ exists added,
               imp_entries st
               = Array_sort (compare_entries (currentSort app))
                   (entries app ++ added)
               /\ Permutation (entries app ++ added) (imp_entries st)
               /\ length added = importedCount st
               /\ Forall (fun x => exists r,
                            In r (import_rows text) /\ x = row_entry r
                            /\ row_blank r = false /\ row_accepted r = true)
                         added).
Proof.
  intros Hperm. split.
  - unfold importFromCSV. destruct file as [f|].
    2:{ split; [intros _; left; reflexivity|reflexivity]. }
    destruct (endsWith (lit ".csv") (toLowerCase (file_name f))) eqn:Hname;
      cbn [negb].
    2:{ split; [|reflexivity]. intros _. right. exists f. auto. }
    destruct (Z.ltb_spec maxFileSize (file_size f)) as [Hsize|Hsize].
    { split; [|reflexivity]. intros _. right. exists f. auto. }
    destruct (file_text f) as [text|] eqn:Htext.
    2:{ split; [|reflexivity]. intros _. right. exists f. auto. }
    rewrite import_text_cases.
    destruct (trim text) eqn:Hblank.
    + split; [|reflexivity]. intros _. right. exists f.
      split; [reflexivity|]. do 3 right. exists text. auto.
    + split; [discriminate|].
      intros [Hnone|(f' & [= <-] & [Hn|[Hs|[Ht|(t & Ht & Hb)]]])];
        try discriminate.
      * congruence.
      * lia.
      * congruence.
      * rewrite Htext in Ht. injection Ht as <-. congruence.
  - intros st Hst.
    destruct (importFromCSV_done _ _ _ _ _ Hst)
      as (f & text & Hfile & _ & _ & Htext & Ht).
    exists f, text. split; [exact Hfile|]. split; [exact Htext|].
    rewrite import_text_cases in Ht.
    destruct (trim text); [discriminate|]. injection Ht as <-.
    destruct (fold_import_counts (import_rows text)
                {| imp_entries := entries app; importedCount := 0;
                   skippedCount := 0 |}) as (added & E & C & S & F).
    cbn [imp_entries importedCount skippedCount] in E, C, S |- *.
    split; [rewrite S; lia|]. split.
    + unfold import_rows. rewrite length_firstn. apply Nat.le_min_l.
    + exists added. rewrite E. split; [reflexivity|].
      split; [apply Hperm|]. split; [lia|exact F].
Qed.

Lemma addEntry_supported e es sort :
  addEntry Array_sort e
    {| entries := es; currentLanguage := lit "fa"; currentSort := sort |}
  = (fst (addEntry Array_sort e
            {| entries := es; currentLanguage := lit "en";
               currentSort := sort |}),
     {| entries :=
          entries (snd (addEntry Array_sort e
                          {| entries := es; currentLanguage := lit "en";
                             currentSort := sort |}));
        currentLanguage := lit "fa";
        currentSort := sort |})
  /\ (fst (addEntry Array_sort e
             {| entries := es; currentLanguage := lit "en";
                currentSort := sort |}) = true ->
      is_number (score e) = true).
Proof.
  rewrite !addEntry_cases. cbn [currentLanguage entries with_entries].
  destruct (entry_valid e) eqn:Hv; [|split; [reflexivity|discriminate]].
  rewrite entry_valid_ok in Hv. unfold entry_ok in Hv.
  repeat (apply andb_prop in Hv; destruct Hv as [Hv ?]).
  assert (Hown : hasOwnDomain (domainKey e) = true).
  { match goal with H : _ && hasOwnDomain _ = true |- _ =>
      apply andb_prop in H; apply H end. }
  unfold hasOwnDomain in Hown.
  pose proof (range_in_supported (ToString (domainKey e))) as Hr.
  destruct (own_property (ToString (domainKey e)) domains_en) as [r_en|];
    [|discriminate].
  destruct Hr as (-> & r_fa & -> & Hsame). rewrite Hsame.
  destruct (validateScoreRange (score e) (Some r_en)) eqn:Hs;
    cbn [fst snd entries].
  - split; [reflexivity|]. intros _. apply (validateScoreRange_number _ _ Hs).
  - split; [reflexivity|discriminate].
Qed.

(** X22 (addEntry, validateScoreRange): in either of the two supported
    languages addEntry takes the same decision and leaves the same
    entries, the ranges of the Persian catalog, once their digits are
    normalised, checking a score like the English ones; and an entry it
    accepts has a score that is a number, not a numeric string. *)
Theorem addEntry_in_supported_languages
    (e : LogEntry) (lang : jstring) (app : AppState) :
  currentLanguage app = lit "en" \/ currentLanguage app = lit "fa" ->
  lang = lit "en" \/ lang = lit "fa" ->
  fst (addEntry Array_sort e
         {| entries := entries app; currentLanguage := lang;
            currentSort := currentSort app |})
    = fst (addEntry Array_sort e app)
  /\ entries (snd (addEntry Array_sort e
                     {| entries := entries app; currentLanguage := lang;
                        currentSort := currentSort app |}))
       = entries (snd (addEntry Array_sort e app))
  /\ (fst (addEntry Array_sort e app) = true -> is_number (score e) = true).
Proof.
  intros Hsup Hlang.
  assert (Hboth : forall l,
            l = lit "en" \/ l = lit "fa" ->
            fst (addEntry Array_sort e
                   {| entries := entries app; currentLanguage := l;
                      currentSort := currentSort app |})
              = fst (addEntry Array_sort e
                       {| entries := entries app; currentLanguage := lit "en";
                          currentSort := currentSort app |})
            /\ entries (snd (addEntry Array_sort e
                               {| entries := entries app; currentLanguage := l;
                                  currentSort := currentSort app |}))
                 = entries (snd (addEntry Array_sort e
                                   {| entries := entries app;
                                      currentLanguage := lit "en";
                                      currentSort := currentSort app |}))).
  { intros l [->| ->].
    - split; reflexivity.
    - destruct (addEntry_supported e (entries app) (currentSort app))
        as [-> _].
      split; reflexivity. }
  assert (Happ : app = {| entries := entries app;
                          currentLanguage := currentLanguage app;
                          currentSort := currentSort app |})
    by (destruct app; reflexivity).
  destruct (Hboth lang Hlang) as [H1 H2].
  destruct (Hboth (currentLanguage app) Hsup) as [H3 H4].
  rewrite <- Happ in H3, H4.
  split; [congruence|]. split; [congruence|].
  rewrite H3. destruct (addEntry_supported e (entries app) (currentSort app))
    as [_ H]. exact H.
Qed.

End Sorting.

Section Exported.
Context {P : Platform}.

Lemma sanitizeCSVValue_clean v :
  Forall (fun c => c <> 13 /\ c <> 10 /\ c <> 9)%N (sanitizeCSVValue v)
  /\ trim (sanitizeCSVValue v) = sanitizeCSVValue v.
Proof.
  assert (H : forall s,
    Forall (fun c => c <> 13 /\ c <> 10 /\ c <> 9)%N
      (trim (replace_all
               (Chr (fun c => (c =? 13)%N || (c =? 10)%N || (c =? 9)%N))
               (lit " ") s))).
  { intros s. apply Forall_trim. rewrite replace_all_class.
    induction s as [|c s IH]; cbn [flat_map]; [constructor|].
    apply Forall_app. split; [|exact IH].
    destruct (N.eqb_spec c 13); cbn [orb];
      [repeat constructor; discriminate|].
    destruct (N.eqb_spec c 10); cbn [orb];
      [repeat constructor; discriminate|].
    destruct (N.eqb_spec c 9); cbn [orb];
      [repeat constructor; discriminate|].
    repeat constructor; assumption. }
  unfold sanitizeCSVValue.
  destruct v.
  1,2: split; [constructor|reflexivity].
  all: split; [apply H|apply trim_idempotent].
Qed.

(** X23 (sanitizeCSVValue, exportToCSV): in a row of the export the
    first four fields hold no carriage return, line feed or tab and no
    white space at either end, whatever the values; so the row is a head
    without a line feed followed by the quoted note, and only a note can
    break a row over several lines. *)
Theorem exported_fields_stay_on_one_line (e : LogEntry) (row : jstring) :
  csv_row e = Some row ->
  exists head q,
    row = head ++ q
    /\ escapeCSV (or_empty (note e)) = Some q
    /\ ~ In LF head
    /\ Forall (fun v => Forall (fun c => c <> 13 /\ c <> 10 /\ c <> 9)%N
                          (sanitizeCSVValue v)
                        /\ trim (sanitizeCSVValue v) = sanitizeCSVValue v)
              [id e; date e; domainKey e; score e].
Proof.
  unfold csv_row.
  destruct (escapeCSV (or_empty (note e))) as [q|]; [|discriminate].
  intros [= <-].
  exists (sanitizeCSVValue (id e) ++ [COMMA] ++ sanitizeCSVValue (date e)
          ++ [COMMA] ++ sanitizeCSVValue (domainKey e) ++ [COMMA]
          ++ sanitizeCSVValue (score e) ++ [COMMA]), q.
  split; [|split; [reflexivity|split]].
  - cbn [join]. change (lit ",") with [COMMA].
    rewrite <- !app_assoc. reflexivity.
  - assert (Hf : forall v, ~ In LF (sanitizeCSVValue v)).
    { intros v Hin. destruct (sanitizeCSVValue_clean v) as [H _].
      rewrite Forall_forall in H. destruct (H _ Hin) as (_ & Hlf & _).
      apply Hlf. reflexivity. }
    intros Hin.
    repeat (apply in_app_or in Hin; destruct Hin as [Hin|Hin];
            [first [apply (Hf _ Hin)
                   | destruct Hin as [Hin|[]]; cbv in Hin; discriminate]|]).
    destruct Hin as [Hin|[]]. cbv in Hin. discriminate.
  - repeat constructor; apply sanitizeCSVValue_clean.
Qed.

(** X24 (escapeCSV, importFromCSV): for every string, what the import
    does to a note, stripping the outer quotes and halving the doubled
    ones, undoes what escapeCSV did to it; and the quoted text has no
    white space at its ends for the trimming of the import to take. *)
Theorem note_quoting_round_trip (s : jstring) :
  exists q,
    escapeCSV (VStr s) = Some q
    /\ q = quoted s
    /\ unquote_note (VStr q) = VStr s
    /\ trim q = q.
Proof.
  exists (quoted s).
  split; [|split; [reflexivity|split]].
  - rewrite <- (escapeCSV_string s). unfold escapeCSV.
    destruct s; reflexivity.
  - apply unquote_quoted.
  - apply trim_id; apply quoted_clean.
Qed.

(** X25 (handleSort): after a click the table is sorted by the column
    clicked; a column other than the current one starts descending; the
    current column changes direction, and a second click on it brings the
    sort state back. *)
Theorem handleSort_toggles (column : jstring) (currentSort : SortState) :
  sort_column (handleSort column currentSort) = column
  /\ (sort_column currentSort <> column ->
        sort_direction (handleSort column currentSort) = Desc)
  /\ (sort_column currentSort = column ->
        sort_direction (handleSort column currentSort)
          <> sort_direction currentSort
        /\ handleSort column (handleSort column currentSort) = currentSort).
Proof.
  unfold handleSort.
  destruct (jstring_eqb (sort_column currentSort) column) eqn:E.
  - apply jstring_eqb_eq in E. split; [exact E|]. split; [congruence|].
    intros _. cbn [sort_column sort_direction].
    rewrite E, jstring_eqb_refl. destruct currentSort as [c d].
    cbn in *. subst c. destruct d; split; try discriminate; reflexivity.
  - split; [reflexivity|]. split; [reflexivity|].
    intros H. rewrite H, jstring_eqb_refl in E. discriminate.
Qed.

End Exported.


Lemma entries_stay_valid_witness :
  Forall (fun x => entry_valid x = true)
    (entries (snd (addEntry stable_sort Samples.quoting
                     (Samples.app_of [Samples.tired]))))
  /\ Forall (fun x => entry_valid x = true)
       (entries (snd (deleteEntry stable_sort (VStr (lit "1700000000000"))
                        (Samples.app_of [Samples.tired]))))
  /\ (forall st,
        Samples.import_exported Samples.two_entries_csv
          (Samples.app_of [Samples.tired]) = Some st ->
        Forall (fun x => entry_valid x = true) (imp_entries st)).
Proof.
  apply (entries_stay_valid stable_sort Security.lower_ascii
           Samples.quoting (VStr (lit "1700000000000"))
           (Some (Samples.exported_file Samples.two_entries_csv))
           (Samples.app_of [Samples.tired])).
  - apply stable_sort_rearranges.
  - constructor; [reflexivity|constructor].
Defined.


Lemma importFromCSV_accounting_witness :
  (importFromCSV stable_sort Security.lower_ascii
     (Some (Samples.spreadsheet_file Samples.two_entries_csv))
     (Samples.app_of [Samples.tired]) = None
   /\ importFromCSV stable_sort Security.lower_ascii
        (Some (Samples.large_file Samples.two_entries_csv))
        (Samples.app_of [Samples.tired]) = None)
  /\ (1 + 1 = count_nonblank (import_rows Samples.two_entries_csv))%nat
  /\ (length (import_rows Samples.two_entries_csv) <= maxImportRows)%nat.
Proof.
  split; [split|].
  - apply (importFromCSV_accounting stable_sort Security.lower_ascii
             (Some (Samples.spreadsheet_file Samples.two_entries_csv))
             (Samples.app_of [Samples.tired]) stable_sort_rearranges).
    right. eexists. split; [reflexivity|]. left. reflexivity.
  - apply (importFromCSV_accounting stable_sort Security.lower_ascii
             (Some (Samples.large_file Samples.two_entries_csv))
             (Samples.app_of [Samples.tired]) stable_sort_rearranges).
    right. eexists. split; [reflexivity|]. right. left. reflexivity.
  - destruct (importFromCSV_accounting stable_sort Security.lower_ascii
                (Some (Samples.exported_file Samples.two_entries_csv))
                (Samples.app_of [Samples.tired]) stable_sort_rearranges)
      as [_ H].
    destruct (H {| imp_entries := [Samples.quoting; Samples.tired];
                   importedCount := 1; skippedCount := 1 |} eq_refl)
      as (f & text & Hf & Ht & H1 & H2 & _).
    injection Hf as <-. cbn [Samples.exported_file file_text] in Ht.
    injection Ht as <-.
    split; [exact H1|exact H2].
Defined.

Lemma addEntry_in_supported_languages_witness :
  fst (addEntry stable_sort Samples.tired
         {| entries := entries Samples.empty_app;
            currentLanguage := lit "fa";
            currentSort := currentSort Samples.empty_app |})
  = fst (addEntry stable_sort Samples.tired Samples.empty_app)
  /\ is_number (score Samples.tired) = true.
Proof.
  destruct (addEntry_in_supported_languages stable_sort Samples.tired
              (lit "fa") Samples.empty_app) as (H & _ & Hn);
    [left; reflexivity|right; reflexivity|].
  split; [exact H|exact (Hn eq_refl)].
Defined.

Lemma exported_fields_stay_on_one_line_witness :
  exists head q,
    Samples.tired_row = head ++ q
    /\ escapeCSV (or_empty (note Samples.tired)) = Some q
    /\ ~ In LF head
    /\ Forall (fun v => Forall (fun c => c <> 13 /\ c <> 10 /\ c <> 9)%N
                          (sanitizeCSVValue v)
                        /\ trim (sanitizeCSVValue v) = sanitizeCSVValue v)
              [id Samples.tired; date Samples.tired;
               domainKey Samples.tired; score Samples.tired].
Proof.
  apply (exported_fields_stay_on_one_line Samples.tired Samples.tired_row).
  reflexivity.
Defined.

Lemma handleSort_toggles_witness :
  handleSort (lit "date")
    (handleSort (lit "date")
       {| sort_column := lit "date"; sort_direction := Desc |})
  = {| sort_column := lit "date"; sort_direction := Desc |}.
Proof.
  apply (handleSort_toggles (lit "date")
           {| sort_column := lit "date"; sort_direction := Desc |}).
  reflexivity.
Defined.

End CollectionFacts.

(* ================================================================== *)
(** * Further properties: tokens and the log of policy violations *)
(* ================================================================== *)

Module TokenAndViolationFacts.
Import JS Security.

Lemma hex_digit_is_hex n : (n < 16)%N -> is_hex_digit (hex_digit n) = true.
Proof.
  intros Hn. unfold hex_digit, is_hex_digit.
  destruct (N.ltb_spec n 10).
  - apply orb_true_iff. left. apply andb_true_iff.
    split; apply N.leb_le; lia.
  - apply orb_true_iff. right. apply andb_true_iff.
    split; apply N.leb_le; lia.
Qed.

Lemma hex_digit_inj n m :
  (n < 16)%N -> (m < 16)%N -> hex_digit n = hex_digit m -> n = m.
Proof.
  unfold hex_digit. intros Hn Hm.
  destruct (N.ltb_spec n 10); destruct (N.ltb_spec m 10); lia.
Qed.

Lemma byte_hex_inj a b :
  (a < 256)%N -> (b < 256)%N -> byte_hex a = byte_hex b -> a = b.
Proof.
  unfold byte_hex. intros Ha Hb [= Hhigh Hlow].
  assert (Hdiv : forall x, (x < 256 -> x / 16 < 16 /\ x mod 16 < 16)%N).
  { intros x Hx. split; zify; Z.to_euclidean_division_equations; lia. }
  apply hex_digit_inj in Hhigh; [|apply Hdiv; assumption..].
  apply hex_digit_inj in Hlow; [|apply Hdiv; assumption..].
  rewrite (N.div_mod a 16), (N.div_mod b 16) by discriminate.
  rewrite Hhigh, Hlow. reflexivity.
Qed.

Lemma bytes_hex_shape : forall bytes,
  Forall (fun b => (b < 256)%N) bytes ->
  length (flat_map byte_hex bytes) = (2 * length bytes)%nat
  /\ forallb is_hex_digit (flat_map byte_hex bytes) = true.
Proof.
  induction 1 as [|b bytes Hb _ [IHlen IHhex]]; [split; reflexivity|].
  cbn [flat_map byte_hex app length forallb]. split; [rewrite IHlen; lia|].
  rewrite IHhex, !hex_digit_is_hex; [reflexivity|..];
    zify; Z.to_euclidean_division_equations; lia.
Qed.

Lemma bytes_hex_inj : forall a b,
  Forall (fun x => (x < 256)%N) a -> Forall (fun x => (x < 256)%N) b ->
  flat_map byte_hex a = flat_map byte_hex b -> a = b.
Proof.
  induction a as [|x a IH]; intros [|y b] Ha Hb H; try discriminate.
  - reflexivity.
  - inversion Ha as [|? ? Hx Ha']. inversion Hb as [|? ? Hy Hb']. subst.
    cbn [flat_map byte_hex app] in H. injection H as H1 H2 H3.
    f_equal.
    + apply byte_hex_inj; [assumption..|]. unfold byte_hex. congruence.
    + apply IH; assumption.
Qed.

(** X26 (generateSecureToken): with crypto.getRandomValues the token
    of a given length has twice as many characters, all of them
    hexadecimal digits in lower case, and different bytes give different
    tokens; without it the token has only as many characters as the
    length says, one hexadecimal digit for each draw. *)
Theorem generateSecureToken_shape
    (n : nat) (getRandomValues : nat -> list N) (draws : nat -> N) :
  (forall k, length (getRandomValues k) = k
             /\ Forall (fun b => (b < 256)%N) (getRandomValues k)) ->
  (forall i, (draws i < 16)%N) ->
  length (generateSecureToken n (Crypto getRandomValues)) = (2 * n)%nat
  /\ forallb is_hex_digit (generateSecureToken n (Crypto getRandomValues)) = true
  /\ (forall other,
        (forall k, length (other k) = k
                   /\ Forall (fun b => (b < 256)%N) (other k)) ->
        generateSecureToken n (Crypto other)
          = generateSecureToken n (Crypto getRandomValues) ->
        other n = getRandomValues n)
  /\ length (generateSecureToken n (MathRandom draws)) = n
  /\ forallb is_hex_digit (generateSecureToken n (MathRandom draws)) = true.
Proof.
  intros Hbytes Hdraws. cbn [generateSecureToken].
  destruct (Hbytes n) as [Hlen Hlt].
  destruct (bytes_hex_shape _ Hlt) as [Hl Hh].
  split; [rewrite Hl, Hlen; reflexivity|]. split; [exact Hh|].
  split; [|split].
  - intros other Hother H. destruct (Hother n) as [_ Hlt'].
    apply bytes_hex_inj; assumption.
  - rewrite length_map, length_seq. reflexivity.
  - apply forallb_forall. intros c Hc. apply in_map_iff in Hc.
    destruct Hc as (i & <- & _). apply hex_digit_is_hex, Hdraws.
Qed.

Lemma generateSecureToken_shape_witness :
  length (generateSecureToken 16 (Crypto (repeat 171%N))) = (2 * 16)%nat
  /\ length (generateSecureToken 16
               (MathRandom (fun i => (N.of_nat i mod 16)%N))) = 16%nat.
Proof.
  destruct (generateSecureToken_shape 16 (repeat 171%N)
              (fun i => (N.of_nat i mod 16)%N)) as (H1 & _ & _ & H2 & _).
  - intros k. split; [apply repeat_length|].
    apply Forall_forall. intros b Hb. apply repeat_spec in Hb. subst b.
    reflexivity.
  - intros i. apply N.mod_lt. discriminate.
  - split; [exact H1|exact H2].
Defined.

Section Violations.
Variable Violation : Type.

Lemma record_violation_slice (v : Violation) log :
  record_violation v log = slice_last 50 (log ++ [v]).
Proof.
  unfold record_violation.
  destruct (Nat.ltb_spec 50 (length (log ++ [v]))) as [H|H]; [reflexivity|].
  unfold slice_last.
  replace (length (log ++ [v]) - 50)%nat with 0%nat by lia.
  reflexivity.
Qed.

Lemma record_all_slice (violations : list Violation) : forall seen log,
  log = slice_last 50 seen ->
  record_all violations log = slice_last 50 (seen ++ violations).
Proof.
  induction violations as [|v violations IH]; intros seen log ->.
  - cbn. rewrite app_nil_r. reflexivity.
  - cbn [record_all fold_left].
    change (fold_left _ violations ?e) with (record_all violations e).
    rewrite (IH (seen ++ [v])).
    + rewrite <- app_assoc. reflexivity.
    + rewrite record_violation_slice.
      apply ErrorHandlerFacts.slice_last_app.
Qed.

(** X27 (setupCSPReporting): after any series of violation events on
    a fresh manager the list of violations is the last fifty of them, in
    their order, or all of them when there are fewer. *)
Theorem cspViolations_keeps_the_last_fifty (violations : list Violation) :
  record_all violations [] = slice_last 50 violations
  /\ length (record_all violations []) = Nat.min (length violations) 50
  /\ exists dropped,
       violations = dropped ++ record_all violations []
       /\ length dropped = (length violations - 50)%nat.
Proof.
  assert (Hall : record_all violations [] = slice_last 50 violations).
  { apply (record_all_slice violations [] []). reflexivity. }
  split; [exact Hall|]. split.
  - rewrite Hall. unfold slice_last. rewrite length_skipn. lia.
  - exists (firstn (length violations - 50) violations). rewrite Hall.
    split; [symmetry; apply firstn_skipn|].
    rewrite length_firstn. lia.
Qed.

End Violations.

End TokenAndViolationFacts.
